(** * gemfile-go: lockfile parser, lockfile writer, manifest parsers

    A shallow embedding of the Go sources of gemfile-go:
    - [src/lockfile/parser.go]   : the Gemfile.lock section state machine;
    - [src/lockfile/writer.go]   : the Gemfile.lock writer;
    - [src/gemfile/parser.go]    : manifest [Parse], the line-oriented parser;
    - [src/gemfile/gemspec_parser.go] : the three-tier gemspec parser;
    - [src/gemfile/tree_sitter_common.go] : the Gemfile writer (AddGem/RemoveGem);
    - the tree-sitter Gemfile walker (applyGemOption and friends).

    Go strings are byte sequences: they are modelled as [list ascii]. *)

From Stdlib Require Import String Ascii List Bool NArith Arith Lia Permutation.
Import ListNotations.
Open Scope list_scope.

(* ================================================================== *)
(** ** Go strings and the [strings] package *)

Definition str := list ascii.
Definition lit (s : string) : str := list_ascii_of_string s.
Definition chr (n : nat) : ascii := ascii_of_nat n.

(** [strings.HasPrefix] *)
Fixpoint has_prefix (p s : str) : bool :=
  match p, s with
  | [], _ => true
  | c :: p', d :: s' => (c =? d)%char && has_prefix p' s'
  | _ :: _, [] => false
  end.

(** [strings.TrimPrefix] *)
Definition trim_prefix (p s : str) : str :=
  if has_prefix p s then skipn (length p) s else s.

(** [strings.Contains] *)
Fixpoint contains (sub s : str) : bool :=
  has_prefix sub s || match s with [] => false | _ :: s' => contains sub s' end.

(** [strings.Split(s, sep)] for a one-byte separator. *)
Fixpoint split_on (sep : ascii) (s : str) : list str :=
  match s with
  | [] => [[]]
  | c :: s' =>
      if (c =? sep)%char then [] :: split_on sep s'
      else match split_on sep s' with
           | p :: ps => (c :: p) :: ps
           | [] => [[c]]
           end
  end.

(** [strings.Join(parts, sep)] *)
Fixpoint join (sep : str) (parts : list str) : str :=
  match parts with
  | [] => []
  | [p] => p
  | p :: ps => p ++ sep ++ join sep ps
  end.

(** The UTF-8 encodings of the runes for which [unicode.IsSpace] holds:
    U+0009..U+000D, U+0020, U+0085, U+00A0, U+1680, U+2000..U+200A,
    U+2028, U+2029, U+202F, U+205F, U+3000.  A decoded rune is a space
    exactly when the bytes at that position are one of these encodings
    (invalid bytes decode to U+FFFD, which is not a space). *)
Definition space_encodings : list str :=
  [[chr 9]; [chr 10]; [chr 11]; [chr 12]; [chr 13]; [chr 32];
   [chr 194; chr 133]; [chr 194; chr 160];
   [chr 225; chr 154; chr 128]]
  ++ map (fun k => [chr 226; chr 128; chr (128 + k)]) (seq 0 11)
  ++ [[chr 226; chr 128; chr 168]; [chr 226; chr 128; chr 169];
      [chr 226; chr 128; chr 175]; [chr 226; chr 129; chr 159];
      [chr 227; chr 128; chr 128]].

(** Width of the encoding from [encs] that [s] starts with, if any. *)
Fixpoint lead_enc (encs : list str) (s : str) : option nat :=
  match encs with
  | [] => None
  | e :: es => if has_prefix e s then Some (length e) else lead_enc es s
  end.

Fixpoint strip_fuel (fuel : nat) (encs : list str) (s : str) : str :=
  match fuel with
  | O => s
  | S f =>
      match lead_enc encs s with
      | Some n => strip_fuel f encs (skipn n s)
      | None => s
      end
  end.

(** Drop leading encodings of [encs] as long as there is one. *)
Definition strip (encs : list str) (s : str) : str := strip_fuel (length s) encs s.

(** [strings.TrimLeftFunc(s, unicode.IsSpace)] *)
Definition trim_left_space (s : str) : str := strip space_encodings s.

(** [strings.TrimRightFunc(s, unicode.IsSpace)]: decoding the last rune
    backwards yields a space exactly when [s] ends with a space encoding. *)
Definition trim_right_space (s : str) : str :=
  rev (strip (map (@rev ascii) space_encodings) (rev s)).

(** [strings.TrimSpace]: its ASCII fast path and its [TrimFunc] slow path
    both compute the right trim of the left trim. *)
Definition TrimSpace (s : str) : str := trim_right_space (trim_left_space s).

(** [strings.Fields(s)[0]] on a string that does not start with a space:
    the bytes up to the first space rune. *)
Fixpoint first_field (s : str) : str :=
  match s with
  | [] => []
  | c :: s' =>
      match lead_enc space_encodings s with
      | Some _ => []
      | None => c :: first_field s'
      end
  end.

(** [strings.Fields(s)], reduced to what the callers use: the first field,
    if there is one. *)
Definition fields_first (s : str) : option str :=
  match trim_left_space s with
  | [] => None
  | t => Some (first_field t)
  end.

(** [strings.Compare]: bytewise lexicographic order. *)
Fixpoint str_compare (a b : str) : comparison :=
  match a, b with
  | [], [] => Eq
  | [], _ :: _ => Lt
  | _ :: _, [] => Gt
  | x :: a', y :: b' =>
      match N.compare (N_of_ascii x) (N_of_ascii y) with
      | Eq => str_compare a' b'
      | c => c
      end
  end.

Definition str_eqb (a b : str) : bool :=
  match str_compare a b with Eq => true | _ => false end.

(* ================================================================== *)
(** ** [bufio.Scanner] with [bufio.ScanLines]

    The reader delivers [r_data] and then either [io.EOF] or, when
    [r_fails], a read error.  The scanner's buffer grows up to
    [MaxScanTokenSize] = 64 KiB; a token that does not fit is [ErrTooLong].
    A line of [n] bytes followed by a newline needs [n + 1] bytes of
    buffer; the last, unterminated line of [n] bytes fits when [n] is below
    the limit (the reader reports [io.EOF] on a separate call, as
    [strings.Reader], [bytes.Reader] and [os.File] do).  [ScanLines] drops
    one trailing carriage return from each line. *)

Record reader := { r_data : str; r_fails : bool }.

Inductive scan_error := ErrTooLong | ErrRead.

Definition maxTokenSize : N := 65536.

Definition dropCR (t : str) : str :=
  match rev t with
  | c :: r => if (c =? chr 13)%char then rev r else t
  | [] => t
  end.

(** [cur] holds the bytes of the current line in reverse, [n] its length. *)
Fixpoint scan_go (cur : str) (n : N) (d : str) (fails : bool)
  : list str * option scan_error :=
  match d with
  | [] =>
      if (maxTokenSize <=? n)%N then ([], Some ErrTooLong)
      else ((if (n =? 0)%N then [] else [dropCR (rev cur)]),
            if fails then Some ErrRead else None)
  | c :: d' =>
      if (c =? chr 10)%char then
        if (n <? maxTokenSize)%N then
          let (ts, e) := scan_go [] 0 d' fails in (dropCR (rev cur) :: ts, e)
        else ([], Some ErrTooLong)
      else scan_go (c :: cur) (N.succ n) d' fails
  end.

Definition scan_lines (r : reader) : list str * option scan_error :=
  scan_go [] 0 (r_data r) (r_fails r).

(* ================================================================== *)
(** ** Lockfile data model ([src/lockfile/parser.go])

    Only the fields that the parser or the writer read or write are kept;
    the others ([Groups], [Checksum], installation metadata, ...) are never
    set by [Parse] and never read by [Write]. *)

Record Dependency := mkDependency {
  dep_Name : str;
  dep_Constraints : list str
}.

Record GemSpec := mkGemSpec {
  gs_Name : str;
  gs_Version : str;
  gs_Platform : str;
  gs_Dependencies : list Dependency;
  gs_SourceURL : str
}.

Record GitGemSpec := mkGitGemSpec {
  git_Name : str;
  git_Version : str;
  git_Remote : str;
  git_Revision : str;
  git_Branch : str;
  git_Tag : str;
  git_Dependencies : list Dependency
}.

Record PathGemSpec := mkPathGemSpec {
  path_Name : str;
  path_Version : str;
  path_Remote : str;
  path_Dependencies : list Dependency
}.

Record Lockfile := mkLockfile {
  GemSpecs : list GemSpec;
  GitSpecs : list GitGemSpec;
  PathSpecs : list PathGemSpec;
  Platforms : list str;
  Dependencies : list Dependency;
  BundledWith : str
}.

Definition emptyLockfile : Lockfile := mkLockfile [] [] [] [] [] [].
Definition emptyGit : GitGemSpec := mkGitGemSpec [] [] [] [] [] [] [].
Definition emptyPath : PathGemSpec := mkPathGemSpec [] [] [] [].

(** Field updates, one per assignment of the Go code. *)
Definition lf_add_gem (l : Lockfile) (g : GemSpec) : Lockfile :=
  mkLockfile (GemSpecs l ++ [g]) (GitSpecs l) (PathSpecs l) (Platforms l)
             (Dependencies l) (BundledWith l).
Definition lf_add_git (l : Lockfile) (g : GitGemSpec) : Lockfile :=
  mkLockfile (GemSpecs l) (GitSpecs l ++ [g]) (PathSpecs l) (Platforms l)
             (Dependencies l) (BundledWith l).
Definition lf_add_path (l : Lockfile) (g : PathGemSpec) : Lockfile :=
  mkLockfile (GemSpecs l) (GitSpecs l) (PathSpecs l ++ [g]) (Platforms l)
             (Dependencies l) (BundledWith l).
Definition lf_add_platform (l : Lockfile) (p : str) : Lockfile :=
  mkLockfile (GemSpecs l) (GitSpecs l) (PathSpecs l) (Platforms l ++ [p])
             (Dependencies l) (BundledWith l).
Definition lf_add_dependency (l : Lockfile) (d : Dependency) : Lockfile :=
  mkLockfile (GemSpecs l) (GitSpecs l) (PathSpecs l) (Platforms l)
             (Dependencies l ++ [d]) (BundledWith l).
Definition lf_set_bundled (l : Lockfile) (v : str) : Lockfile :=
  mkLockfile (GemSpecs l) (GitSpecs l) (PathSpecs l) (Platforms l)
             (Dependencies l) v.

Definition git_set_remote (g : GitGemSpec) (v : str) : GitGemSpec :=
  mkGitGemSpec (git_Name g) (git_Version g) v (git_Revision g) (git_Branch g)
               (git_Tag g) (git_Dependencies g).
Definition git_set_revision (g : GitGemSpec) (v : str) : GitGemSpec :=
  mkGitGemSpec (git_Name g) (git_Version g) (git_Remote g) v (git_Branch g)
               (git_Tag g) (git_Dependencies g).
Definition git_set_branch (g : GitGemSpec) (v : str) : GitGemSpec :=
  mkGitGemSpec (git_Name g) (git_Version g) (git_Remote g) (git_Revision g) v
               (git_Tag g) (git_Dependencies g).
Definition git_set_tag (g : GitGemSpec) (v : str) : GitGemSpec :=
  mkGitGemSpec (git_Name g) (git_Version g) (git_Remote g) (git_Revision g)
               (git_Branch g) v (git_Dependencies g).
Definition git_set_name_version (g : GitGemSpec) (n v : str) : GitGemSpec :=
  mkGitGemSpec n v (git_Remote g) (git_Revision g) (git_Branch g)
               (git_Tag g) (git_Dependencies g).
Definition git_add_dep (g : GitGemSpec) (d : Dependency) : GitGemSpec :=
  mkGitGemSpec (git_Name g) (git_Version g) (git_Remote g) (git_Revision g)
               (git_Branch g) (git_Tag g) (git_Dependencies g ++ [d]).

Definition path_set_remote (g : PathGemSpec) (v : str) : PathGemSpec :=
  mkPathGemSpec (path_Name g) (path_Version g) v (path_Dependencies g).
Definition path_set_name_version (g : PathGemSpec) (n v : str) : PathGemSpec :=
  mkPathGemSpec n v (path_Remote g) (path_Dependencies g).
Definition path_add_dep (g : PathGemSpec) (d : Dependency) : PathGemSpec :=
  mkPathGemSpec (path_Name g) (path_Version g) (path_Remote g)
                (path_Dependencies g ++ [d]).

Definition gem_add_dep (g : GemSpec) (d : Dependency) : GemSpec :=
  mkGemSpec (gs_Name g) (gs_Version g) (gs_Platform g)
            (gs_Dependencies g ++ [d]) (gs_SourceURL g).

(* ================================================================== *)
(** ** The regular expressions of the lockfile parser *)

(** [[a-zA-Z0-9\-_]] *)
Definition is_name_char (c : ascii) : bool :=
  let n := nat_of_ascii c in
  ((97 <=? n) && (n <=? 122)) || ((65 <=? n) && (n <=? 90))
  || ((48 <=? n) && (n <=? 57)) || (n =? 45) || (n =? 95).

(** The longest prefix of name characters, and the rest. *)
Fixpoint span_name (s : str) : str * str :=
  match s with
  | c :: s' =>
      if is_name_char c then let (a, b) := span_name s' in (c :: a, b)
      else ([], s)
  | [] => ([], [])
  end.

Definition no_close_paren (v : str) : bool :=
  forallb (fun c => negb (c =? ")")%char) v.

(** [ \(([^)]+)\)$] : the parenthesised group at the end of the text. *)
Definition match_paren_tail (rest : str) : option str :=
  match rest with
  | " " :: "(" :: inner =>
      match rev inner with
      | ")" :: vrev =>
          let v := rev vrev in
          match v with
          | [] => None
          | _ => if no_close_paren v then Some v else None
          end
      | _ => None
      end
  | _ => None
  end%char.

(** [gemSpecRegex = ^    ([a-zA-Z0-9\-_]+) \(([^)]+)\)$]: the name group is
    the maximal run of name characters, since the next byte is a space. *)
Definition match_gemspec (line : str) : option (str * str) :=
  if has_prefix (lit "    ") line then
    let (name, rest) := span_name (skipn 4 line) in
    match name with
    | [] => None
    | _ => match match_paren_tail rest with
           | Some v => Some (name, v)
           | None => None
           end
    end
  else None.

(** [depRegex = ^      ([a-zA-Z0-9\-_]+)(?: \(([^)]+)\))?$]; the second
    group is [""] when the optional part is absent. *)
Definition match_dep (line : str) : option (str * str) :=
  if has_prefix (lit "      ") line then
    let (name, rest) := span_name (skipn 6 line) in
    match name with
    | [] => None
    | _ => match rest with
           | [] => Some (name, [])
           | _ => match match_paren_tail rest with
                  | Some v => Some (name, v)
                  | None => None
                  end
           end
    end
  else None.

(** [^([a-zA-Z0-9\-_]+) \(([^)]+)\)$] of the DEPENDENCIES section. *)
Definition match_top_dep (line : str) : option (str * str) :=
  let (name, rest) := span_name line in
  match name with
  | [] => None
  | _ => match match_paren_tail rest with
         | Some v => Some (name, v)
         | None => None
         end
  end.

(** [parseConstraints] *)
Definition parseConstraints (s : str) : list str :=
  filter (fun c => negb (match c with [] => true | _ => false end))
         (map TrimSpace (split_on "," s)).

(** The version/platform split of a GEM entry. *)
Definition platform_indicator (v : str) : bool :=
  contains (lit "x86") v || contains (lit "darwin") v
  || contains (lit "linux") v || contains (lit "java") v.

Definition split_version_platform (vp : str) : str * str :=
  let parts := split_on "-" vp in
  if (3 <=? length parts) && platform_indicator vp then
    (hd [] parts, join (lit "-") (tl parts))
  else (vp, []).

Definition dependency_of_match (m : str * str) : Dependency :=
  let (n, c) := m in
  mkDependency n (match c with [] => [] | _ => parseConstraints c end).

(* ================================================================== *)
(** ** [lockfile.Parse]: the section state machine *)

(** [currentSection]: [""] initially, then one of the section names. *)
Inductive section :=
  | SecNone | SecGEM | SecGIT | SecPATH | SecPLATFORMS | SecDEPENDENCIES
  | SecBUNDLED_WITH.

Record pstate := mkPstate {
  currentSection : section;
  currentGem : option GemSpec;
  currentGitGem : option GitGemSpec;
  currentPathGem : option PathGemSpec;
  lockfile : Lockfile
}.

Definition init_pstate : pstate := mkPstate SecNone None None None emptyLockfile.

(** [if currentGem != nil { append; currentGem = nil }] and its siblings. *)
Definition flush_gem (st : pstate) : pstate :=
  match currentGem st with
  | Some g => mkPstate (currentSection st) None (currentGitGem st)
                       (currentPathGem st) (lf_add_gem (lockfile st) g)
  | None => st
  end.
Definition flush_git (st : pstate) : pstate :=
  match currentGitGem st with
  | Some g => mkPstate (currentSection st) (currentGem st) None
                       (currentPathGem st) (lf_add_git (lockfile st) g)
  | None => st
  end.
Definition flush_path (st : pstate) : pstate :=
  match currentPathGem st with
  | Some g => mkPstate (currentSection st) (currentGem st) (currentGitGem st)
                       None (lf_add_path (lockfile st) g)
  | None => st
  end.

Definition set_section (s : section) (st : pstate) : pstate :=
  mkPstate s (currentGem st) (currentGitGem st) (currentPathGem st) (lockfile st).
Definition set_gem (g : option GemSpec) (st : pstate) : pstate :=
  mkPstate (currentSection st) g (currentGitGem st) (currentPathGem st) (lockfile st).
Definition set_git (g : GitGemSpec) (st : pstate) : pstate :=
  mkPstate (currentSection st) (currentGem st) (Some g) (currentPathGem st) (lockfile st).
Definition set_path (g : PathGemSpec) (st : pstate) : pstate :=
  mkPstate (currentSection st) (currentGem st) (currentGitGem st) (Some g) (lockfile st).
Definition set_lockfile (l : Lockfile) (st : pstate) : pstate :=
  mkPstate (currentSection st) (currentGem st) (currentGitGem st) (currentPathGem st) l.

(** [if currentGitGem == nil { currentGitGem = &GitGemSpec{} }] *)
Definition git_or_new (st : pstate) : GitGemSpec :=
  match currentGitGem st with Some g => g | None => emptyGit end.
Definition path_or_new (st : pstate) : PathGemSpec :=
  match currentPathGem st with Some g => g | None => emptyPath end.

(** The [switch line] on the exact section headers. *)
Definition header (line : str) : option section :=
  if list_eq_dec ascii_dec line (lit "GEM") then Some SecGEM
  else if list_eq_dec ascii_dec line (lit "GIT") then Some SecGIT
  else if list_eq_dec ascii_dec line (lit "PATH") then Some SecPATH
  else if list_eq_dec ascii_dec line (lit "PLATFORMS") then Some SecPLATFORMS
  else if list_eq_dec ascii_dec line (lit "DEPENDENCIES") then Some SecDEPENDENCIES
  else None.

Definition on_header (s : section) (st : pstate) : pstate :=
  match s with
  | SecGEM => set_section SecGEM (flush_path (flush_git st))
  | _ => set_section s (flush_path (flush_git (flush_gem st)))
  end.

(** The section-dependent part of the loop body ([switch currentSection]). *)
Definition section_line (line : str) (st : pstate) : pstate :=
  match currentSection st with
  | SecGEM =>
      match match_gemspec line with
      | Some (name, vp) =>
          let st1 := flush_gem st in
          let (v, p) := split_version_platform vp in
          set_gem (Some (mkGemSpec name v p [] [])) st1
      | None =>
          match match_dep line, currentGem st with
          | Some m, Some g => set_gem (Some (gem_add_dep g (dependency_of_match m))) st
          | _, _ => st
          end
      end
  | SecGIT =>
      match match_gemspec line with
      | Some (name, v) => set_git (git_set_name_version (git_or_new st) name v) st
      | None =>
          match match_dep line, currentGitGem st with
          | Some m, Some g => set_git (git_add_dep g (dependency_of_match m)) st
          | _, _ => st
          end
      end
  | SecPATH =>
      match match_gemspec line with
      | Some (name, v) => set_path (path_set_name_version (path_or_new st) name v) st
      | None =>
          match match_dep line, currentPathGem st with
          | Some m, Some g => set_path (path_add_dep g (dependency_of_match m)) st
          | _, _ => st
          end
      end
  | SecPLATFORMS =>
      if has_prefix (lit "  ") line
      then set_lockfile (lf_add_platform (lockfile st) (TrimSpace line)) st
      else st
  | SecDEPENDENCIES =>
      if has_prefix (lit "  ") line then
        let depLine := TrimSpace line in
        match match_top_dep depLine with
        | Some (n, c) =>
            set_lockfile (lf_add_dependency (lockfile st) (mkDependency n (parseConstraints c))) st
        | None =>
            match fields_first depLine with
            | Some f => set_lockfile (lf_add_dependency (lockfile st) (mkDependency f [])) st
            | None => st
            end
        end
      else st
  | SecBUNDLED_WITH =>
      if has_prefix (lit "   ") line
      then set_lockfile (lf_set_bundled (lockfile st) (TrimSpace line)) st
      else st
  | SecNone => st
  end.

(** One iteration of the [for scanner.Scan()] loop of [Parse]. *)
Definition section_is_git (st : pstate) : bool :=
  match currentSection st with SecGIT => true | _ => false end.

Definition step (line : str) (st : pstate) : pstate :=
  match header line with
  | Some s => on_header s st
  | None =>
  if has_prefix (lit "BUNDLED WITH") line then set_section SecBUNDLED_WITH st
  else if has_prefix (lit "  remote:") line then
    match currentSection st with
    | SecGIT =>
        set_git (git_set_remote (git_or_new st)
                   (TrimSpace (trim_prefix (lit "  remote:") line))) st
    | SecPATH =>
        set_path (path_set_remote (path_or_new st)
                    (TrimSpace (trim_prefix (lit "  remote:") line))) st
    | _ => st
    end
  else if has_prefix (lit "  revision:") line && section_is_git st then
    set_git (git_set_revision (git_or_new st)
               (TrimSpace (trim_prefix (lit "  revision:") line))) st
  else if has_prefix (lit "  branch:") line && section_is_git st then
    set_git (git_set_branch (git_or_new st)
               (TrimSpace (trim_prefix (lit "  branch:") line))) st
  else if has_prefix (lit "  tag:") line && section_is_git st then
    set_git (git_set_tag (git_or_new st)
               (TrimSpace (trim_prefix (lit "  tag:") line))) st
  else if has_prefix (lit "  specs:") line then st
  else section_line line st
  end.

Definition run_lines (lines : list str) (st : pstate) : pstate :=
  fold_left (fun s l => step l s) lines st.

(** After the loop: the last open entries are appended. *)
Definition finish (st : pstate) : Lockfile :=
  lockfile (flush_path (flush_git (flush_gem st))).

(** [Parse(reader)]: [None] stands for [(nil, err)]. *)
Definition Parse (r : reader) : option Lockfile :=
  let (lines, err) := scan_lines r in
  let lf := finish (run_lines lines init_pstate) in
  match err with
  | Some _ => None
  | None => Some lf
  end.

Definition text (ls : list string) : str :=
  concat (map (fun l => lit l ++ [chr 10]) ls).
Definition ok_reader (d : str) : reader := {| r_data := d; r_fails := false |}.

(* ================================================================== *)
(** ** [lockfile.Write] ([src/lockfile/writer.go])

    Go maps are modelled as association lists in first-insertion order.
    Their iteration order is random and [slices.Sort]/[slices.SortFunc]
    are not stable, so the writer is parametrised by the sorting function
    [sort_by]: the development only assumes that it returns a permutation
    of its input, which every run of the Go code does. *)

Definition nl : str := [chr 10].

(** [m[k] = f(m[k])] on a map in insertion order. *)
Fixpoint amap_alter {V : Type} (k : str) (f : option V -> V) (m : list (str * V))
  : list (str * V) :=
  match m with
  | [] => [(k, f None)]
  | (k', v) :: m' =>
      if str_eqb k k' then (k', f (Some v)) :: m' else (k', v) :: amap_alter k f m'
  end.

Definition defaultGemRemote : str := lit "https://rubygems.org/".
Definition indent2 : str := lit "  ".
Definition indent4 : str := lit "    ".
Definition indent6 : str := lit "      ".

Record gitSource := mkGitSource {
  src_remote : str;
  src_revision : str;
  src_branch : str;
  src_tag : str;
  src_specs : list GitGemSpec
}.

Record pathSource := mkPathSource {
  psrc_remote : str;
  psrc_specs : list PathGemSpec
}.

(** [fmt.Sprintf("%s|%s|%s|%s", Remote, Revision, Branch, Tag)] *)
Definition git_key (g : GitGemSpec) : str :=
  git_Remote g ++ lit "|" ++ git_Revision g ++ lit "|" ++ git_Branch g
  ++ lit "|" ++ git_Tag g.

Section Writer.

Variable sort_by : forall A : Type, (A -> A -> comparison) -> list A -> list A.

Definition by_dep_name (a b : Dependency) : comparison := str_compare (dep_Name a) (dep_Name b).

(** [writeDependency] *)
Definition writeDependency (indent : str) (d : Dependency) : str :=
  match dep_Constraints d with
  | [] => indent ++ dep_Name d ++ nl
  | cs => indent ++ dep_Name d ++ lit " (" ++ join (lit ", ") cs ++ lit ")" ++ nl
  end.

Definition writeDeps (indent : str) (ds : list Dependency) : str :=
  concat (map (writeDependency indent) (sort_by _ by_dep_name ds)).

(** [writeGemSpec] *)
Definition writeGemSpec (g : GemSpec) : str :=
  let version := match gs_Platform g with
                 | [] => gs_Version g
                 | p => gs_Version g ++ lit "-" ++ p
                 end in
  indent4 ++ gs_Name g ++ lit " (" ++ version ++ lit ")" ++ nl
  ++ writeDeps indent6 (gs_Dependencies g).

Definition gem_source (g : GemSpec) : str :=
  match gs_SourceURL g with [] => defaultGemRemote | s => s end.

Definition gemsBySource (gs : list GemSpec) : list (str * list GemSpec) :=
  fold_left (fun m g => amap_alter (gem_source g)
                          (fun o => match o with Some l => l ++ [g] | None => [g] end) m)
            gs [].

Definition writeGemBlock (source : str) (specs : list GemSpec) : str :=
  lit "GEM" ++ nl ++ indent2 ++ lit "remote: " ++ source ++ nl ++ indent2 ++ lit "specs:" ++ nl
  ++ concat (map writeGemSpec
                 (sort_by _ (fun a b => str_compare (gs_Name a) (gs_Name b)) specs)).

(** [writeGemSection]: one GEM block per source URL, sources sorted. *)
Definition writeGemSection (lf : Lockfile) : str :=
  match GemSpecs lf with
  | [] => []
  | gs =>
      let m := gemsBySource gs in
      let sources := sort_by _ str_compare (map fst m) in
      concat (map (fun '(i, source) =>
                     (if (0 <? i)%nat then nl else [])
                     ++ writeGemBlock source
                          (match find (fun kv => str_eqb (fst kv) source) m with
                           | Some (_, l) => l
                           | None => []
                           end))
                  (combine (seq 0 (length sources)) sources))
  end.

(** [writeGitGemSpec] and [writePathGemSpec] *)
Definition writeGitGemSpec (g : GitGemSpec) : str :=
  indent4 ++ git_Name g ++ lit " (" ++ git_Version g ++ lit ")" ++ nl
  ++ writeDeps indent6 (git_Dependencies g).

Definition writePathGemSpec (g : PathGemSpec) : str :=
  indent4 ++ path_Name g ++ lit " (" ++ path_Version g ++ lit ")" ++ nl
  ++ writeDeps indent6 (path_Dependencies g).

Definition gitSourceMap (gs : list GitGemSpec) : list (str * gitSource) :=
  fold_left (fun m g =>
               amap_alter (git_key g)
                 (fun o => let s := match o with
                                    | Some s => s
                                    | None => mkGitSource (git_Remote g) (git_Revision g)
                                                (git_Branch g) (git_Tag g) []
                                    end in
                           mkGitSource (src_remote s) (src_revision s) (src_branch s)
                                       (src_tag s) (src_specs s ++ [g])) m)
            gs [].

Definition writeGitBlock (s : gitSource) : str :=
  nl ++ lit "GIT" ++ nl
  ++ indent2 ++ lit "remote: " ++ src_remote s ++ nl
  ++ indent2 ++ lit "revision: " ++ src_revision s ++ nl
  ++ (match src_branch s with [] => [] | b => indent2 ++ lit "branch: " ++ b ++ nl end)
  ++ (match src_tag s with [] => [] | t => indent2 ++ lit "tag: " ++ t ++ nl end)
  ++ indent2 ++ lit "specs:" ++ nl
  ++ concat (map writeGitGemSpec
                 (sort_by _ (fun a b => str_compare (git_Name a) (git_Name b)) (src_specs s))).

(** [writeGitSection]: one GIT block per (remote, revision, branch, tag)
    key, blocks sorted by remote. *)
Definition writeGitSection (lf : Lockfile) : str :=
  match GitSpecs lf with
  | [] => []
  | gs =>
      concat (map writeGitBlock
                  (sort_by _ (fun a b => str_compare (src_remote a) (src_remote b))
                           (map snd (gitSourceMap gs))))
  end.

Definition pathSourceMap (gs : list PathGemSpec) : list (str * pathSource) :=
  fold_left (fun m g =>
               amap_alter (path_Remote g)
                 (fun o => let s := match o with
                                    | Some s => s
                                    | None => mkPathSource (path_Remote g) []
                                    end in
                           mkPathSource (psrc_remote s) (psrc_specs s ++ [g])) m)
            gs [].

Definition writePathBlock (s : pathSource) : str :=
  nl ++ lit "PATH" ++ nl
  ++ indent2 ++ lit "remote: " ++ psrc_remote s ++ nl
  ++ indent2 ++ lit "specs:" ++ nl
  ++ concat (map writePathGemSpec
                 (sort_by _ (fun a b => str_compare (path_Name a) (path_Name b)) (psrc_specs s))).

(** [writePathSection]: one PATH block per remote, sorted by remote. *)
Definition writePathSection (lf : Lockfile) : str :=
  match PathSpecs lf with
  | [] => []
  | gs =>
      concat (map writePathBlock
                  (sort_by _ (fun a b => str_compare (psrc_remote a) (psrc_remote b))
                           (map snd (pathSourceMap gs))))
  end.

(** [writePlatformsSection]: deduplicated through a map, then sorted. *)
Definition writePlatformsSection (lf : Lockfile) : str :=
  match Platforms lf with
  | [] => []
  | ps =>
      let set := fold_left (fun m p => amap_alter p (fun _ => true) m) ps [] in
      nl ++ lit "PLATFORMS" ++ nl
      ++ concat (map (fun p => indent2 ++ p ++ nl) (sort_by _ str_compare (map fst set)))
  end.

(** [writeDependenciesSection] *)
Definition writeDependenciesSection (lf : Lockfile) : str :=
  match Dependencies lf with
  | [] => []
  | ds => nl ++ lit "DEPENDENCIES" ++ nl ++ writeDeps indent2 ds
  end.

(** [writeBundledWithSection] *)
Definition writeBundledWithSection (lf : Lockfile) : str :=
  match BundledWith lf with
  | [] => []
  | v => nl ++ lit "BUNDLED WITH" ++ nl ++ lit "   " ++ v ++ nl
  end.

(** [Write]: the six sections in order, a newline after every section but
    the first. *)
Definition Write (lf : Lockfile) : str :=
  writeGemSection lf
  ++ writeGitSection lf ++ nl
  ++ writePathSection lf ++ nl
  ++ writePlatformsSection lf ++ nl
  ++ writeDependenciesSection lf ++ nl
  ++ writeBundledWithSection lf ++ nl.

End Writer.

(** A stable insertion sort: one of the orders the Go sorts may produce. *)
Fixpoint insert_by {A : Type} (cmp : A -> A -> comparison) (x : A) (l : list A) : list A :=
  match l with
  | [] => [x]
  | y :: l' => match cmp x y with
               | Lt => x :: l
               | _ => y :: insert_by cmp x l'
               end
  end.

Definition insertion_sort (A : Type) (cmp : A -> A -> comparison) (l : list A) : list A :=
  fold_right (insert_by cmp) [] l.

(* ================================================================== *)
(** ** Vocabulary of the lockfile statements *)

(** The value of an optional accumulator as the list it adds on a flush. *)
Definition opt {A : Type} (o : option A) : list A :=
  match o with Some x => [x] | None => [] end.

(** The dependency edges that the dependency lines [ds] of an entry give. *)
Definition deps_of (ds : list str) : list Dependency :=
  flat_map (fun d => match match_dep d with
                     | Some m => [dependency_of_match m]
                     | None => []
                     end) ds.

(** The lines of an entry block: the entry line, then its dependency lines. *)
Definition entry_lines (e : str * list str) : list str := fst e :: snd e.

(** An entry block as the parser recognises it. *)
Definition entry_ok (e : str * list str) : Prop :=
  match_gemspec (fst e) <> None
  /\ Forall (fun d => match_gemspec d = None /\ match_dep d <> None) (snd e).

(** Some line of [d] (newline excluded) has [MaxScanTokenSize] bytes or more. *)
Definition has_long_line (d : str) : bool :=
  existsb (fun seg => (maxTokenSize <=? N.of_nat (length seg))%N) (split_on (chr 10) d).

(** The version field of a gem entry line. *)
Definition entry_version (e : str) : str :=
  match match_gemspec e with Some (_, v) => v | None => [] end.
Definition entry_name (e : str) : str :=
  match match_gemspec e with Some (n, _) => n | None => [] end.

(** The name and version that an entry line gives. *)
Definition entry_nv (e : str * list str) : str * str :=
  (entry_name (fst e), entry_version (fst e)).

(** The lockfile once all three open entries are appended, and once only
    the version-control and local-path entries are. *)
Definition with_all_flushed (st : pstate) : Lockfile :=
  let l := lockfile st in
  mkLockfile (GemSpecs l ++ opt (currentGem st)) (GitSpecs l ++ opt (currentGitGem st))
             (PathSpecs l ++ opt (currentPathGem st)) (Platforms l) (Dependencies l)
             (BundledWith l).
Definition with_git_path_flushed (st : pstate) : Lockfile :=
  let l := lockfile st in
  mkLockfile (GemSpecs l) (GitSpecs l ++ opt (currentGitGem st))
             (PathSpecs l ++ opt (currentPathGem st)) (Platforms l) (Dependencies l)
             (BundledWith l).

(* ================================================================== *)
(** ** [extractVersionConstraints] ([src/gemfile/parser.go])

    The three regular expressions are matched the way RE2 matches them
    (leftmost-first, non-overlapping); [\s] is RE2's [[\t\n\f\r ]].  Each
    expression has exactly one match at a given position, if any: every
    repetition is followed by a byte it cannot consume. *)

Definition is_re_space (c : ascii) : bool :=
  let n := nat_of_ascii c in (n =? 9) || (n =? 10) || (n =? 12) || (n =? 13) || (n =? 32).

(** The class of the two quote bytes (single and double quote). *)
Definition is_quote (c : ascii) : bool :=
  (nat_of_ascii c =? 39) || (nat_of_ascii c =? 34).

(** The longest prefix of bytes satisfying [p], and the rest. *)
Fixpoint span (p : ascii -> bool) (s : str) : str * str :=
  match s with
  | c :: s' => if p c then let (a, b) := span p s' in (c :: a, b) else ([], s)
  | [] => ([], [])
  end.

(** [nameRe] (the word gem, blanks, a quoted name, an optional comma and
    blanks) anchored at the start of [s]: the bytes after the match. *)
Definition gem_name_match (s : str) : option str :=
  match s with
  | g :: e :: m :: s1 =>
      if (g =? "g")%char && (e =? "e")%char && (m =? "m")%char then
        let (ws, s2) := span is_re_space s1 in
        match ws, s2 with
        | _ :: _, q :: s3 =>
            if is_quote q then
              let (body, s4) := span (fun c => negb (is_quote c)) s3 in
              match body, s4 with
              | _ :: _, _ :: s5 =>
                  let s6 := match s5 with
                            | c :: s6 => if (c =? ",")%char then s6 else s5
                            | [] => []
                            end in
                  Some (snd (span is_re_space s6))
              | _, _ => None
              end
            else None
        | _, _ => None
        end
      else None
  | _ => None
  end.

Fixpoint replace_gem_name_fuel (fuel : nat) (s : str) : str :=
  match fuel with
  | O => s
  | S f =>
      match s with
      | [] => []
      | c :: s' =>
          match gem_name_match s with
          | Some rest => replace_gem_name_fuel f rest
          | None => c :: replace_gem_name_fuel f s'
          end
      end
  end.

(** [nameRe.ReplaceAllString(line, "")] *)
Definition remove_gem_name (line : str) : str := replace_gem_name_fuel (length line) line.

(** [strings.Index(s, sub)], [None] standing for -1. *)
Fixpoint index_of (sub s : str) : option nat :=
  if has_prefix sub s then Some 0
  else match s with
       | [] => None
       | _ :: s' => option_map S (index_of sub s')
       end.

Fixpoint quoted_strings_fuel (fuel : nat) (s : str) : list str :=
  match fuel with
  | O => []
  | S f =>
      match s with
      | [] => []
      | c :: s1 =>
          if is_quote c then
            let (body, s2) := span (fun c => negb (is_quote c)) s1 in
            match body, s2 with
            | _ :: _, _ :: s3 => body :: quoted_strings_fuel f s3
            | _, _ => quoted_strings_fuel f s1
            end
          else quoted_strings_fuel f s1
      end
  end.

(** The first groups of [re.FindAllStringSubmatch(s, -1)] for the
    expression matching a quote, one or more non-quote bytes (the group)
    and a quote. *)
Definition quoted_strings (s : str) : list str := quoted_strings_fuel (length s) s.

(** [optionsStart]: the keywords tried one after the other. *)
Definition optionsStart (remaining : str) : option nat :=
  match index_of (lit "require:") remaining with
  | Some i => Some i
  | None =>
  match index_of (lit "github:") remaining with
  | Some i => Some i
  | None =>
  match index_of (lit "path:") remaining with
  | Some i => Some i
  | None =>
  match index_of (lit "groups:") remaining with
  | Some i => Some i
  | None => index_of (lit "platforms:") remaining
  end end end end.

Definition extractVersionConstraints (line : str) : list str :=
  let remaining := remove_gem_name line in
  let versionPart := match optionsStart remaining with
                     | Some i => firstn i remaining
                     | None => remaining
                     end in
  quoted_strings versionPart.

(** The reading of the documentation: cut at the earliest keyword. *)
Definition earliest_keyword (remaining : str) : option nat :=
  fold_left (fun acc kw =>
               match index_of kw remaining, acc with
               | Some i, Some j => Some (Nat.min i j)
               | Some i, None => Some i
               | None, a => a
               end)
            [lit "require:"; lit "github:"; lit "path:"; lit "groups:"; lit "platforms:"] None.

Definition extractVersionConstraints_earliest (line : str) : list str :=
  let remaining := remove_gem_name line in
  let versionPart := match earliest_keyword remaining with
                     | Some i => firstn i remaining
                     | None => remaining
                     end in
  quoted_strings versionPart.

(* ================================================================== *)
(** ** The tree-sitter Gemfile walker ([src/unnamed/part_003])

    Go pointers to [Source] values are indices into an explicit heap of
    [Source] cells; [&Source{...}] allocates a new cell at the end, and
    [dep.Source.Branch = v] writes into the cell the pointer designates. *)

Record Source := mkSource {
  source_Type : str; source_URL : str; source_Branch : str;
  source_Tag : str; source_Ref : str }.

Definition heap := list Source.

Definition heap_alloc (s : Source) (h : heap) : nat * heap := (length h, h ++ [s]).

Fixpoint heap_update (h : heap) (p : nat) (f : Source -> Source) : heap :=
  match h, p with
  | [], _ => []
  | s :: h', O => f s :: h'
  | s :: h', S p' => s :: heap_update h' p' f
  end.

(** [*p], [None] for a nil pointer. *)
Definition deref (h : heap) (p : option nat) : option Source :=
  match p with Some i => nth_error h i | None => None end.

Record GemDependency := mkGemDependency {
  gd_Name : str; gd_Constraints : list str; gd_Source : option nat;
  gd_Groups : list str; gd_Require : option str; gd_Platforms : list str;
  gd_Comment : str }.

Definition gd_set_Source (p : option nat) (d : GemDependency) : GemDependency :=
  mkGemDependency (gd_Name d) (gd_Constraints d) p (gd_Groups d) (gd_Require d)
    (gd_Platforms d) (gd_Comment d).
Definition gd_set_Groups (g : list str) (d : GemDependency) : GemDependency :=
  mkGemDependency (gd_Name d) (gd_Constraints d) (gd_Source d) g (gd_Require d)
    (gd_Platforms d) (gd_Comment d).
Definition gd_set_Require (r : option str) (d : GemDependency) : GemDependency :=
  mkGemDependency (gd_Name d) (gd_Constraints d) (gd_Source d) (gd_Groups d) r
    (gd_Platforms d) (gd_Comment d).
Definition gd_set_Platforms (p : list str) (d : GemDependency) : GemDependency :=
  mkGemDependency (gd_Name d) (gd_Constraints d) (gd_Source d) (gd_Groups d)
    (gd_Require d) p (gd_Comment d).

Definition set_Branch (v : str) (s : Source) : Source :=
  mkSource (source_Type s) (source_URL s) v (source_Tag s) (source_Ref s).
Definition set_Tag (v : str) (s : Source) : Source :=
  mkSource (source_Type s) (source_URL s) (source_Branch s) v (source_Ref s).
Definition set_Ref (v : str) (s : Source) : Source :=
  mkSource (source_Type s) (source_URL s) (source_Branch s) (source_Tag s) v.

Definition gitKey : str := lit "git".
Definition githubKey : str := lit "github".

(** [&Source{Type: t}] *)
Definition new_source (t : str) : Source := mkSource t [] [] [] [].

(** [if dep.Source == nil || dep.Source.Type != gitKey { dep.Source = &Source{Type: gitKey} }]:
    the pointer the branch, tag and ref options write through. *)
Definition git_target (d : GemDependency) (h : heap) : nat * heap :=
  match gd_Source d with
  | Some p =>
      match nth_error h p with
      | Some s => if str_eqb (source_Type s) gitKey then (p, h)
                  else heap_alloc (new_source gitKey) h
      | None => heap_alloc (new_source gitKey) h
      end
  | None => heap_alloc (new_source gitKey) h
  end.

Definition write_git_field (f : Source -> Source) (d : GemDependency) (h : heap)
  : GemDependency * heap :=
  let (p, h1) := git_target d h in (gd_set_Source (Some p) d, heap_update h1 p f).

Definition applyGemOption (key value : str) (d : GemDependency) (h : heap)
  : GemDependency * heap :=
  if str_eqb key (lit "require") then
    (if str_eqb value (lit "false") then gd_set_Require (Some []) d
     else if negb (str_eqb value []) then gd_set_Require (Some value) d
     else d, h)
  else if str_eqb key (lit "platforms") || str_eqb key (lit "platform") then
    (if negb (str_eqb value []) then gd_set_Platforms [value] d else d, h)
  else if str_eqb key (lit "groups") || str_eqb key (lit "group") then
    (if negb (str_eqb value []) then gd_set_Groups [value] d else d, h)
  else if str_eqb key gitKey || str_eqb key githubKey then
    let url := if str_eqb key githubKey
               then lit "https://github.com/" ++ value ++ lit ".git" else value in
    let (p, h1) := heap_alloc (new_source gitKey) h in
    (gd_set_Source (Some p) d, heap_update h1 p (fun s =>
       mkSource (source_Type s) url (source_Branch s) (source_Tag s) (source_Ref s)))
  else if str_eqb key (lit "path") then
    let (p, h1) := heap_alloc (new_source (lit "path")) h in
    (gd_set_Source (Some p) d, heap_update h1 p (fun s =>
       mkSource (source_Type s) value (source_Branch s) (source_Tag s) (source_Ref s)))
  else if str_eqb key (lit "branch") then write_git_field (set_Branch value) d h
  else if str_eqb key (lit "tag") then write_git_field (set_Tag value) d h
  else if str_eqb key (lit "ref") then write_git_field (set_Ref value) d h
  else (d, h).

(** The value of a pair node as [extractPairOption] collects it: an array
    (its symbols), or the scalar [value]. *)
Inductive optval := OStr (v : str) | OArr (vs : list str).

Definition extractPairOption (pr : str * optval) (dh : GemDependency * heap)
  : GemDependency * heap :=
  let (d, h) := dh in
  let (key, v) := pr in
  match v with
  | OArr vs =>
      (if str_eqb key (lit "platforms") || str_eqb key (lit "platform") then gd_set_Platforms vs d
       else if str_eqb key (lit "groups") || str_eqb key (lit "group") then gd_set_Groups vs d
       else d, h)
  | OStr value => applyGemOption key value d h
  end.

(** A [gem] call: its string arguments ([extractArguments]) and its option
    pairs, in the order [extractGemOptions] visits them. *)
Record GemDecl := mkGemDecl { decl_args : list str; decl_pairs : list (str * optval) }.

Record parserContext := mkParserContext {
  ctx_groups : list str; ctx_platforms : list str;
  ctx_source : option nat; ctx_conditional : bool }.

(** The walker's state: the heap, the [ParsedGemfile] fields the walker
    fills, and the context stack (the current frame and its parents). *)
Record tsState := mkTsState {
  ts_heap : heap; ts_Dependencies : list GemDependency; ts_Sources : list Source;
  ts_current : parserContext; ts_parents : list parserContext }.

(** [parserContextStack.push]: the new frame copies the current one (the
    group and platform slices by value, the source pointer as is). *)
Definition ctx_push (modify : parserContext -> parserContext) (st : tsState) : tsState :=
  mkTsState (ts_heap st) (ts_Dependencies st) (ts_Sources st)
    (modify (ts_current st)) (ts_current st :: ts_parents st).

Definition ctx_pop (st : tsState) : tsState :=
  match ts_parents st with
  | p :: ps => mkTsState (ts_heap st) (ts_Dependencies st) (ts_Sources st) p ps
  | [] => st
  end.

Definition processGem (decl : GemDecl) (st : tsState) : tsState :=
  match decl_args decl with
  | [] => st
  | name :: rest =>
      let ctx := ts_current st in
      let dep0 := mkGemDependency name
                    (filter (fun a => negb (contains (lit ":") a)) rest)
                    (ctx_source ctx) (ctx_groups ctx) None (ctx_platforms ctx) [] in
      let (dep, h) := fold_left (fun dh pr => extractPairOption pr dh)
                        (decl_pairs decl) (dep0, ts_heap st) in
      mkTsState h (ts_Dependencies st ++ [dep]) (ts_Sources st)
        (ts_current st) (ts_parents st)
  end.

(** The dependencies a block appended, and the origin a dependency records
    (the [Source] its pointer designates). *)
Definition new_deps (st0 st : tsState) : list GemDependency :=
  skipn (length (ts_Dependencies st0)) (ts_Dependencies st).

Definition source_of (st : tsState) (d : GemDependency) : option Source :=
  deref (ts_heap st) (gd_Source d).

(** An inline origin override: a scalar [git], [github] or [path] option. *)
Definition pair_overrides (pr : str * optval) : bool :=
  match snd pr with
  | OStr _ => str_eqb (fst pr) gitKey || str_eqb (fst pr) githubKey
              || str_eqb (fst pr) (lit "path")
  | OArr _ => false
  end.

Definition overrides_source (decl : GemDecl) : bool :=
  existsb pair_overrides (decl_pairs decl).

(** Where a dependency's pointer may point while a gem is processed: the
    block's cell [c], or a cell allocated since the heap had [n] cells. *)
Definition ptr_in (c n m : nat) (o : option nat) : Prop :=
  o = Some c \/ exists p, o = Some p /\ n <= p < m.

(** The value an option pair gives the dependency's origin, read on values
    rather than through pointers. *)
Definition source_option_value (pr : str * optval) (s : option Source) : option Source :=
  let git_base := match s with
                  | Some s' => if str_eqb (source_Type s') gitKey then s' else new_source gitKey
                  | None => new_source gitKey
                  end in
  match snd pr with
  | OArr _ => s
  | OStr value =>
      let key := fst pr in
      if str_eqb key (lit "require") then s
      else if str_eqb key (lit "platforms") || str_eqb key (lit "platform") then s
      else if str_eqb key (lit "groups") || str_eqb key (lit "group") then s
      else if str_eqb key gitKey || str_eqb key githubKey then
        Some (mkSource gitKey (if str_eqb key githubKey
                               then lit "https://github.com/" ++ value ++ lit ".git"
                               else value) [] [] [])
      else if str_eqb key (lit "path") then Some (mkSource (lit "path") value [] [] [])
      else if str_eqb key (lit "branch") then Some (set_Branch value git_base)
      else if str_eqb key (lit "tag") then Some (set_Tag value git_base)
      else if str_eqb key (lit "ref") then Some (set_Ref value git_base)
      else s
  end.

Definition decl_source_value (decl : GemDecl) (s : option Source) : option Source :=
  fold_left (fun s pr => source_option_value pr s) (decl_pairs decl) s.


(** The origin part of [parseGemLine] ([src/gemfile/parser.go]): [extracted]
    is what [extractSource(line)] returned (a new [Source] or nil), and
    [currentSource] the enclosing block's origin pointer. *)
Definition parseGemLine_source (extracted : option Source) (currentSource : option nat)
  (h : heap) : option nat * heap :=
  match extracted with
  | Some s => let (p, h1) := heap_alloc s h in (Some p, h1)
  | None =>
      match currentSource with
      | Some c =>
          match nth_error h c with
          | Some s => let (p, h1) := heap_alloc s h in (Some p, h1)
          | None => (None, h)
          end
      | None => (None, h)
      end
  end.

(** The origin pointers of the gem lines of one block, in order. *)
Definition line_block_sources (currentSource : option nat) (exs : list (option Source))
  (h : heap) : list (option nat) * heap :=
  fold_left (fun (acc : list (option nat) * heap) ex =>
               let (ps, h0) := acc in
               let (p, h1) := parseGemLine_source ex currentSource h0 in (ps ++ [p], h1))
            exs ([], h).


(** The value [parseGemLine] gives a line's origin: the extracted one, or
    a copy of the block's origin [hc]. *)
Definition line_value (hc : Source) (ex : option Source) : Source :=
  match ex with Some s => s | None => hc end.

(* ================================================================== *)
(** ** [GemfileParser.Parse] ([src/gemfile/parser.go])

    A Go pair [(value, err)] is a [result]: [Ok value] for a nil error.
    The file read and the two parsers are parameters: the claims are about
    how [Parse] combines them. *)

Inductive result (A : Type) := Ok (a : A) | Err (e : str).
Arguments Ok {A} a.
Arguments Err {A} e.

Record GemspecReference := mkGemspecReference {
  ref_Path : str; ref_Name : str; ref_DevelopmentGroup : str; ref_Glob : str }.

Record ParsedGemfile := mkParsedGemfile {
  pg_Dependencies : list GemDependency; pg_Sources : list Source;
  pg_RubyVersion : str; pg_GitSources : list (str * str);
  pg_Gemspecs : list GemspecReference }.

(** [useTreeSitter] *)
Definition useTreeSitter (r : result ParsedGemfile) : bool :=
  match r with
  | Ok g => (negb (length (pg_Dependencies g) =? 0) || negb (str_eqb (pg_RubyVersion g) []))
            && (length (pg_Gemspecs g) =? 0)
  | Err _ => false
  end.

Section GemfileParse.
Variable readFile : result str.
Variable parseWithTreeSitter : str -> result ParsedGemfile.
Variable parseContent : str -> result ParsedGemfile.

Definition GemfileParser_Parse : result ParsedGemfile :=
  match readFile with
  | Err e => Err (lit "failed to read Gemfile: " ++ e)
  | Ok content =>
      let r := parseWithTreeSitter content in
      if useTreeSitter r then r else parseContent content
  end.
End GemfileParse.

(* ================================================================== *)
(** ** [GemspecParser.Parse] ([src/gemfile/gemspec_parser.go]) *)

Record GemspecFile := mkGemspecFile {
  gf_Name : str; gf_Version : str; gf_Summary : str; gf_Description : str;
  gf_Authors : list str; gf_Email : list str; gf_Homepage : str; gf_License : str;
  gf_RuntimeDependencies : list GemDependency;
  gf_DevelopmentDependencies : list GemDependency;
  gf_RequiredRubyVersion : str; gf_Files : list str; gf_Metadata : list (str * str) }.

Record dependencyJSON := mkDependencyJSON { dj_Name : str; dj_Requirements : list str }.

Record gemspecJSON := mkGemspecJSON {
  gj_Name : str; gj_Version : str; gj_Summary : str; gj_Description : str;
  gj_Authors : list str; gj_Email : list str; gj_Homepage : str; gj_License : str;
  gj_Licenses : list str; gj_RequiredRubyVersion : str; gj_Files : list str;
  gj_Metadata : list (str * str);
  gj_RuntimeDependencies : list dependencyJSON;
  gj_DevelopmentDependencies : list dependencyJSON }.

Definition dep_of_json (d : dependencyJSON) : GemDependency :=
  mkGemDependency (dj_Name d) (dj_Requirements d) None [] None [] [].

Definition convertJSONToGemspecFile (j : gemspecJSON) : GemspecFile :=
  mkGemspecFile (gj_Name j) (gj_Version j) (gj_Summary j) (gj_Description j)
    (gj_Authors j) (gj_Email j) (gj_Homepage j) (gj_License j)
    (map dep_of_json (gj_RuntimeDependencies j))
    (map dep_of_json (gj_DevelopmentDependencies j))
    (gj_RequiredRubyVersion j) (gj_Files j) (gj_Metadata j).

(** [m[k]] with its presence flag. *)
Fixpoint map_lookup (k : str) (m : list (str * str)) : option str :=
  match m with
  | [] => None
  | (k', v) :: m' => if str_eqb k k' then Some v else map_lookup k m'
  end.

Section GemspecParse.
(** The two reads of the file ([Parse] and [fallbackParse] each call
    [os.ReadFile]), the tier-1 parser, the interpreter run ([cmd.Run]:
    its standard output, or the error for a missing tool, a timeout or a
    non-zero exit), [json.Unmarshal], and the regex extractors of
    [fallbackParse], which fill a [GemspecFile] and have no error path. *)
Variable read1 read2 : result str.
Variable tsParse : str -> result GemspecFile.
Variable runRuby : result str.
Variable unmarshal : str -> result gemspecJSON.
Variable fallbackExtract : str -> GemspecFile.

Definition fallbackParse : result GemspecFile :=
  match read2 with
  | Err e => Err (lit "failed to read gemspec file: " ++ e)
  | Ok content => Ok (fallbackExtract content)
  end.

Definition parseWithRuby : result GemspecFile :=
  match runRuby with
  | Err _ => fallbackParse
  | Ok out =>
      match unmarshal out with
      | Err _ => fallbackParse
      | Ok j =>
          match map_lookup (lit "error") (gj_Metadata j) with
          | Some msg => Err (lit "ruby parsing error: " ++ msg)
          | None => Ok (convertJSONToGemspecFile j)
          end
      end
  end.

Definition GemspecParser_Parse : result GemspecFile :=
  match read1 with
  | Err e => Err (lit "failed to read gemspec file: " ++ e)
  | Ok content =>
      match tsParse content with
      | Ok g => if negb (str_eqb (gf_Name g) []) then Ok g else parseWithRuby
      | Err _ => parseWithRuby
      end
  end.
End GemspecParse.

(* ================================================================== *)
(** ** [GemfileWriter] ([src/gemfile/tree_sitter_common.go])

    The file system holds the Gemfile's bytes and whether reading and
    writing it succeed.  An operation returns its error ([None] for nil)
    and the file system after it. *)

Record fsys := mkFsys { fs_content : str; fs_readable : bool; fs_writable : bool }.

Definition fs_set_content (c : str) (fs : fsys) : fsys :=
  mkFsys c (fs_readable fs) (fs_writable fs).

(** ** UTF-8 as [unicode/utf8] and [regexp] read it

    A rune is represented by its UTF-8 encoding. *)

Definition in_range (lo hi : nat) (b : ascii) : bool :=
  (lo <=? nat_of_ascii b) && (nat_of_ascii b <=? hi).

(** [utf8.RuneError] (U+FFFD), encoded. *)
Definition rune_error : str := [chr 239; chr 191; chr 189].

(** The tables [first] and [acceptRanges] of [unicode/utf8], for a leading
    byte of 128 or more: the length of the sequence it starts and the
    range of the sequence's second byte; [None] for a byte that starts no
    sequence (80-C1, F5-FF). *)
Definition lead_info (b : ascii) : option (nat * nat * nat) :=
  let n := nat_of_ascii b in
  if n <? 194 then None
  else if n <=? 223 then Some (2, 128, 191)
  else if n =? 224 then Some (3, 160, 191)
  else if n <=? 236 then Some (3, 128, 191)
  else if n =? 237 then Some (3, 128, 159)
  else if n <=? 239 then Some (3, 128, 191)
  else if n =? 240 then Some (4, 144, 191)
  else if n <=? 243 then Some (4, 128, 191)
  else if n =? 244 then Some (4, 128, 143)
  else None.

(** The bytes after the leading one: the second in [lo, hi], the others
    continuation bytes (80-BF). *)
Definition cont_ok (lo hi : nat) (bs : str) : bool :=
  match bs with
  | _ :: b1 :: rest => in_range lo hi b1 && forallb (in_range 128 191) rest
  | _ => false
  end.

(** [utf8.DecodeRuneInString]: the first rune of [s] and its width in
    bytes.  An ASCII byte is itself; a sequence that is cut short or has a
    byte out of range gives [RuneError] of width 1 (Go returns at the
    first bad byte; the result is the same). *)
Definition decode_rune (s : str) : str * nat :=
  match s with
  | [] => (rune_error, 0)
  | b0 :: _ =>
      if nat_of_ascii b0 <? 128 then ([b0], 1)
      else match lead_info b0 with
           | None => (rune_error, 1)
           | Some (sz, lo, hi) =>
               let bs := firstn sz s in
               if (length bs =? sz) && cont_ok lo hi bs then (bs, sz) else (rune_error, 1)
           end
  end.

(** [checkUTF8] of [regexp/syntax]: no step of the decoding gives
    [RuneError] of width 1 (a well-formed U+FFFD has width 3).  The fuel,
    the length of the text, is never exhausted: each step takes a byte or
    more. *)
Fixpoint valid_utf8_fuel (fuel : nat) (s : str) : bool :=
  match s with
  | [] => true
  | _ :: _ =>
      match fuel with
      | 0 => false
      | S f =>
          let (enc, w) := decode_rune s in
          (w =? length enc) && valid_utf8_fuel f (skipn w s)
      end
  end.

Definition valid_utf8 (s : str) : bool := valid_utf8_fuel (length s) s.

(** A compiled literal (the runes of [name], a valid text) matched at the
    start of [s], read rune by rune as [regexp]'s [inputString.step] reads
    it: the rune of [s] must be the next rune of the literal, that is its
    encoding must begin the rest of [name].  The rest of [s] after the
    match, or [None]. *)
Fixpoint match_runes (fuel : nat) (name s : str) : option str :=
  match name with
  | [] => Some s
  | _ :: _ =>
      match fuel with
      | 0 => None
      | S f =>
          match s with
          | [] => None
          | _ :: _ =>
              let (enc, w) := decode_rune s in
              if has_prefix enc name then match_runes f (skipn (length enc) name) (skipn w s)
              else None
          end
      end
  end.

Definition match_name (name s : str) : option str := match_runes (length name) name s.

(** [isGemLine]: [regexp.MatchString] of the expression [^\s*gem\s+], a
    quote, [regexp.QuoteMeta(gemName)] and a quote, against [line].
    [QuoteMeta] escapes ASCII bytes only, so the expression is valid UTF-8
    exactly when [gemName] is; when it is not, compiling it fails, the
    error is dropped and the result is false.  The text is read rune by
    rune: the ASCII parts of the expression match single bytes, and the
    name is matched by [match_name].  (The parser's limit of about 33
    million runes on an expression is not modelled.) *)
Definition isGemLine (line gemName : str) : bool :=
  valid_utf8 gemName &&
  match snd (span is_re_space line) with
  | g :: e :: m :: s2 =>
      (g =? "g")%char && (e =? "e")%char && (m =? "m")%char &&
      match span is_re_space s2 with
      | (_ :: _, q :: s3) =>
          is_quote q &&
          match match_name gemName s3 with
          | Some (q' :: _) => is_quote q'
          | _ => false
          end
      | _ => false
      end
  | _ => false
  end.

Definition isDefaultGroup (groups : list str) : bool :=
  match groups with [g] => str_eqb g (lit "default") | _ => false end.

(** The loop of [findInsertionPoint]: the last [gem ] line outside a
    [group ] ... [end] block, and whether the scan is inside such a block. *)
Fixpoint last_gem_outside_group (i : nat) (inGroupBlock : bool) (lastGemIndex : option nat)
  (lines : list str) : option nat :=
  match lines with
  | [] => lastGemIndex
  | line :: rest =>
      let trimmed := TrimSpace line in
      if has_prefix (lit "group ") trimmed then last_gem_outside_group (S i) true lastGemIndex rest
      else if str_eqb trimmed (lit "end") then last_gem_outside_group (S i) false lastGemIndex rest
      else if negb inGroupBlock && has_prefix (lit "gem ") trimmed
      then last_gem_outside_group (S i) inGroupBlock (Some i) rest
      else last_gem_outside_group (S i) inGroupBlock lastGemIndex rest
  end.

Definition findInsertionPoint (groups : list str) (content : list str) : nat :=
  if isDefaultGroup groups then
    match last_gem_outside_group 0 false None content with
    | Some i => S i
    | None => length content
    end
  else length content.

Section ManifestWriter.
(** The matcher of gem lines and the formatting of a new one. *)
Variable isGemLine_of : str -> str -> bool.
Variable formatGemLine : GemDependency -> str.

Definition Load (fs : fsys) : result (list str) :=
  if fs_readable fs then Ok (split_on (chr 10) (fs_content fs))
  else Err (lit "failed to read Gemfile").

(** [save]: [os.WriteFile] of the lines joined by newlines. *)
Definition save (content : list str) (fs : fsys) : option str * fsys :=
  if fs_writable fs then (None, fs_set_content (join nl content) fs)
  else (Some (lit "write failed"), fs).

Definition hasGem (content : list str) (gemName : str) : bool :=
  existsb (fun line => isGemLine_of line gemName) content.

Definition AddGem (dep : GemDependency) (fs : fsys) : option str * fsys :=
  match Load fs with
  | Err e => (Some e, fs)
  | Ok content =>
      if hasGem content (gd_Name dep) then (Some (lit "gem already exists in Gemfile"), fs)
      else
        let gemLine := formatGemLine dep in
        let insertIndex := findInsertionPoint (gd_Groups dep) content in
        save (firstn insertIndex content ++ gemLine :: skipn insertIndex content) fs
  end.

Definition RemoveGem (gemName : str) (fs : fsys) : option str * fsys :=
  match Load fs with
  | Err e => (Some e, fs)
  | Ok content =>
      let found := existsb (fun line => isGemLine_of line gemName) content in
      let newContent := filter (fun line => negb (isGemLine_of line gemName)) content in
      if negb found then (Some (lit "gem not found in Gemfile"), fs)
      else save newContent fs
  end.
End ManifestWriter.

(* ================================================================== *)
(** ** [lockfile.Write] line by line

    The text that [Write] produces, as the list of its lines (each one
    followed by a newline in the output).  The definitions follow the
    writer function by function; [write_lines_unlines] states that they
    describe the same bytes. *)

Definition unlines (ls : list str) : str := concat (map (fun l => l ++ nl) ls).

(** [writeDependency] without its newline. *)
Definition dep_line (indent : str) (d : Dependency) : str :=
  match dep_Constraints d with
  | [] => indent ++ dep_Name d
  | cs => indent ++ dep_Name d ++ lit " (" ++ join (lit ", ") cs ++ lit ")"
  end.

(** The version field of a registry entry, as [writeGemSpec] writes it. *)
Definition gem_version_string (g : GemSpec) : str :=
  match gs_Platform g with
  | [] => gs_Version g
  | p => gs_Version g ++ lit "-" ++ p
  end.

Definition spec_line (n v : str) : str := indent4 ++ n ++ lit " (" ++ v ++ lit ")".
Definition remote_line (r : str) : str := indent2 ++ lit "remote: " ++ r.
Definition specs_line : str := indent2 ++ lit "specs:".

Section WriterLines.

Variable sort_by : forall A : Type, (A -> A -> comparison) -> list A -> list A.

Definition deps_lines (indent : str) (ds : list Dependency) : list str :=
  map (dep_line indent) (sort_by _ by_dep_name ds).

Definition gem_lines (g : GemSpec) : list str :=
  spec_line (gs_Name g) (gem_version_string g) :: deps_lines indent6 (gs_Dependencies g).
Definition git_lines (g : GitGemSpec) : list str :=
  spec_line (git_Name g) (git_Version g) :: deps_lines indent6 (git_Dependencies g).
Definition path_lines (g : PathGemSpec) : list str :=
  spec_line (path_Name g) (path_Version g) :: deps_lines indent6 (path_Dependencies g).

Definition gem_block_lines (source : str) (specs : list GemSpec) : list str :=
  lit "GEM" :: remote_line source :: specs_line
  :: flat_map gem_lines (sort_by _ (fun a b => str_compare (gs_Name a) (gs_Name b)) specs).

Definition gem_section_lines (lf : Lockfile) : list str :=
  match GemSpecs lf with
  | [] => []
  | gs =>
      let m := gemsBySource gs in
      let sources := sort_by _ str_compare (map fst m) in
      flat_map (fun '(i, source) =>
                  (if (0 <? i)%nat then [[]] else [])
                  ++ gem_block_lines source
                       (match find (fun kv => str_eqb (fst kv) source) m with
                        | Some (_, l) => l
                        | None => []
                        end))
               (combine (seq 0 (length sources)) sources)
  end.

Definition git_block_lines (s : gitSource) : list str :=
  [] :: lit "GIT" :: remote_line (src_remote s)
  :: (indent2 ++ lit "revision: " ++ src_revision s)
  :: (match src_branch s with [] => [] | b => [indent2 ++ lit "branch: " ++ b] end)
  ++ (match src_tag s with [] => [] | t => [indent2 ++ lit "tag: " ++ t] end)
  ++ specs_line
  :: flat_map git_lines
       (sort_by _ (fun a b => str_compare (git_Name a) (git_Name b)) (src_specs s)).

Definition git_section_lines (lf : Lockfile) : list str :=
  match GitSpecs lf with
  | [] => []
  | gs =>
      flat_map git_block_lines
               (sort_by _ (fun a b => str_compare (src_remote a) (src_remote b))
                        (map snd (gitSourceMap gs)))
  end.

Definition path_block_lines (s : pathSource) : list str :=
  [] :: lit "PATH" :: remote_line (psrc_remote s) :: specs_line
  :: flat_map path_lines
       (sort_by _ (fun a b => str_compare (path_Name a) (path_Name b)) (psrc_specs s)).

Definition path_section_lines (lf : Lockfile) : list str :=
  match PathSpecs lf with
  | [] => []
  | gs =>
      flat_map path_block_lines
               (sort_by _ (fun a b => str_compare (psrc_remote a) (psrc_remote b))
                        (map snd (pathSourceMap gs)))
  end.

Definition platforms_section_lines (lf : Lockfile) : list str :=
  match Platforms lf with
  | [] => []
  | ps =>
      let set := fold_left (fun m p => amap_alter p (fun _ => true) m) ps [] in
      [] :: lit "PLATFORMS" :: map (fun p => indent2 ++ p) (sort_by _ str_compare (map fst set))
  end.

Definition dependencies_section_lines (lf : Lockfile) : list str :=
  match Dependencies lf with
  | [] => []
  | ds => [] :: lit "DEPENDENCIES" :: deps_lines indent2 ds
  end.

Definition bundled_section_lines (lf : Lockfile) : list str :=
  match BundledWith lf with
  | [] => []
  | v => [[]; lit "BUNDLED WITH"; lit "   " ++ v]
  end.

Definition write_lines (lf : Lockfile) : list str :=
  gem_section_lines lf ++ git_section_lines lf ++ [[]]
  ++ path_section_lines lf ++ [[]]
  ++ platforms_section_lines lf ++ [[]]
  ++ dependencies_section_lines lf ++ [[]]
  ++ bundled_section_lines lf ++ [[]].

End WriterLines.

(* ================================================================== *)
(** ** Vocabulary of the round-trip statement *)

(** What the round trip is asked to keep of an entry: its name, version,
    platform and number of dependency edges. *)
Definition gem_sig (g : GemSpec) : str * str * str * nat :=
  (gs_Name g, gs_Version g, gs_Platform g, length (gs_Dependencies g)).
Definition git_sig (g : GitGemSpec) : str * str * nat :=
  (git_Name g, git_Version g, length (git_Dependencies g)).
Definition path_sig (g : PathGemSpec) : str * str * nat :=
  (path_Name g, path_Version g, length (path_Dependencies g)).

(** The entries of a parser state once its open entries are appended, as
    signatures, and the tool version. *)
Record lview := mkLview {
  v_gems : list (str * str * str * nat);
  v_gits : list (str * str * nat);
  v_paths : list (str * str * nat);
  v_bundled : str
}.

Definition view (st : pstate) : lview :=
  mkLview (map gem_sig (GemSpecs (lockfile st) ++ opt (currentGem st)))
          (map git_sig (GitSpecs (lockfile st) ++ opt (currentGitGem st)))
          (map path_sig (PathSpecs (lockfile st) ++ opt (currentPathGem st)))
          (BundledWith (lockfile st)).

(** The same signatures read off a lockfile. *)
Definition lockfile_view (l : Lockfile) : lview :=
  mkLview (map gem_sig (GemSpecs l)) (map git_sig (GitSpecs l)) (map path_sig (PathSpecs l))
          (BundledWith l).

(** The text has no newline byte. *)
Definition nonl (s : str) : bool := forallb (fun c => negb (c =? chr 10)%char) s.

(** An entry line [    NAME (VERSION)] that [gemSpecRegex] reads back. *)
Definition spec_ok (n v : str) : Prop :=
  n <> [] /\ forallb is_name_char n = true /\ v <> [] /\ no_close_paren v = true
  /\ nonl v = true.

(** A dependency edge whose line [depRegex] reads back. *)
Definition dep_ok (d : Dependency) : Prop :=
  dep_Name d <> [] /\ forallb is_name_char (dep_Name d) = true
  /\ Forall (fun c => c <> [] /\ no_close_paren c = true /\ nonl c = true) (dep_Constraints d).

Definition gem_ok (g : GemSpec) : Prop :=
  gs_SourceURL g = [] /\ spec_ok (gs_Name g) (gem_version_string g)
  /\ split_version_platform (gem_version_string g) = (gs_Version g, gs_Platform g)
  /\ Forall dep_ok (gs_Dependencies g).

Definition git_ok (g : GitGemSpec) : Prop :=
  ((git_Name g = [] /\ git_Version g = []) \/ spec_ok (git_Name g) (git_Version g))
  /\ Forall dep_ok (git_Dependencies g)
  /\ nonl (git_Remote g) = true /\ nonl (git_Revision g) = true
  /\ nonl (git_Branch g) = true /\ nonl (git_Tag g) = true.

Definition path_ok (g : PathGemSpec) : Prop :=
  ((path_Name g = [] /\ path_Version g = []) \/ spec_ok (path_Name g) (path_Version g))
  /\ Forall dep_ok (path_Dependencies g) /\ nonl (path_Remote g) = true.

Definition topdep_ok (d : Dependency) : Prop :=
  nonl (dep_Name d) = true /\ Forall (fun c => nonl c = true) (dep_Constraints d).

Definition bundled_ok (v : str) : Prop :=
  nonl v = true /\ TrimSpace (lit "   " ++ v) = v /\ dropCR (lit "   " ++ v) = lit "   " ++ v.

(** What every lockfile that [Parse] returns satisfies. *)
Definition lockfile_ok (l : Lockfile) : Prop :=
  Forall gem_ok (GemSpecs l) /\ Forall git_ok (GitSpecs l) /\ Forall path_ok (PathSpecs l)
  /\ Forall (fun p => nonl p = true) (Platforms l) /\ Forall topdep_ok (Dependencies l)
  /\ bundled_ok (BundledWith l).

Definition pstate_ok (st : pstate) : Prop :=
  lockfile_ok (lockfile st) /\ Forall gem_ok (opt (currentGem st))
  /\ Forall git_ok (opt (currentGitGem st)) /\ Forall path_ok (opt (currentPathGem st)).

(** The GIT block of one version-control entry. *)
Definition single_git_source (g : GitGemSpec) : gitSource :=
  mkGitSource (git_Remote g) (git_Revision g) (git_Branch g) (git_Tag g) [g].
Definition single_path_source (g : PathGemSpec) : pathSource :=
  mkPathSource (path_Remote g) [g].

(* ================================================================== *)
(** ** Sample lockfiles for the round trip *)

(** A lockfile with two registry entries (one with a platform), two GIT
    blocks of one remote at two revisions, a PATH block, platforms,
    dependencies and a tool version. *)
Definition roundtrip_sample : str :=
  text ["GEM"; "  remote: https://rubygems.org/"; "  specs:"; "    rack (3.0.8)";
        "    nokogiri (1.15.4-x86_64-linux)"; "      racc (~> 1.4)"; EmptyString;
        "GIT"; "  remote: https://github.com/u/r.git"; "  revision: abc123"; "  branch: main";
        "  specs:"; "    r (0.1.0)"; "      rack (>= 2, < 4)"; EmptyString;
        "GIT"; "  remote: https://github.com/u/r.git"; "  revision: def456"; "  specs:";
        "    r2 (0.2.0)"; EmptyString;
        "PATH"; "  remote: vendor/p"; "  specs:"; "    p (0.3.0)"; EmptyString;
        "PLATFORMS"; "  x86_64-linux"; EmptyString; "DEPENDENCIES"; "  rack"; "  r!"; EmptyString;
        "BUNDLED WITH"; "   2.4.10"]%string.

(** The model that [Parse] builds from it. *)
Definition roundtrip_model : Lockfile :=
  match Parse (ok_reader roundtrip_sample) with Some m => m | None => emptyLockfile end.

(** Two GIT blocks with the same remote and revision. *)
Definition two_git_blocks : str :=
  text ["GIT"; "  remote: https://g/x"; "  revision: abc"; "  specs:"; "    a (1.0)"; EmptyString;
        "GIT"; "  remote: https://g/x"; "  revision: abc"; "  specs:"; "    b (2.0)"]%string.

(** ** [Lockfile.FindGem], the [FullName] methods and [FilterGemsByGroups]
    ([src/lockfile/parser.go]) *)

(** [FindGem]: the first registry entry with the name, [None] for nil. *)
Fixpoint find_gem (name : str) (gs : list GemSpec) : option GemSpec :=
  match gs with
  | [] => None
  | g :: gs' => if str_eqb (gs_Name g) name then Some g else find_gem name gs'
  end.

Definition FindGem (l : Lockfile) (name : str) : option GemSpec := find_gem name (GemSpecs l).

(** [GemSpec.FullName]: [name-version-platform], or [name-version] when
    the platform is empty. *)
Definition GemSpec_FullName (g : GemSpec) : str :=
  match gs_Platform g with
  | [] => gs_Name g ++ lit "-" ++ gs_Version g
  | p => gs_Name g ++ lit "-" ++ gs_Version g ++ lit "-" ++ p
  end.

Definition GitGemSpec_FullName (g : GitGemSpec) : str := git_Name g ++ lit "-" ++ git_Version g.
Definition PathGemSpec_FullName (g : PathGemSpec) : str := path_Name g ++ lit "-" ++ path_Version g.

(** [FilterGemsByGroups] reads the [Groups] field of a registry entry, which
    the record [GemSpec] above leaves out (the lockfile parser never sets
    it): an entry is paired here with its groups. *)
Record GroupedGemSpec := mkGroupedGemSpec { gg_spec : GemSpec; gg_Groups : list str }.

(** [gemGroups]: the entry groups, [["default"]] when there are none. *)
Definition gemGroups (g : GroupedGemSpec) : list str :=
  match gg_Groups g with [] => [lit "default"] | gs => gs end.

Definition group_excluded (excludeGroups : list str) (g : GroupedGemSpec) : bool :=
  existsb (fun excludeGroup => existsb (fun gemGroup => str_eqb gemGroup excludeGroup) (gemGroups g))
          excludeGroups.

Definition group_included (includeGroups : list str) (g : GroupedGemSpec) : bool :=
  existsb (fun includeGroup =>
             existsb (fun gemGroup => str_eqb gemGroup includeGroup || str_eqb gemGroup (lit "default"))
                     (gemGroups g))
          includeGroups.

Definition FilterGemsByGroups (gems : list GroupedGemSpec) (includeGroups excludeGroups : list str)
  : list GroupedGemSpec :=
  match includeGroups, excludeGroups with
  | [], [] => gems
  | _, _ =>
      filter (fun g => if group_excluded excludeGroups g then false
                       else match includeGroups with
                            | [] => true
                            | _ => group_included includeGroups g
                            end) gems
  end.

(** ** [formatGemLine] and [extractGitHubPath]
    ([src/gemfile/tree_sitter_common.go]) *)

(** [strings.HasSuffix] *)
Definition has_suffix (suf s : str) : bool := has_prefix (rev suf) (rev s).

(** What the optional slash part of the expression below and its end
    anchor accept: nothing, or a slash and bytes other than a newline up to
    the end of the text. *)
Definition slash_tail_ok (t : str) : bool :=
  match t with
  | [] => true
  | c :: u => (c =? "/")%char && nonl u
  end.

Definition not_slash (c : ascii) : bool := negb (c =? "/")%char.

(** The expression of [extractGitHubPath] anchored at the start of [s],
    with its group: [github.com], a slash or colon, the group (owner, slash,
    lazy repository), an optional [.git], an optional slash part, the end.  The owner runs to
    the next slash; the lazy repository part takes the shortest part of the next
    segment after which the optional [.git] reaches the end of the segment: the
    segment without a [.git] suffix when that leaves bytes, the whole
    segment otherwise. *)
Definition github_path_at (s : str) : option str :=
  if has_prefix (lit "github.com") s then
    match skipn 10 s with
    | c :: r =>
        if (c =? "/")%char || (c =? ":")%char then
          let (owner, r1) := span not_slash r in
          match owner, r1 with
          | _ :: _, _ :: r2 =>
              let (seg, tail) := span not_slash r2 in
              if slash_tail_ok tail then
                if has_suffix (lit ".git") seg && (5 <=? length seg) then
                  Some (owner ++ lit "/" ++ firstn (length seg - 4) seg)
                else match seg with
                     | [] => None
                     | _ => Some (owner ++ lit "/" ++ seg)
                     end
              else None
          | _, _ => None
          end
        else None
    | [] => None
    end
  else None.

(** Leftmost match: the result at the first position of [s] where the
    anchored matcher [m] succeeds. *)
Fixpoint search {A : Type} (m : str -> option A) (s : str) : option A :=
  match m s with
  | Some a => Some a
  | None => match s with [] => None | _ :: s' => search m s' end
  end.

(** [extractGitHubPath]: the group of the leftmost match, the empty text without one. *)
Definition extractGitHubPath (url : str) : str :=
  match search github_path_at url with Some p => p | None => [] end.

(** A text between single quotes, as the format strings of [formatGemLine] write it. *)
Definition quoted (s : str) : str := lit "'" ++ s ++ lit "'".

(** The source options of [formatGemLine]. *)
Definition source_parts (s : Source) : list str :=
  if str_eqb (source_Type s) (lit "git") then
    (if contains (lit "github.com") (source_URL s) then
       match extractGitHubPath (source_URL s) with
       | [] => [lit "git: " ++ quoted (source_URL s)]
       | githubPath => [lit "github: " ++ quoted githubPath]
       end
     else [lit "git: " ++ quoted (source_URL s)])
    ++ (match source_Branch s with [] => [] | b => [lit "branch: " ++ quoted b] end)
    ++ (match source_Tag s with [] => [] | t => [lit "tag: " ++ quoted t] end)
    ++ (match source_Ref s with [] => [] | r => [lit "ref: " ++ quoted r] end)
  else if str_eqb (source_Type s) (lit "path") then [lit "path: " ++ quoted (source_URL s)]
  else if str_eqb (source_Type s) (lit "rubygems") then
    (if str_eqb (source_URL s) (lit "https://rubygems.org") then []
     else [lit "source: " ++ quoted (source_URL s)])
  else [].

(** The group option of [formatGemLine]. *)
Definition groups_part (groups : list str) : list str :=
  match groups with
  | [] => []
  | _ =>
      if isDefaultGroup groups then []
      else match groups with
           | [g] => [lit "group: :" ++ g]
           | _ => [lit "groups: [" ++ join (lit ", ") (map (fun g => ":"%char :: g) groups) ++ lit "]"]
           end
  end.

(** The require option of [formatGemLine]. *)
Definition require_part (r : option str) : list str :=
  match r with
  | None => []
  | Some v =>
      if str_eqb v [] || str_eqb v (lit "false") then [lit "require: false"]
      else [lit "require: " ++ quoted v]
  end.

(** [formatGemLine]: the parts joined by commas; the source is read through
    the dependency pointer. *)
Definition formatGemLine (h : heap) (dep : GemDependency) : str :=
  join (lit ", ")
    ([lit "gem " ++ quoted (gd_Name dep)]
     ++ map quoted (gd_Constraints dep)
     ++ match deref h (gd_Source dep) with Some s => source_parts s | None => [] end
     ++ groups_part (gd_Groups dep)
     ++ require_part (gd_Require dep)).

(* ================================================================== *)
(** ** The line readers of the regular-expression Gemfile parser
    ([src/gemfile/parser.go])

    As for [extractVersionConstraints], each expression is matched the way
    RE2 matches it: the leftmost position where it matches ([search]), and
    at that position the single way it can match, every repetition being
    followed by a byte it cannot consume. *)

(** RE2's [\w]: [[0-9A-Za-z_]]. *)
Definition is_word_char (c : ascii) : bool :=
  let n := nat_of_ascii c in
  ((48 <=? n) && (n <=? 57)) || ((65 <=? n) && (n <=? 90))
  || ((97 <=? n) && (n <=? 122)) || (n =? 95).

Definition not_quote (c : ascii) : bool := negb (is_quote c).

(** The expression made of [kw], blanks ([\s*], or [\s+] when [plus]), a
    quote, one or more non-quote bytes (the group) and a quote, anchored at
    the start of [s]. *)
Definition quoted_after (kw : str) (plus : bool) (s : str) : option str :=
  if has_prefix kw s then
    match span is_re_space (skipn (length kw) s) with
    | (ws, q :: s1) =>
        if plus && match ws with [] => true | _ => false end then None
        else if is_quote q then
          match span not_quote s1 with
          | ((_ :: _) as body, _ :: _) => Some body
          | _ => None
          end
        else None
    | (_, []) => None
    end
  else None.

(** The groups of [re.FindAllStringSubmatch(s, -1)] for [:(\w+)]: a colon
    followed by the longest run of word bytes; the scan goes on after the
    match, or one byte further where there is none. *)
Fixpoint symbols_fuel (fuel : nat) (s : str) : list str :=
  match fuel with
  | O => []
  | S f =>
      match s with
      | [] => []
      | c :: s1 =>
          if (c =? ":")%char then
            match span is_word_char s1 with
            | ((_ :: _) as w, s2) => w :: symbols_fuel f s2
            | ([], _) => symbols_fuel f s1
            end
          else symbols_fuel f s1
      end
  end.

Definition symbols (s : str) : list str := symbols_fuel (length s) s.

(** [parseGroups] *)
Definition parseGroups (line : str) : list str :=
  match symbols line with
  | [] => [lit "default"]
  | groups => groups
  end.

(** The expression of [extractRequire] anchored at the start of [s]: the
    keyword require and a colon, blanks, then the word false or a quote,
    non-quote bytes and a quote; the group is the word false or the quoted
    text with its quotes. *)
Definition require_at (s : str) : option str :=
  if has_prefix (lit "require:") s then
    let r := snd (span is_re_space (skipn 8 s)) in
    if has_prefix (lit "false") r then Some (lit "false")
    else match r with
         | q :: r1 =>
             if is_quote q then
               match span not_quote r1 with
               | (body, q' :: _) => Some (q :: body ++ [q'])
               | (_, []) => None
               end
             else None
         | [] => None
         end
  else None.

(** [strings.Trim(s, cutset)] for the cutset of the two quotes. *)
Definition trim_quotes (s : str) : str :=
  rev (snd (span is_quote (rev (snd (span is_quote s))))).

(** [extractRequire]: [None] for a nil pointer. *)
Definition extractRequire (line : str) : option str :=
  match search require_at line with
  | Some r => Some (if str_eqb r (lit "false") then [] else trim_quotes r)
  | None => None
  end.

(** [kw?:\s*\[([^\]]+)\]] for [kw] the word group or platform, anchored at the
    start of [s]: the text between the brackets. *)
Definition bracket_after (kw : str) (s : str) : option str :=
  if has_prefix kw s then
    let r := skipn (length kw) s in
    let r := match r with c :: r' => if (c =? "s")%char then r' else r | [] => r end in
    match r with
    | c :: r1 =>
        if (c =? ":")%char then
          match snd (span is_re_space r1) with
          | b :: r2 =>
              if (b =? "[")%char then
                match span (fun c => negb (c =? "]")%char) r2 with
                | ((_ :: _) as body, _ :: _) => Some body
                | _ => None
                end
              else None
          | [] => None
          end
        else None
    | [] => None
    end
  else None.

(** [platforms?:\s*:(\w+)] anchored at the start of [s]: the word. *)
Definition platform_symbol_at (s : str) : option str :=
  if has_prefix (lit "platform") s then
    let r := skipn 8 s in
    let r := match r with c :: r' => if (c =? "s")%char then r' else r | [] => r end in
    match r with
    | c :: r1 =>
        if (c =? ":")%char then
          match snd (span is_re_space r1) with
          | d :: r2 =>
              if (d =? ":")%char then
                match span is_word_char r2 with
                | ((_ :: _) as w, _) => Some w
                | _ => None
                end
              else None
          | [] => None
          end
        else None
    | [] => None
    end
  else None.

(** [extractGroupOverrides]; the empty list stands for nil as well, which
    its caller does not tell apart. *)
Definition extractGroupOverrides (line : str) : list str :=
  match search (bracket_after (lit "group")) line with
  | Some groupStr => symbols groupStr
  | None => []
  end.

(** [extractPlatforms]; the empty list stands for nil as well. *)
Definition extractPlatforms (line : str) : list str :=
  match search (bracket_after (lit "platform")) line with
  | Some platformStr => symbols platformStr
  | None =>
      match search platform_symbol_at line with
      | Some p => [p]
      | None => []
      end
  end.

(** [extractSource]: a new [Source], or [None] for nil. *)
Definition extractSource (line : str) : option Source :=
  match search (quoted_after (lit "github:") false) line with
  | Some path =>
      let branch := match search (quoted_after (lit "branch:") false) line with
                    | Some b => b
                    | None => []
                    end in
      Some (mkSource (lit "git") (lit "https://github.com/" ++ path ++ lit ".git") branch [] [])
  | None =>
      match search (quoted_after (lit "git:") false) line with
      | Some url => Some (mkSource (lit "git") url [] [] [])
      | None =>
          match search (quoted_after (lit "path:") false) line with
          | Some url => Some (mkSource (lit "path") url [] [] [])
          | None => None
          end
      end
  end.

(** [parseGemLine]: the new dependency and the heap with the cell its
    origin pointer designates. *)
Definition parseGemLine (line : str) (currentGroups : list str) (currentSource : option nat)
  (h : heap) : result (GemDependency * heap) :=
  match search (quoted_after (lit "gem") true) line with
  | None => Err (lit "invalid gem line: " ++ line)
  | Some name =>
      let constraints := extractVersionConstraints line in
      let (src, h1) := parseGemLine_source (extractSource line) currentSource h in
      let req := extractRequire line in
      let groups := match extractGroupOverrides line with
                    | [] => currentGroups
                    | gs => gs
                    end in
      Ok (mkGemDependency name constraints src groups req (extractPlatforms line) [], h1)
  end.

(** [parseSource]: the source and whether the line opens a block. *)
Definition parseSource (line : str) : result (Source * bool) :=
  match search (quoted_after (lit "source") true) line with
  | Some url => Ok (mkSource (lit "rubygems") url [] [] [], contains (lit " do") line)
  | None => Err (lit "invalid source line: " ++ line)
  end.

(** [parseRubyVersion] *)
Definition parseRubyVersion (line : str) : str :=
  match search (quoted_after (lit "ruby") true) line with
  | Some v => v
  | None => []
  end.

(** [parseVariable]: at the start of the line only, a word (the name),
    blanks, an equals sign, blanks and a quoted non-empty text (the value). *)
Definition parseVariable (line : str) : str * str :=
  match span is_word_char line with
  | ((_ :: _) as varName, r) =>
      match snd (span is_re_space r) with
      | e :: r1 =>
          if (e =? "=")%char then
            match quoted_after [] false r1 with
            | Some varValue => (varName, varValue)
            | None => ([], [])
            end
          else ([], [])
      | [] => ([], [])
      end
  | _ => ([], [])
  end.

(** [development_group:\s*:(\w+)] anchored at the start of [s]: the word. *)
Definition dev_group_at (s : str) : option str :=
  if has_prefix (lit "development_group:") s then
    match snd (span is_re_space (skipn 18 s)) with
    | c :: r =>
        if (c =? ":")%char then
          match span is_word_char r with
          | ((_ :: _) as w, _) => Some w
          | _ => None
          end
        else None
    | [] => None
    end
  else None.

(** [parseGemspecDirective]: the defaults, each replaced by the option the
    line gives. *)
Definition parseGemspecDirective (line : str) : GemspecReference :=
  let defaults := mkGemspecReference (lit ".") [] (lit "development") (lit "{,*,*/*}.gemspec") in
  if str_eqb (TrimSpace line) (lit "gemspec") then defaults
  else
    mkGemspecReference
      (match search (quoted_after (lit "path:") false) line with
       | Some p => p | None => ref_Path defaults end)
      (match search (quoted_after (lit "name:") false) line with
       | Some n => n | None => ref_Name defaults end)
      (match search dev_group_at line with
       | Some g => g | None => ref_DevelopmentGroup defaults end)
      (match search (quoted_after (lit "glob:") false) line with
       | Some g => g | None => ref_Glob defaults end).

Definition nocolon (s : str) : bool := forallb (fun c => negb (c =? ":")%char) s.

Definition words (gs : list str) : Prop := Forall (fun g => g <> [] /\ forallb is_word_char g = true) gs.

(** The keywords the readers look for end with a colon, and hold none of
    the bytes that separate the options written by [formatGemLine]. *)
Definition colon_kw (w : str) : Prop :=
  w <> [] /\ nocolon w = true
  /\ Forall (fun c => ~ In c (w ++ [":"%char])) [","%char; " "%char; "'"%char; "["%char; "]"%char].

(** A dependency whose texts [formatGemLine] writes in a form the regular
    expressions read back: a non-empty name, non-empty constraints and a
    require value, none with a quote, a colon or the word gem (the name
    may hold gem), and groups that are words. *)
Definition plain_dep (dep : GemDependency) : Prop :=
  gd_Name dep <> [] /\ forallb not_quote (gd_Name dep) = true /\ nocolon (gd_Name dep) = true
  /\ Forall (fun c => c <> [] /\ forallb not_quote c = true /\ nocolon c = true
                      /\ contains (lit "gem") c = false) (gd_Constraints dep)
  /\ words (gd_Groups dep) /\ Forall (fun g => contains (lit "gem") g = false) (gd_Groups dep)
  /\ match gd_Require dep with
     | Some v => forallb not_quote v = true /\ nocolon v = true /\ contains (lit "gem") v = false
     | None => True
     end.

Definition others (dep : GemDependency) : list str :=
  map quoted (gd_Constraints dep) ++ groups_part (gd_Groups dep) ++ require_part (gd_Require dep).

Definition head_nonblank (p : str) : Prop :=
  match p with c :: _ => is_re_space c = false | [] => False end.

Set Warnings "-register-all".

(** The nodes of the syntax tree, as [extractGemfileData] and [processCall]
    tell them apart ([src/unnamed/part_003]):
    - a [gem] call: its arguments and option pairs ([GemDecl]);
    - a [group] call, or a [platforms]/[platform] call: the symbols
      [extractSymbolArguments] found, and the children of its [do_block]
      (or [block]) when it has one;
    - a [source] call: its string arguments and the children of its block;
    - a [ruby] call, and a [git_source] call (skipped);
    - a [gemspec] call or bare identifier, with the children walked after
      it (an identifier's; a call's are not walked, it is given none);
    - an [if] or [unless] node, with its children;
    - any other node (an unknown call among them): its kind and children. *)
Inductive stmt :=
| SGem (decl : GemDecl)
| SGroup (names : list str) (block : option (list stmt))
| SPlatform (names : list str) (block : option (list stmt))
| SSource (args : list str) (block : option (list stmt))
| SRuby (args : list str)
| SGitSource
| SGemspec (children : list stmt)
| SCond (children : list stmt)
| SNode (kind : str) (children : list stmt).

(** The children [processConditional] walks: those of kind [then] or
    [body_statement]. *)
Definition is_branch (s : stmt) : bool :=
  match s with
  | SNode kind _ => str_eqb kind (lit "then") || str_eqb kind (lit "body_statement")
  | _ => false
  end.

(** [extractGemfileData] on a node.  The state records the heap, the
    dependencies, the sources and the context stack; [processRubyVersion]
    and [processGemspec] write only [RubyVersion] and [Gemspecs], which it
    does not record, so a [ruby] or [gemspec] node leaves it as it is. *)
Fixpoint walk (s : stmt) (st : tsState) : tsState :=
  match s with
  | SGem decl => processGem decl st
  | SGroup names block =>
      match names, block with
      | _ :: _, Some body =>
          ctx_pop (fold_left (fun st' s' => walk s' st')  body
            (ctx_push (fun c => mkParserContext names (ctx_platforms c)
                                  (ctx_source c) (ctx_conditional c)) st))
      | _, _ => st
      end
  | SPlatform names block =>
      match names, block with
      | _ :: _, Some body =>
          ctx_pop (fold_left (fun st' s' => walk s' st') body
            (ctx_push (fun c => mkParserContext (ctx_groups c) names
                                  (ctx_source c) (ctx_conditional c)) st))
      | _, _ => st
      end
  | SSource args block =>
      match args with
      | [] => st
      | url :: _ =>
          let source := mkSource (lit "rubygems") url [] [] [] in
          match block with
          | Some body =>
              let (p, h) := heap_alloc source (ts_heap st) in
              let st1 := mkTsState h (ts_Dependencies st) (ts_Sources st ++ [source])
                           (ts_current st) (ts_parents st) in
              ctx_pop (fold_left (fun st' s' => walk s' st') body
                (ctx_push (fun c => mkParserContext (ctx_groups c) (ctx_platforms c)
                                      (Some p) (ctx_conditional c)) st1))
          | None =>
              mkTsState (ts_heap st) (ts_Dependencies st) (ts_Sources st ++ [source])
                (ts_current st) (ts_parents st)
          end
      end
  | SRuby _ => st
  | SGitSource => st
  | SGemspec children => fold_left (fun st' s' => walk s' st') children st
  | SCond children =>
      ctx_pop (fold_left (fun st' s' => if is_branch s' then walk s' st' else st') children
        (ctx_push (fun c => mkParserContext (ctx_groups c) (ctx_platforms c)
                              (ctx_source c) true) st))
  | SNode _ children => fold_left (fun st' s' => walk s' st') children st
  end.

(** The nodes of a list, in order. *)
Definition walk_list (ss : list stmt) (st : tsState) : tsState :=
  fold_left (fun st' s' => walk s' st') ss st.

(** The origins, as values, of the dependencies a node declares when the
    context's origin is [cv]. *)
Fixpoint walk_values (s : stmt) (cv : Source) : list (option Source) :=
  match s with
  | SGem decl => match decl_args decl with
                 | [] => []
                 | _ => [decl_source_value decl (Some cv)]
                 end
  | SGroup (_ :: _) (Some body) | SPlatform (_ :: _) (Some body) =>
      flat_map (fun s' => walk_values s' cv) body
  | SSource (url :: _) (Some body) =>
      flat_map (fun s' => walk_values s' (mkSource (lit "rubygems") url [] [] [])) body
  | SGemspec children | SNode _ children => flat_map (fun s' => walk_values s' cv) children
  | SCond children =>
      flat_map (fun s' => if is_branch s' then walk_values s' cv else []) children
  | _ => []
  end.

Definition opt_all (P : stmt -> Prop) (b : option (list stmt)) : Prop :=
  match b with Some body => Forall P body | None => True end.

Section StmtInd.
Variable P : stmt -> Prop.
Hypothesis HGem : forall d, P (SGem d).
Hypothesis HGroup : forall names b, opt_all P b -> P (SGroup names b).
Hypothesis HPlatform : forall names b, opt_all P b -> P (SPlatform names b).
Hypothesis HSource : forall args b, opt_all P b -> P (SSource args b).
Hypothesis HRuby : forall args, P (SRuby args).
Hypothesis HGitSource : P SGitSource.
Hypothesis HGemspec : forall cs, Forall P cs -> P (SGemspec cs).
Hypothesis HCond : forall cs, Forall P cs -> P (SCond cs).
Hypothesis HNode : forall k cs, Forall P cs -> P (SNode k cs).

Fixpoint stmt_ind' (s : stmt) : P s :=
  let fix all (ss : list stmt) : Forall P ss :=
    match ss with
    | [] => Forall_nil P
    | s' :: ss' => Forall_cons s' (stmt_ind' s') (all ss')
    end in
  let opt (b : option (list stmt)) : opt_all P b :=
    match b as b0 return opt_all P b0 with Some body => all body | None => I end in
  match s with
  | SGem d => HGem d
  | SGroup names b => HGroup names b (opt b)
  | SPlatform names b => HPlatform names b (opt b)
  | SSource args b => HSource args b (opt b)
  | SRuby args => HRuby args
  | SGitSource => HGitSource
  | SGemspec cs => HGemspec cs (all cs)
  | SCond cs => HCond cs (all cs)
  | SNode k cs => HNode k cs (all cs)
  end.
End StmtInd.

(** What walking a node does, seen from the context's origin cell [c]: the
    context and the heap's existing cells are kept, and the dependencies
    [vals] describes are appended, each pointing at [c] or at a new cell. *)
Definition walk_frame (c : nat) (st st' : tsState) (vals : list (option Source)) : Prop :=
  ts_current st' = ts_current st /\ ts_parents st' = ts_parents st /\
  firstn (length (ts_heap st)) (ts_heap st') = ts_heap st /\
  length (ts_heap st) <= length (ts_heap st') /\
  exists ds, ts_Dependencies st' = ts_Dependencies st ++ ds /\
    Forall (fun d => ptr_in c (length (ts_heap st)) (length (ts_heap st')) (gd_Source d)) ds /\
    map (source_of st') ds = vals.

Definition walk_inv (c : nat) (cv : Source) (st : tsState) : Prop :=
  ctx_source (ts_current st) = Some c /\ nth_error (ts_heap st) c = Some cv /\
  str_eqb (source_Type cv) gitKey = false.

(* ================================================================== *)
(** * Properties *)

(** ** Strings *)

Lemma has_prefix_app : forall p s, has_prefix p (p ++ s) = true.
Proof.
  induction p as [|c p IH]; intros s; simpl; [reflexivity|].
  rewrite Ascii.eqb_refl, IH; reflexivity.
Qed.

Lemma has_prefix_inv : forall p s, has_prefix p s = true -> s = p ++ skipn (length p) s.
Proof.
  induction p as [|c p IH]; intros s H; simpl; [reflexivity|].
  destruct s as [|d s]; simpl in H; [discriminate|].
  apply andb_prop in H as [H1 H2]. apply Ascii.eqb_eq in H1; subst.
  simpl; f_equal; apply IH; exact H2.
Qed.

Lemma has_prefix_app_l : forall p q s, has_prefix p q = true -> has_prefix p (q ++ s) = true.
Proof.
  induction p as [|c p IH]; intros q s H; [reflexivity|].
  destruct q as [|d q]; simpl in H; [discriminate|].
  apply andb_prop in H as [H1 H2]. simpl. rewrite H1, (IH _ _ H2). reflexivity.
Qed.

(** Lines starting with three spaces go straight to the section switch. *)
Lemma step_indented : forall l st,
  has_prefix (lit "   ") l = true -> step l st = section_line l st.
Proof.
  intros l st H. apply has_prefix_inv in H. simpl in H. rewrite H.
  unfold step. simpl. reflexivity.
Qed.

Lemma split_on_nonnil : forall c d, split_on c d <> [].
Proof.
  intros c d; destruct d as [|x d]; simpl; [discriminate|].
  destruct (x =? c)%char; [discriminate|]. destruct (split_on c d); discriminate.
Qed.

Lemma split_on_app : forall c p d, ~ In c p ->
  split_on c (p ++ d) = (p ++ hd [] (split_on c d)) :: tl (split_on c d).
Proof.
  induction p as [|x p IH]; intros d Hp; simpl.
  - destruct (split_on c d) eqn:E; [exfalso; exact (split_on_nonnil c d E)|reflexivity].
  - assert (Hx : (x =? c)%char = false).
    { apply Ascii.eqb_neq; intro; subst; apply Hp; left; reflexivity. }
    rewrite Hx, IH by (intro; apply Hp; right; assumption). reflexivity.
Qed.

(** ** The scanner *)

(** The scan of the bytes [d], with [cur] already buffered, ends without
    error exactly when the reader does not fail and no line is too long. *)
Lemma scan_go_ok : forall d cur fails, ~ In (chr 10) cur ->
  snd (scan_go cur (N.of_nat (length cur)) d fails) = None
  <-> fails = false /\ has_long_line (rev cur ++ d) = false.
Proof.
  unfold has_long_line.
  induction d as [|x d IH]; intros cur fails Hcur.
  - rewrite app_nil_r.
    assert (Hs : split_on (chr 10) (rev cur) = [rev cur]).
    { rewrite <- (app_nil_r (rev cur)), split_on_app by (rewrite <- in_rev; exact Hcur).
      reflexivity. }
    rewrite Hs. simpl. rewrite length_rev, orb_false_r.
    destruct (maxTokenSize <=? N.of_nat (length cur))%N; simpl.
    + split; [discriminate|intros [_ H]; discriminate].
    + destruct fails; split; auto; try discriminate; intros [H _]; discriminate.
  - rewrite split_on_app by (rewrite <- in_rev; exact Hcur). simpl.
    destruct (x =? chr 10)%char eqn:Ex.
    + apply Ascii.eqb_eq in Ex; subst x. simpl.
      rewrite app_nil_r, length_rev.
      destruct (N.of_nat (length cur) <? maxTokenSize)%N eqn:Hlt.
      * destruct (scan_go [] 0 d fails) as [ts e] eqn:Es. simpl.
        pose proof (IH [] fails (fun H => H)) as IH'. simpl in IH'.
        rewrite Es in IH'. simpl in IH'. rewrite IH'.
        apply N.ltb_lt in Hlt.
        assert (Hle : (maxTokenSize <=? N.of_nat (length cur))%N = false)
          by (apply N.leb_gt; exact Hlt).
        rewrite Hle. simpl. reflexivity.
      * apply N.ltb_ge in Hlt.
        assert (Hle : (maxTokenSize <=? N.of_nat (length cur))%N = true)
          by (apply N.leb_le; exact Hlt).
        rewrite Hle. simpl. split; [discriminate|intros [_ H]; discriminate].
    + assert (Hn : x <> chr 10) by (apply Ascii.eqb_neq; exact Ex).
      rewrite <- Nat2N.inj_succ.
      change (S (length cur)) with (length (x :: cur)).
      rewrite IH by (intros [H|H]; [apply Hn; exact H|exact (Hcur H)]).
      simpl. rewrite <- app_assoc. simpl.
      rewrite split_on_app by (rewrite <- in_rev; exact Hcur). simpl.
      rewrite Ex. simpl.
      destruct (split_on (chr 10) d) as [|s ss] eqn:Esp;
        [exfalso; exact (split_on_nonnil _ _ Esp)|].
      reflexivity.
Qed.

(** ** C9: the error paths of [lockfile.Parse] *)

(** C9. [Parse] returns an error exactly when the reader fails
    or the input has a line of 65536 bytes or more (newline excluded), which
    [bufio.Scanner] rejects with [ErrTooLong]; every other input, however
    malformed, is accepted. *)
Theorem parse_error_iff_read_error_or_long_line : forall r,
  Parse r = None <-> r_fails r = true \/ has_long_line (r_data r) = true.
Proof.
  intros r. unfold Parse, scan_lines.
  pose proof (scan_go_ok (r_data r) [] (r_fails r) (fun H => H)) as H. simpl in H.
  destruct (scan_go [] 0 (r_data r) (r_fails r)) as [ls e]. simpl in H.
  destruct e as [e|].
  - split; [intros _|reflexivity].
    destruct (r_fails r); [left; reflexivity|right].
    apply not_false_is_true. intro Hf.
    assert (Some e = None) by (apply H; split; [reflexivity|exact Hf]). discriminate.
  - split; [discriminate|].
    destruct (proj1 H eq_refl) as [H1 H2].
    rewrite H1, H2. intros [X|X]; discriminate.
Qed.

(** C9: a reader that does not fail, and a first line of 65536 bytes:
    [Parse] returns an error. *)
Lemma parse_rejects_long_line :
  let r := ok_reader (repeat "a"%char (N.to_nat maxTokenSize) ++ nl) in
  r_fails r = false /\ Parse r = None.
Proof. split; [reflexivity|vm_compute; reflexivity]. Qed.

(** ** C4: flushes on section headers *)

(** C4. A GIT, PATH, PLATFORMS or DEPENDENCIES header appends
    every open entry (registry, version-control, local-path) and clears it;
    a GEM header appends and clears only the version-control and local-path
    entries and keeps the registry entry open; a BUNDLED WITH line appends
    and clears none of them. *)
Theorem header_flush : forall st,
  (forall line s, header line = Some s -> s <> SecGEM ->
     step line st = mkPstate s None None None (with_all_flushed st))
  /\ step (lit "GEM") st
     = mkPstate SecGEM (currentGem st) None None (with_git_path_flushed st)
  /\ (forall line, has_prefix (lit "BUNDLED WITH") line = true ->
        step line st = mkPstate SecBUNDLED_WITH (currentGem st) (currentGitGem st)
                                (currentPathGem st) (lockfile st)).
Proof.
  intros [sec g gi pa l]. split; [|split].
  - intros line s Hh Hs. unfold step. rewrite Hh.
    destruct s; try (exfalso; apply Hs; reflexivity);
      destruct g, gi, pa; unfold with_all_flushed; simpl; rewrite ?app_nil_r;
      destruct l; reflexivity.
  - destruct gi, pa; unfold with_git_path_flushed; simpl; rewrite ?app_nil_r;
      destruct l; reflexivity.
  - intros line H. apply has_prefix_inv in H. rewrite H. reflexivity.
Qed.

(** C4: after [GEM / specs / a (1.0)], a second [GEM] header leaves the
    entry [a] open, and the dependency line that follows is added to it. *)
Lemma gem_header_keeps_registry_entry :
  let st := run_lines (map lit ["GEM"; "  specs:"; "    a (1.0)"]%string) init_pstate in
  currentGem (step (lit "GEM") st) = Some (mkGemSpec (lit "a") (lit "1.0") [] [] [])
  /\ option_map (fun l => map (fun g => length (gs_Dependencies g)) (GemSpecs l))
       (Parse (ok_reader (text ["GEM"; "  specs:"; "    a (1.0)"; "GEM"; "      b"]%string)))
     = Some [1].
Proof. split; vm_compute; reflexivity. Qed.

(** Instance of [header_flush] on an open version-control entry. *)
Lemma header_flush_witness :
  let st := run_lines (map lit ["GIT"; "  remote: x"; "    a (1)"]%string) init_pstate in
  step (lit "PATH") st = mkPstate SecPATH None None None (with_all_flushed st)
  /\ step (lit "BUNDLED WITH") st
     = mkPstate SecBUNDLED_WITH (currentGem st) (currentGitGem st) (currentPathGem st)
                (lockfile st).
Proof.
  intros st. split.
  - apply (proj1 (header_flush st)); [reflexivity|discriminate].
  - apply (proj2 (proj2 (header_flush st))). reflexivity.
Defined.

(** ** Entry and dependency lines *)

Lemma match_gemspec_indented : forall l x,
  match_gemspec l = Some x -> has_prefix (lit "   ") l = true.
Proof.
  unfold match_gemspec. intros l x H.
  destruct (has_prefix (lit "    ") l) eqn:E; [|discriminate].
  apply has_prefix_inv in E. rewrite E. reflexivity.
Qed.

Lemma match_dep_indented : forall l x,
  match_dep l = Some x -> has_prefix (lit "   ") l = true.
Proof.
  unfold match_dep. intros l x H.
  destruct (has_prefix (lit "      ") l) eqn:E; [|discriminate].
  apply has_prefix_inv in E. rewrite E. reflexivity.
Qed.

(** ** C5: the platform-split boundary *)

(** C5. In the GEM section, an entry line whose version string
    has exactly two hyphen-separated parts, or three or more parts but none
    of the substrings x86, darwin, linux, java, opens an entry whose version
    is the whole string and whose platform is empty. *)
Theorem gem_entry_no_platform_split : forall st line name vp,
  currentSection st = SecGEM ->
  match_gemspec line = Some (name, vp) ->
  (length (split_on "-"%char vp) = 2
   \/ (3 <= length (split_on "-"%char vp) /\ platform_indicator vp = false)) ->
  currentGem (step line st) = Some (mkGemSpec name vp [] [] []).
Proof.
  intros st line name vp Hsec Hm Hparts.
  rewrite step_indented by (exact (match_gemspec_indented _ _ Hm)).
  unfold section_line. rewrite Hsec, Hm. unfold split_version_platform.
  assert (Hc : (3 <=? length (split_on "-"%char vp)) && platform_indicator vp = false).
  { destruct Hparts as [H|[_ H]].
    - rewrite H. reflexivity.
    - rewrite H, andb_false_r. reflexivity. }
  rewrite Hc. destruct st as [sec g gi pa l]. destruct g; reflexivity.
Qed.

(** Instance of [gem_entry_no_platform_split]: [1.0-java] has two parts. *)
Lemma gem_entry_no_platform_split_witness :
  currentGem (step (lit "    foo (1.0-java)") (set_section SecGEM init_pstate))
  = Some (mkGemSpec (lit "foo") (lit "1.0-java") [] [] []).
Proof.
  apply (gem_entry_no_platform_split (set_section SecGEM init_pstate)
           (lit "    foo (1.0-java)") (lit "foo") (lit "1.0-java")).
  - reflexivity.
  - vm_compute. reflexivity.
  - left. vm_compute. reflexivity.
Defined.

(** ** Runs of lines *)

Lemma run_lines_cons : forall l ls st, run_lines (l :: ls) st = run_lines ls (step l st).
Proof. reflexivity. Qed.

Lemma run_lines_app : forall ls1 ls2 st,
  run_lines (ls1 ++ ls2) st = run_lines ls2 (run_lines ls1 st).
Proof. intros. unfold run_lines. apply fold_left_app. Qed.

Lemma deps_of_cons : forall d ds,
  deps_of (d :: ds)
  = match match_dep d with Some m => [dependency_of_match m] | None => [] end ++ deps_of ds.
Proof. reflexivity. Qed.

(** Dependency lines extend the open version-control entry. *)
Lemma git_dep_lines : forall ds st g,
  currentSection st = SecGIT -> currentGitGem st = Some g ->
  Forall (fun d => match_gemspec d = None /\ match_dep d <> None) ds ->
  run_lines ds st
  = mkPstate SecGIT (currentGem st)
      (Some (mkGitGemSpec (git_Name g) (git_Version g) (git_Remote g) (git_Revision g)
               (git_Branch g) (git_Tag g) (git_Dependencies g ++ deps_of ds)))
      (currentPathGem st) (lockfile st).
Proof.
  induction ds as [|d ds IH]; intros st g Hs Hg Hf.
  - destruct st, g; simpl in *; subst. rewrite app_nil_r. reflexivity.
  - inversion Hf as [|? ? [Hd1 Hd2] Hf']; subst.
    destruct (match_dep d) as [m|] eqn:Em; [|contradiction].
    rewrite run_lines_cons, step_indented by (exact (match_dep_indented _ _ Em)).
    unfold section_line. rewrite Hs, Hd1, Em, Hg.
    rewrite IH with (g := git_add_dep g (dependency_of_match m)) by (auto; exact Hs).
    rewrite deps_of_cons, Em. destruct g; simpl. rewrite <- app_assoc. reflexivity.
Qed.

(** Dependency lines extend the open local-path entry. *)
Lemma path_dep_lines : forall ds st g,
  currentSection st = SecPATH -> currentPathGem st = Some g ->
  Forall (fun d => match_gemspec d = None /\ match_dep d <> None) ds ->
  run_lines ds st
  = mkPstate SecPATH (currentGem st) (currentGitGem st)
      (Some (mkPathGemSpec (path_Name g) (path_Version g) (path_Remote g)
               (path_Dependencies g ++ deps_of ds)))
      (lockfile st).
Proof.
  induction ds as [|d ds IH]; intros st g Hs Hg Hf.
  - destruct st, g; simpl in *; subst. rewrite app_nil_r. reflexivity.
  - inversion Hf as [|? ? [Hd1 Hd2] Hf']; subst.
    destruct (match_dep d) as [m|] eqn:Em; [|contradiction].
    rewrite run_lines_cons, step_indented by (exact (match_dep_indented _ _ Em)).
    unfold section_line. rewrite Hs, Hd1, Em, Hg.
    rewrite IH with (g := path_add_dep g (dependency_of_match m)) by (auto; exact Hs).
    rewrite deps_of_cons, Em. destruct g; simpl. rewrite <- app_assoc. reflexivity.
Qed.

Lemma last_cons_default : forall {A : Type} (l : list A) x d, last (x :: l) d = last l x.
Proof.
  induction l as [|y l IH]; intros x d; [reflexivity|].
  change (last (x :: y :: l) d) with (last (y :: l) d). rewrite !IH. reflexivity.
Qed.

Lemma entry_line_step_git : forall e st g n v,
  currentSection st = SecGIT -> currentGitGem st = Some g ->
  match_gemspec e = Some (n, v) ->
  step e st = set_git (git_set_name_version g n v) st.
Proof.
  intros e st g n v Hs Hg Hm.
  rewrite step_indented by (exact (match_gemspec_indented _ _ Hm)).
  unfold section_line, git_or_new. rewrite Hs, Hm, Hg. reflexivity.
Qed.

Lemma entry_line_step_path : forall e st g n v,
  currentSection st = SecPATH -> currentPathGem st = Some g ->
  match_gemspec e = Some (n, v) ->
  step e st = set_path (path_set_name_version g n v) st.
Proof.
  intros e st g n v Hs Hg Hm.
  rewrite step_indented by (exact (match_gemspec_indented _ _ Hm)).
  unfold section_line, path_or_new. rewrite Hs, Hm, Hg. reflexivity.
Qed.

(** Entry blocks in a GIT section rename the one open entry and append
    their dependencies to it. *)
Lemma git_entries : forall es st g,
  currentSection st = SecGIT -> currentGitGem st = Some g -> Forall entry_ok es ->
  exists g', run_lines (concat (map entry_lines es)) st
             = mkPstate SecGIT (currentGem st) (Some g') (currentPathGem st) (lockfile st)
    /\ (git_Name g', git_Version g') = last (map entry_nv es) (git_Name g, git_Version g)
    /\ git_Dependencies g' = git_Dependencies g ++ flat_map (fun e => deps_of (snd e)) es.
Proof.
  induction es as [|[e ds] es IH]; intros st g Hs Hg Hf.
  - exists g. destruct st; simpl in *; subst. rewrite app_nil_r. auto.
  - inversion Hf as [|? ? [He Hds] Hf']; subst. simpl in He, Hds.
    destruct (match_gemspec e) as [[n v]|] eqn:Em; [|contradiction].
    cbn [map concat entry_lines fst snd app]. rewrite run_lines_cons, run_lines_app.
    rewrite (entry_line_step_git e st g n v Hs Hg Em).
    rewrite (git_dep_lines ds (set_git (git_set_name_version g n v) st)
               (git_set_name_version g n v) Hs eq_refl Hds).
    match goal with
    | |- context [run_lines _ ?s] => destruct (IH s _ eq_refl eq_refl Hf') as [g' [H1 [H2 H3]]]
    end.
    exists g'. rewrite H1. split; [destruct st; reflexivity|split].
    + rewrite H2, last_cons_default. unfold entry_nv, entry_name, entry_version.
      simpl. rewrite Em. reflexivity.
    + rewrite H3. simpl. rewrite app_assoc. reflexivity.
Qed.

(** Entry blocks in a PATH section rename the one open entry and append
    their dependencies to it. *)
Lemma path_entries : forall es st g,
  currentSection st = SecPATH -> currentPathGem st = Some g -> Forall entry_ok es ->
  exists g', run_lines (concat (map entry_lines es)) st
             = mkPstate SecPATH (currentGem st) (currentGitGem st) (Some g') (lockfile st)
    /\ (path_Name g', path_Version g') = last (map entry_nv es) (path_Name g, path_Version g)
    /\ path_Dependencies g' = path_Dependencies g ++ flat_map (fun e => deps_of (snd e)) es.
Proof.
  induction es as [|[e ds] es IH]; intros st g Hs Hg Hf.
  - exists g. destruct st; simpl in *; subst. rewrite app_nil_r. auto.
  - inversion Hf as [|? ? [He Hds] Hf']; subst. simpl in He, Hds.
    destruct (match_gemspec e) as [[n v]|] eqn:Em; [|contradiction].
    cbn [map concat entry_lines fst snd app]. rewrite run_lines_cons, run_lines_app.
    rewrite (entry_line_step_path e st g n v Hs Hg Em).
    rewrite (path_dep_lines ds (set_path (path_set_name_version g n v) st)
               (path_set_name_version g n v) Hs eq_refl Hds).
    match goal with
    | |- context [run_lines _ ?s] => destruct (IH s _ eq_refl eq_refl Hf') as [g' [H1 [H2 H3]]]
    end.
    exists g'. rewrite H1. split; [destruct st; reflexivity|split].
    + rewrite H2, last_cons_default. unfold entry_nv, entry_name, entry_version.
      simpl. rewrite Em. reflexivity.
    + rewrite H3. simpl. rewrite app_assoc. reflexivity.
Qed.

Lemma on_header_all : forall s st, s <> SecGEM ->
  on_header s st = mkPstate s None None None (with_all_flushed st).
Proof.
  intros s [sec g gi pa l] Hs.
  destruct s; try (exfalso; apply Hs; reflexivity);
    destruct g, gi, pa; unfold with_all_flushed; simpl; rewrite ?app_nil_r;
    destruct l; reflexivity.
Qed.

Lemma step_remote_line : forall R st,
  step (lit "  remote:" ++ R) st
  = match currentSection st with
    | SecGIT => set_git (git_set_remote (git_or_new st) (TrimSpace R)) st
    | SecPATH => set_path (path_set_remote (path_or_new st) (TrimSpace R)) st
    | _ => st
    end.
Proof. reflexivity. Qed.

(** ** C10: one open entry per GIT or PATH block *)

(** C10. A GIT block (and likewise a PATH block) made of its
    header, a remote line and entry blocks appends no entry while it is
    read: only the header's flush changes the list of version-control
    entries.  At its end one entry is open; it carries the name and version
    of the last entry line and the dependency edges of all entry blocks,
    concatenated; the end of input appends exactly that entry. *)
Theorem vcs_block_single_entry : forall st R entries,
  Forall entry_ok entries ->
  (let st' := run_lines (lit "GIT" :: (lit "  remote:" ++ R)
                          :: concat (map entry_lines entries)) st in
   GitSpecs (lockfile st') = GitSpecs (lockfile st) ++ opt (currentGitGem st)
   /\ exists g, currentGitGem st' = Some g
       /\ (git_Name g, git_Version g) = last (map entry_nv entries) ([], [])
       /\ git_Dependencies g = flat_map (fun e => deps_of (snd e)) entries
       /\ GitSpecs (finish st') = GitSpecs (lockfile st) ++ opt (currentGitGem st) ++ [g])
  /\
  (let st' := run_lines (lit "PATH" :: (lit "  remote:" ++ R)
                          :: concat (map entry_lines entries)) st in
   PathSpecs (lockfile st') = PathSpecs (lockfile st) ++ opt (currentPathGem st)
   /\ exists g, currentPathGem st' = Some g
       /\ (path_Name g, path_Version g) = last (map entry_nv entries) ([], [])
       /\ path_Dependencies g = flat_map (fun e => deps_of (snd e)) entries
       /\ PathSpecs (finish st') = PathSpecs (lockfile st) ++ opt (currentPathGem st) ++ [g]).
Proof.
  intros st R entries Hf. split; cbv zeta; rewrite !run_lines_cons.
  - change (step (lit "GIT") st) with (on_header SecGIT st).
    rewrite on_header_all by discriminate. rewrite step_remote_line. cbn [currentSection].
    match goal with
    | |- context [run_lines _ ?s] =>
        destruct (git_entries entries s _ eq_refl eq_refl Hf) as [g [H1 [H2 H3]]]
    end.
    rewrite H1. split; [reflexivity|]. exists g. split; [reflexivity|].
    split; [exact H2|]. split; [exact H3|].
    unfold finish. simpl. rewrite app_assoc. reflexivity.
  - change (step (lit "PATH") st) with (on_header SecPATH st).
    rewrite on_header_all by discriminate. rewrite step_remote_line. cbn [currentSection].
    match goal with
    | |- context [run_lines _ ?s] =>
        destruct (path_entries entries s _ eq_refl eq_refl Hf) as [g [H1 [H2 H3]]]
    end.
    rewrite H1. split; [reflexivity|]. exists g. split; [reflexivity|].
    split; [exact H2|]. split; [exact H3|].
    unfold finish. simpl. rewrite app_assoc. reflexivity.
Qed.

(** Instance of [vcs_block_single_entry]: two entries, three dependency
    lines. *)
Lemma vcs_block_single_entry_witness :
  let entries := [(lit "    x (0.1)", [lit "      rack (>= 1)"; lit "      rake"]);
                  (lit "    y (0.2)", [lit "      thor"])] in
  Forall entry_ok entries
  /\ exists g, currentGitGem (run_lines (lit "GIT" :: lit "  remote: https://g/x.git"
                                    :: concat (map entry_lines entries)) init_pstate) = Some g
       /\ (git_Name g, git_Version g) = (lit "y", lit "0.2")
       /\ length (git_Dependencies g) = 3.
Proof.
  intros entries.
  assert (Hf : Forall entry_ok entries).
  { repeat constructor; vm_compute; discriminate. }
  split; [exact Hf|].
  destruct (proj1 (vcs_block_single_entry init_pstate (lit " https://g/x.git") entries Hf))
    as [_ [g [Hg [Hnv [Hd _]]]]].
  exists g. split; [exact Hg|]. split.
  - rewrite Hnv. vm_compute. reflexivity.
  - rewrite Hd. vm_compute. reflexivity.
Defined.

(** C6 (the keyword cascade of [extractVersionConstraints]): the keywords
    are searched one after the other, not by position, so a [require:] that
    comes after a [github:] option wins and the github option value, which
    lies after the earliest keyword, is returned as a version constraint.
    On the gem line [gem 'foo', github: 'u/r', require: false] the code
    returns the constraint [u/r], while cutting at the earliest keyword
    returns no constraint. *)
Theorem version_constraints_swallow_option_value :
  let line := lit "gem 'foo', github: 'u/r', require: false" in
  index_of (lit "github:") (remove_gem_name line) = Some 0 /\
  extractVersionConstraints line = [lit "u/r"] /\
  extractVersionConstraints_earliest line = [].
Proof. vm_compute. repeat split; reflexivity. Qed.

(* ------------------------------------------------------------------ *)
(** *** The walker's heap *)

Lemma heap_update_length h p f : length (heap_update h p f) = length h.
Proof.
  revert p; induction h as [|s h IH]; intros [|p]; simpl; auto.
Qed.

Lemma heap_update_last h s f : heap_update (h ++ [s]) (length h) f = h ++ [f s].
Proof. induction h as [|x h IH]; simpl; [reflexivity | now rewrite IH]. Qed.

Lemma heap_update_nth_eq h p f :
  nth_error (heap_update h p f) p = option_map f (nth_error h p).
Proof.
  revert p; induction h as [|s h IH]; intros [|p]; simpl; auto.
Qed.

Lemma heap_update_firstn h p f n :
  n <= p -> firstn n (heap_update h p f) = firstn n h.
Proof.
  revert p n; induction h as [|s h IH]; intros [|p] [|n] Hn; simpl; auto; try lia.
  f_equal; apply IH; lia.
Qed.

Lemma firstn_app_le {A} (h : list A) t n : n <= length h -> firstn n (h ++ t) = firstn n h.
Proof.
  intros Hn. rewrite firstn_app.
  replace (n - length h) with 0 by lia. now rewrite app_nil_r.
Qed.

Lemma nth_error_firstn_eq {A} (h h' : list A) n p :
  firstn n h' = firstn n h -> p < n -> nth_error h' p = nth_error h p.
Proof.
  intros E Hp.
  pose proof (nth_error_firstn n h' p) as A1.
  pose proof (nth_error_firstn n h p) as A2.
  rewrite E in A1. apply Nat.ltb_lt in Hp. rewrite Hp in A1, A2.
  congruence.
Qed.

Lemma str_eqb_true a b : str_eqb a b = true -> a = b.
Proof.
  unfold str_eqb. revert b; induction a as [|x a IH]; intros [|y b]; simpl;
    try discriminate; auto.
  destruct (N.compare (N_of_ascii x) (N_of_ascii y)) eqn:E; try discriminate.
  intros H. apply N.compare_eq_iff in E.
  rewrite <- (ascii_N_embedding x), <- (ascii_N_embedding y), E.
  f_equal. apply IH.
  destruct (str_compare a b); auto.
Qed.

Ltac key_case E :=
  match goal with
  | |- context [if ?b then _ else _] =>
      destruct b eqn:E;
      [ try (apply orb_true_iff in E; destruct E as [E|E]);
        apply str_eqb_true in E; subst | ]
  end.

Lemma git_target_spec c cv n d h :
  c < n -> n <= length h -> nth_error h c = Some cv -> str_eqb (source_Type cv) gitKey = false ->
  ptr_in c n (length h) (gd_Source d) ->
  let base := match deref h (gd_Source d) with
              | Some s' => if str_eqb (source_Type s') gitKey then s' else new_source gitKey
              | None => new_source gitKey
              end in
  let (p, h1) := git_target d h in
  n <= p < length h1 /\ firstn n h1 = firstn n h /\ length h <= length h1 /\
  nth_error h1 p = Some base.
Proof.
  intros Hc Hn Hcv Hng Hp base. unfold base, git_target.
  destruct Hp as [Hs | (p & Hs & Hp)]; rewrite Hs; simpl.
  - rewrite Hcv, Hng. simpl. rewrite length_app; simpl.
    repeat split; try lia.
    + apply firstn_app_le; lia.
    + rewrite nth_error_app2, Nat.sub_diag by lia. reflexivity.
  - destruct (nth_error h p) as [s|] eqn:E.
    + destruct (str_eqb (source_Type s) gitKey) eqn:G.
      * repeat split; try lia. now rewrite E.
      * simpl. rewrite length_app; simpl. repeat split; try lia.
        -- apply firstn_app_le; lia.
        -- rewrite nth_error_app2, Nat.sub_diag by lia. reflexivity.
    + apply nth_error_None in E. lia.
Qed.

Lemma write_git_field_spec c cv n f d h :
  c < n -> n <= length h -> nth_error h c = Some cv -> str_eqb (source_Type cv) gitKey = false ->
  ptr_in c n (length h) (gd_Source d) ->
  let base := match deref h (gd_Source d) with
              | Some s' => if str_eqb (source_Type s') gitKey then s' else new_source gitKey
              | None => new_source gitKey
              end in
  let (d', h') := write_git_field f d h in
  (exists p, gd_Source d' = Some p /\ n <= p < length h') /\
  firstn n h' = firstn n h /\ length h <= length h' /\
  deref h' (gd_Source d') = Some (f base).
Proof.
  intros Hc Hn Hcv Hng Hp base. unfold write_git_field.
  pose proof (git_target_spec c cv n d h Hc Hn Hcv Hng Hp) as G.
  destruct (git_target d h) as [p h1]. fold base in G.
  destruct G as (Hp1 & F & L & E).
  simpl. rewrite heap_update_length. repeat split; try lia.
  - exists p. split; [reflexivity | lia].
  - rewrite heap_update_firstn by lia. exact F.
  - rewrite heap_update_nth_eq, E. reflexivity.
Qed.

Lemma alloc_update_spec c n s f d h :
  c < n -> n <= length h ->
  let (p, h1) := heap_alloc s h in
  let h' := heap_update h1 p f in
  let d' := gd_set_Source (Some p) d in
  (exists p, gd_Source d' = Some p /\ n <= p < length h') /\
  firstn n h' = firstn n h /\ length h <= length h' /\
  deref h' (gd_Source d') = Some (f s) /\ gd_Source d' <> Some c.
Proof.
  intros Hc Hn. simpl. rewrite heap_update_last, length_app. simpl.
  repeat split.
  - exists (length h). split; [reflexivity | lia].
  - apply firstn_app_le; lia.
  - lia.
  - rewrite nth_error_app2, Nat.sub_diag by lia. reflexivity.
  - intros E. injection E. lia.
Qed.

Lemma pair_step c cv n pr (d : GemDependency) (h : heap) :
  c < n -> n <= length h -> nth_error h c = Some cv -> str_eqb (source_Type cv) gitKey = false ->
  ptr_in c n (length h) (gd_Source d) ->
  let (d', h') := extractPairOption pr (d, h) in
  firstn n h' = firstn n h /\ length h <= length h' /\
  ptr_in c n (length h') (gd_Source d') /\
  deref h' (gd_Source d') = source_option_value pr (deref h (gd_Source d)) /\
  (gd_Source d <> Some c -> gd_Source d' <> Some c) /\
  (pair_overrides pr = true -> gd_Source d' <> Some c).
Proof.
  intros Hc Hn Hcv Hng Hp.
  assert (Hkeep : forall d', gd_Source d' = gd_Source d ->
            firstn n h = firstn n h /\ length h <= length h /\
            ptr_in c n (length h) (gd_Source d') /\
            deref h (gd_Source d') = deref h (gd_Source d) /\
            (gd_Source d <> Some c -> gd_Source d' <> Some c)).
  { intros d' E. rewrite E. repeat split; auto. }
  assert (Halloc : forall s f,
            let (p, h1) := heap_alloc s h in
            let h' := heap_update h1 p f in
            let d' := gd_set_Source (Some p) d in
            firstn n h' = firstn n h /\ length h <= length h' /\
            ptr_in c n (length h') (gd_Source d') /\
            deref h' (gd_Source d') = Some (f s) /\
            (gd_Source d <> Some c -> gd_Source d' <> Some c) /\
            gd_Source d' <> Some c).
  { intros s f. pose proof (alloc_update_spec c n s f d h Hc Hn) as A.
    destruct (heap_alloc s h) as [p h1]. destruct A as (P & F & L & E & N).
    repeat split; auto. right; exact P. }
  assert (Hgit : forall f,
            let (d', h') := write_git_field f d h in
            firstn n h' = firstn n h /\ length h <= length h' /\
            ptr_in c n (length h') (gd_Source d') /\
            deref h' (gd_Source d') =
              Some (f match deref h (gd_Source d) with
                      | Some s' => if str_eqb (source_Type s') gitKey then s' else new_source gitKey
                      | None => new_source gitKey
                      end) /\
            (gd_Source d <> Some c -> gd_Source d' <> Some c)).
  { intros f. pose proof (write_git_field_spec c cv n f d h Hc Hn Hcv Hng Hp) as W.
    destruct (write_git_field f d h) as [d' h'].
    destruct W as ((p & E & P) & F & L & D).
    repeat split; auto. right; exists p; auto.
    intros _. rewrite E. intros X; injection X; lia. }
  destruct pr as [key [value|vs]];
    cbn [pair_overrides extractPairOption source_option_value fst snd].
  - unfold applyGemOption.
    key_case E1.
    { destruct (Hkeep (gd_set_Require (Some []) d) eq_refl) as (?&?&?&?&?).
      destruct (Hkeep (gd_set_Require (Some value) d) eq_refl) as (?&?&?&?&?).
      destruct (str_eqb value (lit "false")); [|destruct (negb (str_eqb value []))];
        repeat split; auto; intros Hov; vm_compute in Hov; discriminate Hov. }
    key_case E2.
    1,2: destruct (Hkeep (gd_set_Platforms [value] d) eq_refl) as (?&?&?&?&?);
      destruct (negb (str_eqb value [])); repeat split; auto;
      intros Hov; vm_compute in Hov; discriminate Hov.
    key_case E3.
    1,2: destruct (Hkeep (gd_set_Groups [value] d) eq_refl) as (?&?&?&?&?);
      destruct (negb (str_eqb value [])); repeat split; auto;
      intros Hov; vm_compute in Hov; discriminate Hov.
    destruct (str_eqb key gitKey || str_eqb key githubKey) eqn:Eg.
    { match goal with |- context [heap_update _ _ ?f] =>
        pose proof (Halloc (new_source gitKey) f) as A end.
      simpl in A |- *. destruct A as (?&?&?&?&?&?). repeat split; auto. }
    destruct (str_eqb key (lit "path")) eqn:Ep.
    { match goal with |- context [heap_update _ _ ?f] =>
        pose proof (Halloc (new_source (lit "path")) f) as A end.
      simpl in A |- *. destruct A as (?&?&?&?&?&?).
      repeat split; auto. }
    cbn [orb].
    destruct (str_eqb key (lit "branch")).
    { pose proof (Hgit (set_Branch value)) as G. destruct (write_git_field _ d h) as [d' h'].
      destruct G as (?&?&?&E&?). repeat split; auto; intros; discriminate. }
    destruct (str_eqb key (lit "tag")).
    { pose proof (Hgit (set_Tag value)) as G. destruct (write_git_field _ d h) as [d' h'].
      destruct G as (?&?&?&E&?). repeat split; auto; intros; discriminate. }
    destruct (str_eqb key (lit "ref")).
    { pose proof (Hgit (set_Ref value)) as G. destruct (write_git_field _ d h) as [d' h'].
      destruct G as (?&?&?&E&?). repeat split; auto; intros; discriminate. }
    destruct (Hkeep d eq_refl) as (?&?&?&?&?). repeat split; auto. intros; discriminate.
  - destruct (str_eqb key (lit "platforms") || str_eqb key (lit "platform")).
    { destruct (Hkeep (gd_set_Platforms vs d) eq_refl) as (?&?&?&?&?). repeat split; auto.
      intros; discriminate. }
    destruct (str_eqb key (lit "groups") || str_eqb key (lit "group")).
    { destruct (Hkeep (gd_set_Groups vs d) eq_refl) as (?&?&?&?&?). repeat split; auto.
      intros; discriminate. }
    destruct (Hkeep d eq_refl) as (?&?&?&?&?). repeat split; auto. intros; discriminate.
Qed.

Lemma pairs_frame c cv n pairs (d : GemDependency) (h : heap) :
  c < n -> n <= length h -> nth_error h c = Some cv -> str_eqb (source_Type cv) gitKey = false ->
  ptr_in c n (length h) (gd_Source d) ->
  let (d', h') := fold_left (fun dh pr => extractPairOption pr dh) pairs (d, h) in
  firstn n h' = firstn n h /\ length h <= length h' /\
  ptr_in c n (length h') (gd_Source d') /\
  deref h' (gd_Source d') =
    fold_left (fun s pr => source_option_value pr s) pairs (deref h (gd_Source d)) /\
  (gd_Source d <> Some c -> gd_Source d' <> Some c) /\
  (existsb pair_overrides pairs = true -> gd_Source d' <> Some c).
Proof.
  revert d h; induction pairs as [|pr pairs IH]; intros d h Hc Hn Hcv Hng Hp;
    cbn [fold_left existsb].
  - repeat split; auto. discriminate.
  - pose proof (pair_step c cv n pr d h Hc Hn Hcv Hng Hp) as S.
    destruct (extractPairOption pr (d, h)) as [d1 h1] eqn:E1.
    destruct S as (F1 & L1 & P1 & D1 & N1 & O1).
    assert (Hcv1 : nth_error h1 c = Some cv).
    { rewrite (nth_error_firstn_eq h h1 n c F1 Hc). exact Hcv. }
    specialize (IH d1 h1 Hc ltac:(lia) Hcv1 Hng P1).
    destruct (fold_left (fun dh pr => extractPairOption pr dh) pairs (d1, h1)) as [d' h'] eqn:E2.
    destruct IH as (F & L & P & D & N & O).
    repeat split; auto.
    + congruence.
    + lia.
    + rewrite D, D1. reflexivity.
    + intros Hov. apply orb_true_iff in Hov as [Hov|Hov]; auto.
Qed.

Lemma ptr_in_widen c n n' m m' o :
  n' <= n -> m <= m' -> ptr_in c n m o -> ptr_in c n' m' o.
Proof.
  intros H1 H2 [E|(p & E & P)]; [left; exact E | right; exists p; split; [exact E | lia]].
Qed.

Lemma deref_stable (h h' : heap) c n m o :
  firstn m h' = h -> length h = m -> c < m -> ptr_in c n m o -> deref h' o = deref h o.
Proof.
  intros F L Hc [E|(p & E & P)]; subst o; simpl;
    [| assert (Hp : p < m) by lia];
    rewrite <- F; rewrite nth_error_firstn;
    [ destruct (Nat.ltb_spec c m) | destruct (Nat.ltb_spec p m) ]; auto; lia.
Qed.

Lemma firstn_trans (h h1 h' : heap) :
  firstn (length h1) h' = h1 -> firstn (length h) h1 = h -> firstn (length h) h' = h.
Proof.
  intros F1 F. assert (length h <= length h1).
  { rewrite <- F, length_firstn. lia. }
  rewrite <- F at 2. rewrite <- F1, firstn_firstn. f_equal. lia.
Qed.

Lemma processGem_frame c cv decl st :
  ctx_source (ts_current st) = Some c -> c < length (ts_heap st) ->
  nth_error (ts_heap st) c = Some cv -> str_eqb (source_Type cv) gitKey = false ->
  decl_args decl <> [] ->
  let st' := processGem decl st in
  ts_current st' = ts_current st /\ ts_parents st' = ts_parents st /\
  ts_Sources st' = ts_Sources st /\
  firstn (length (ts_heap st)) (ts_heap st') = ts_heap st /\
  length (ts_heap st) <= length (ts_heap st') /\
  exists dep, ts_Dependencies st' = ts_Dependencies st ++ [dep] /\
    ptr_in c (length (ts_heap st)) (length (ts_heap st')) (gd_Source dep) /\
    source_of st' dep = decl_source_value decl (Some cv) /\
    (overrides_source decl = true -> gd_Source dep <> Some c).
Proof.
  intros Hs Hc Hcv Hng Ha st'. unfold st', processGem.
  destruct (decl_args decl) as [|name rest]; [congruence|].
  set (dep0 := mkGemDependency name _ _ _ _ _ _).
  assert (P0 : ptr_in c (length (ts_heap st)) (length (ts_heap st)) (gd_Source dep0)).
  { left. exact Hs. }
  pose proof (pairs_frame c cv (length (ts_heap st)) (decl_pairs decl) dep0 (ts_heap st)
                Hc (le_n _) Hcv Hng P0) as PF.
  destruct (fold_left (fun dh pr => extractPairOption pr dh) (decl_pairs decl) (dep0, ts_heap st))
    as [dep h'].
  destruct PF as (F & L & P & D & _ & O).
  cbn [ts_current ts_parents ts_Sources ts_heap ts_Dependencies].
  rewrite firstn_all in F.
  repeat split; auto.
  exists dep. repeat split; auto.
  unfold source_of, decl_source_value. cbn [ts_heap]. rewrite D.
  unfold dep0; cbn [gd_Source deref]. rewrite Hs. simpl. rewrite Hcv. reflexivity.
Qed.

Lemma firstn_skipn_drop {A} (a b : list A) x k :
  k = length a -> firstn k (a ++ x :: b) ++ skipn (S k) (a ++ x :: b) = a ++ b.
Proof.
  intros ->. induction a as [|y a IH]; simpl; [reflexivity | f_equal; exact IH].
Qed.

Lemma new_deps_app st st' ds :
  ts_Dependencies st' = ts_Dependencies st ++ ds -> new_deps st st' = ds.
Proof.
  unfold new_deps. intros ->. rewrite skipn_app, skipn_all, Nat.sub_diag. reflexivity.
Qed.

Lemma ctx_pop_heap st : ts_heap (ctx_pop st) = ts_heap st.
Proof. unfold ctx_pop; destruct (ts_parents st); reflexivity. Qed.

Lemma ctx_pop_deps st : ts_Dependencies (ctx_pop st) = ts_Dependencies st.
Proof. unfold ctx_pop; destruct (ts_parents st); reflexivity. Qed.

Lemma source_of_ctx_pop st : source_of (ctx_pop st) = source_of st.
Proof. unfold source_of. rewrite ctx_pop_heap. reflexivity. Qed.

Lemma walk_frame_refl c st : walk_frame c st st [].
Proof.
  repeat split; auto. rewrite firstn_all; reflexivity.
  exists []. rewrite app_nil_r. repeat split; auto.
Qed.

Lemma walk_frame_trans c st st1 st2 v1 v2 :
  c < length (ts_heap st) -> walk_frame c st st1 v1 -> walk_frame c st1 st2 v2 ->
  walk_frame c st st2 (v1 ++ v2).
Proof.
  intros Hc (C1 & P1 & F1 & L1 & ds1 & D1 & Q1 & V1) (C2 & P2 & F2 & L2 & ds2 & D2 & Q2 & V2).
  repeat split; try congruence.
  - apply (firstn_trans _ (ts_heap st1)); assumption.
  - lia.
  - exists (ds1 ++ ds2). repeat split.
    + rewrite D2, D1, <- app_assoc. reflexivity.
    + apply Forall_app. split.
      * eapply Forall_impl; [|exact Q1]. intros d Hd.
        apply (ptr_in_widen c (length (ts_heap st)) _ (length (ts_heap st1))); auto; lia.
      * eapply Forall_impl; [|exact Q2]. intros d Hd.
        apply (ptr_in_widen c (length (ts_heap st1)) _ (length (ts_heap st2))); auto; lia.
    + rewrite map_app, V2, <- V1. f_equal. apply map_ext_in. intros d Hd.
      unfold source_of.
      apply (deref_stable _ _ c (length (ts_heap st)) (length (ts_heap st1))); auto.
      * lia.
      * rewrite Forall_forall in Q1. apply Q1, Hd.
Qed.

Lemma walk_inv_frame c cv st st' v :
  walk_inv c cv st -> walk_frame c st st' v -> walk_inv c cv st'.
Proof.
  intros (S & N & G) (C & _ & F & _). repeat split; auto.
  - rewrite C; exact S.
  - rewrite (nth_error_firstn_eq (ts_heap st) (ts_heap st') (length (ts_heap st)) c);
      [exact N | rewrite F, firstn_all; reflexivity | apply nth_error_Some; congruence].
Qed.

Lemma walk_frame_gem c cv decl st :
  walk_inv c cv st -> walk_frame c st (processGem decl st) (walk_values (SGem decl) cv).
Proof.
  intros (S & N & G). cbn [walk_values].
  destruct (decl_args decl) as [|a rest] eqn:Ea.
  - unfold processGem. rewrite Ea. apply walk_frame_refl.
  - assert (Hc : c < length (ts_heap st)) by (apply nth_error_Some; congruence).
    assert (Ha : decl_args decl <> []) by congruence.
    destruct (processGem_frame c cv decl st S Hc N G Ha)
      as (C & P & _ & F & L & dep & D & Q & V & _).
    repeat split; auto. exists [dep]. repeat split; auto.
    cbn [map]. rewrite V. reflexivity.
Qed.

(** Walking a list of nodes, each walked when [keep] selects it. *)
Lemma walk_frame_list (keep : stmt -> bool) ss :
  Forall (fun s => forall st c cv, walk_inv c cv st ->
            walk_frame c st (walk s st) (walk_values s cv)) ss ->
  forall st c cv, walk_inv c cv st ->
  walk_frame c st (fold_left (fun st' s' => if keep s' then walk s' st' else st') ss st)
    (flat_map (fun s' => if keep s' then walk_values s' cv else []) ss).
Proof.
  induction 1 as [|s ss Hs Hss IH]; intros st c cv Hi; cbn [fold_left flat_map].
  - apply walk_frame_refl.
  - assert (Hc : c < length (ts_heap st)) by (destruct Hi as (_ & N & _);
      apply nth_error_Some; congruence).
    assert (H1 : walk_frame c st (if keep s then walk s st else st)
                   (if keep s then walk_values s cv else [])).
    { destruct (keep s); [apply Hs, Hi | apply walk_frame_refl]. }
    apply (walk_frame_trans _ _ _ _ _ _ Hc H1).
    apply IH. apply (walk_inv_frame _ _ _ _ _ Hi H1).
Qed.

Lemma walk_frame_list_all ss :
  Forall (fun s => forall st c cv, walk_inv c cv st ->
            walk_frame c st (walk s st) (walk_values s cv)) ss ->
  forall st c cv, walk_inv c cv st ->
  walk_frame c st (walk_list ss st) (flat_map (fun s' => walk_values s' cv) ss).
Proof. intros H st c cv Hi. exact (walk_frame_list (fun _ => true) ss H st c cv Hi). Qed.

(** A block walked in a pushed frame that keeps the origin. *)
Lemma walk_frame_push c cv st modify body_st vals :
  walk_inv c cv st -> ctx_source (modify (ts_current st)) = ctx_source (ts_current st) ->
  walk_frame c (ctx_push modify st) body_st vals ->
  walk_frame c st (ctx_pop body_st) vals.
Proof.
  intros _ _ (C & P & F & L & ds & D & Q & V).
  unfold ctx_pop. rewrite P. cbn [ts_parents ctx_push] in *.
  repeat split; auto. exists ds. repeat split; auto.
Qed.

Lemma walk_inv_push c cv st modify :
  walk_inv c cv st -> ctx_source (modify (ts_current st)) = ctx_source (ts_current st) ->
  walk_inv c cv (ctx_push modify st).
Proof. intros (S & N & G) E. repeat split; auto. cbn. congruence. Qed.

Ltac push_frame Hi :=
  match goal with
  | |- walk_frame ?c ?st (ctx_pop (fold_left _ _ (ctx_push ?m _))) _ =>
      apply (walk_frame_push c _ st m _ _ Hi eq_refl)
  end.

Lemma walk_frame_stmt s : forall st c cv, walk_inv c cv st ->
  walk_frame c st (walk s st) (walk_values s cv).
Proof.
  induction s as [d|names b IH|names b IH|args b IH|args| |cs IH|cs IH|k cs IH]
    using stmt_ind'; intros st c cv Hi.
  - apply walk_frame_gem, Hi.
  - destruct names as [|n names]; [apply walk_frame_refl|].
    destruct b as [body|]; [|apply walk_frame_refl]. cbn [walk walk_values].
    push_frame Hi.
    apply (walk_frame_list_all body IH). apply walk_inv_push; [exact Hi | reflexivity].
  - destruct names as [|n names]; [apply walk_frame_refl|].
    destruct b as [body|]; [|apply walk_frame_refl]. cbn [walk walk_values].
    push_frame Hi.
    apply (walk_frame_list_all body IH). apply walk_inv_push; [exact Hi | reflexivity].
  - destruct args as [|url rest]; [apply walk_frame_refl|].
    destruct b as [body|]; cbn [walk walk_values].
    + set (src := mkSource (lit "rubygems") url [] [] []).
      set (h := ts_heap st).
      set (st1 := mkTsState (h ++ [src]) (ts_Dependencies st) (ts_Sources st ++ [src])
                    (ts_current st) (ts_parents st)).
      set (stb := ctx_push (fun c0 => mkParserContext (ctx_groups c0) (ctx_platforms c0)
                                        (Some (length h)) (ctx_conditional c0)) st1).
      assert (Hib : walk_inv (length h) src stb).
      { repeat split. cbn. unfold h. rewrite nth_error_app2, Nat.sub_diag by lia. reflexivity. }
      destruct (walk_frame_list_all body IH stb (length h) src Hib)
        as (C & P & F & L & ds & D & Q & V).
      change (walk_frame c st (ctx_pop (walk_list body stb))
                (flat_map (fun s' => walk_values s' src) body)).
      set (X := walk_list body stb) in *.
      assert (Hc : c < length h) by (destruct Hi as (_ & N & _);
        unfold h; apply nth_error_Some; congruence).
      assert (Lb : length (ts_heap stb) = S (length h))
        by (cbn; rewrite length_app; simpl; lia).
      unfold ctx_pop. rewrite P. unfold walk_frame.
      cbn [ts_parents ts_current ts_heap ts_Dependencies stb st1 ctx_push] in *.
      rewrite length_app in L, Lb. cbn [length] in L, Lb.
      repeat split; auto.
      * unfold h in F.
        assert (E : firstn (length (ts_heap st)) (ts_heap st ++ [src]) = ts_heap st)
          by (rewrite firstn_app_le, firstn_all; [reflexivity | lia]).
        rewrite <- E at 2. rewrite <- F, firstn_firstn. f_equal. rewrite length_app. simpl. lia.
      * unfold h in L. lia.
      * exists ds. repeat split; auto.
        -- eapply Forall_impl; [|exact Q]. intros d [E|(p & E & Pp)]; right.
           ++ exists (length h). split; [exact E|]. unfold h in *. lia.
           ++ exists p. split; [exact E|]. rewrite length_app in Pp; simpl in Pp. unfold h in *. lia.
    + repeat split; auto. rewrite firstn_all; reflexivity.
      exists []. rewrite app_nil_r. repeat split; auto.
  - apply walk_frame_refl.
  - apply walk_frame_refl.
  - cbn [walk walk_values]. apply (walk_frame_list_all cs IH st c cv Hi).
  - cbn [walk walk_values].
    push_frame Hi.
    apply (walk_frame_list is_branch cs IH). apply walk_inv_push; [exact Hi | reflexivity].
  - cbn [walk walk_values]. apply (walk_frame_list_all cs IH st c cv Hi).
Qed.

Lemma walk_frame_all ss : Forall (fun s => forall st c cv, walk_inv c cv st ->
  walk_frame c st (walk s st) (walk_values s cv)) ss.
Proof. apply Forall_forall. intros s _. apply walk_frame_stmt. Qed.

Lemma app_split_length {A} (l1 l2 l1' l2' : list A) :
  length l1 = length l1' -> l1 ++ l2 = l1' ++ l2' -> l1 = l1' /\ l2 = l2'.
Proof.
  revert l1'; induction l1 as [|x l1 IH]; intros [|y l1'] L E; simpl in *;
    try discriminate; auto.
  injection E as -> E. injection L as L. destruct (IH l1' L E) as [-> ->]. auto.
Qed.

Lemma walk_override_isolated url args pre o post st :
  decl_args o <> [] ->
  let st1 := walk (SSource (url :: args) (Some (pre ++ SGem o :: post))) st in
  let st2 := walk (SSource (url :: args) (Some (pre ++ post))) st in
  let A := new_deps st (walk (SSource (url :: args) (Some pre)) st) in
  exists d_o B, new_deps st st1 = A ++ d_o :: B /\
    map (source_of st1) (A ++ B) = map (source_of st2) (new_deps st st2) /\
    (overrides_source o = true ->
     exists p, gd_Source d_o = Some p /\ length (ts_heap st) < p /\
       Forall (fun d => gd_Source d <> Some p) (A ++ B)).
Proof.
  intros Ha st1 st2 A.
  set (src := mkSource (lit "rubygems") url [] [] []).
  set (c := length (ts_heap st)).
  set (stb := ctx_push (fun c0 => mkParserContext (ctx_groups c0) (ctx_platforms c0)
                                    (Some c) (ctx_conditional c0))
                (mkTsState (ts_heap st ++ [src]) (ts_Dependencies st) (ts_Sources st ++ [src])
                   (ts_current st) (ts_parents st))).
  set (stp := walk_list pre stb).
  set (sto := processGem o stp).
  set (stq := walk_list post sto).
  set (stq2 := walk_list post stp).
  assert (E1 : st1 = ctx_pop stq).
  { unfold st1, stq, sto, stp, walk_list. cbn [walk heap_alloc].
    rewrite fold_left_app. reflexivity. }
  assert (E2 : st2 = ctx_pop stq2).
  { unfold st2, stq2, stp, walk_list. cbn [walk heap_alloc].
    rewrite fold_left_app. reflexivity. }
  assert (EA : walk (SSource (url :: args) (Some pre)) st = ctx_pop stp) by reflexivity.
  assert (Lb : length (ts_heap stb) = S c).
  { cbn. rewrite length_app. simpl. unfold c. lia. }
  assert (Hib : walk_inv c src stb).
  { repeat split. cbn. unfold c. rewrite nth_error_app2, Nat.sub_diag by lia. reflexivity. }
  pose proof (walk_frame_list_all pre (walk_frame_all pre) stb c src Hib) as Fp.
  fold stp in Fp.
  pose proof (walk_inv_frame _ _ _ _ _ Hib Fp) as Hip.
  pose proof (walk_frame_gem c src o stp Hip) as Fo. fold sto in Fo.
  pose proof (walk_inv_frame _ _ _ _ _ Hip Fo) as Hio.
  pose proof (walk_frame_list_all post (walk_frame_all post) sto c src Hio) as Fq.
  fold stq in Fq.
  pose proof (walk_frame_list_all post (walk_frame_all post) stp c src Hip) as Fq2.
  fold stq2 in Fq2.
  assert (Hcb : c < length (ts_heap stb)) by lia.
  assert (Hcp : c < length (ts_heap stp)) by (destruct Fp as (_ & _ & _ & L & _); lia).
  pose proof (walk_frame_trans _ _ _ _ _ _ Hcp Fo Fq) as Foq.
  pose proof (walk_frame_trans _ _ _ _ _ _ Hcb Fp Foq) as F1.
  pose proof (walk_frame_trans _ _ _ _ _ _ Hcb Fp Fq2) as F2.
  destruct Fp as (_ & _ & _ & Lp & dsp & Dp & Qp & Vp).
  destruct Hip as (Sp & Np & Gp).
  assert (Hcp' : c < length (ts_heap stp)) by lia.
  destruct (processGem_frame c src o stp Sp Hcp' Np Gp Ha)
    as (_ & _ & _ & _ & Lo & dep_o & Do & Qo & _ & Oo).
  fold sto in Lo, Do, Qo, Oo.
  destruct Fq as (_ & _ & _ & Lq & dsq & Dq & Qq & _).
  destruct F1 as (_ & _ & _ & _ & ds1 & D1 & _ & V1).
  destruct F2 as (_ & _ & _ & _ & ds2 & D2 & _ & V2).
  assert (Db : ts_Dependencies stb = ts_Dependencies st) by reflexivity.
  assert (EdA : A = dsp).
  { unfold A. apply new_deps_app. rewrite EA, ctx_pop_deps, Dp, Db. reflexivity. }
  assert (Eds1 : ds1 = dsp ++ dep_o :: dsq).
  { apply (app_inv_head (ts_Dependencies stb)). rewrite <- D1, Dq, Do, Dp, <- !app_assoc.
    reflexivity. }
  exists dep_o, dsq. split; [|split].
  - apply new_deps_app. rewrite E1, ctx_pop_deps, D1, Db, Eds1, EdA. reflexivity.
  - assert (N2 : new_deps st st2 = ds2).
    { apply new_deps_app. rewrite E2, ctx_pop_deps, D2, Db. reflexivity. }
    rewrite N2, E1, E2, !source_of_ctx_pop, V2, EdA.
    rewrite Eds1, map_app in V1. cbn [map] in V1.
    assert (Lv : length (map (source_of stq) dsp) = length (flat_map (fun s' => walk_values s' src) pre)).
    { rewrite length_map, <- Vp, length_map. reflexivity. }
    destruct (app_split_length _ _ _ _ Lv V1) as [Va Vb].
    assert (Wo : walk_values (SGem o) src = [decl_source_value o (Some src)]).
    { cbn [walk_values]. destruct (decl_args o); [congruence | reflexivity]. }
    rewrite Wo in Vb. cbn [app] in Vb. injection Vb as _ Vb. rewrite map_app, Va, Vb. reflexivity.
  - intros Hov. destruct Qo as [Eo|(p & Ep & Pp)]; [destruct (Oo Hov Eo)|].
    exists p. repeat split; [exact Ep | unfold c in *; lia |].
    rewrite EdA. apply Forall_app. split.
    + eapply Forall_impl; [|exact Qp]. intros d [E|(q & E & Q)]; rewrite E;
        intros X; injection X; intros; subst; lia.
    + eapply Forall_impl; [|exact Qq]. intros d [E|(q & E & Q)]; rewrite E;
        intros X; injection X; intros; subst; lia.
Qed.


Lemma line_block_spec c hc exs : forall ps (h : heap), nth_error h c = Some hc ->
  fold_left (fun (acc : list (option nat) * heap) ex =>
               let (ps, h0) := acc in
               let (p, h1) := parseGemLine_source ex (Some c) h0 in (ps ++ [p], h1))
            exs (ps, h) =
  (ps ++ map Some (seq (length h) (length exs)), h ++ map (line_value hc) exs).
Proof.
  induction exs as [|ex exs IH]; intros ps h Hc; simpl.
  - rewrite !app_nil_r. reflexivity.
  - assert (E : parseGemLine_source ex (Some c) h = (Some (length h), h ++ [line_value hc ex])).
    { unfold parseGemLine_source. destruct ex; simpl; [reflexivity|]. rewrite Hc. reflexivity. }
    rewrite E, IH.
    + rewrite length_app, <- !app_assoc. simpl. rewrite Nat.add_1_r. reflexivity.
    + rewrite nth_error_app1; [exact Hc|]. apply nth_error_Some. congruence.
Qed.

Lemma deref_seq_app (h vals : heap) :
  map (deref (h ++ vals)) (map Some (seq (length h) (length vals))) = map Some vals.
Proof.
  revert h; induction vals as [|v vals IH]; intros h; simpl; [reflexivity|].
  rewrite nth_error_app2, Nat.sub_diag by lia. simpl. f_equal.
  specialize (IH (h ++ [v])). rewrite <- app_assoc, length_app in IH. simpl in IH.
  rewrite Nat.add_1_r in IH. exact IH.
Qed.

Lemma line_override_isolated c hc (h : heap) pre o post :
  nth_error h c = Some hc ->
  let (P1, h1) := line_block_sources (Some c) (pre ++ o :: post) h in
  let (P2, h2) := line_block_sources (Some c) (pre ++ post) h in
  let siblings := firstn (length pre) P1 ++ skipn (S (length pre)) P1 in
  map (deref h1) siblings = map (deref h2) P2 /\
  exists p, nth_error P1 (length pre) = Some (Some p) /\ length h <= p /\
    ~ In (Some p) siblings.
Proof.
  intros Hc. unfold line_block_sources. rewrite !(line_block_spec c hc) by exact Hc.
  cbv beta iota zeta. cbn [app].
  assert (Eseq : seq (length h) (length (pre ++ o :: post)) =
                 seq (length h) (length pre) ++ (length h + length pre)
                   :: seq (S (length h + length pre)) (length post)).
  { rewrite length_app. cbn [length]. rewrite seq_app. reflexivity. }
  assert (Lk : length (map Some (seq (length h) (length pre))) = length pre)
    by (rewrite length_map, length_seq; reflexivity).
  assert (Es : firstn (length pre) (map Some (seq (length h) (length (pre ++ o :: post)))) ++
               skipn (S (length pre)) (map Some (seq (length h) (length (pre ++ o :: post))))
               = map Some (seq (length h) (length pre)) ++
                          map Some (seq (S (length h + length pre)) (length post))).
  { rewrite Eseq, map_app. cbn [map].
    apply firstn_skipn_drop. symmetry; exact Lk. }
  split.
  - rewrite Es.
    pose proof (deref_seq_app h (map (line_value hc) (pre ++ o :: post))) as D1.
    pose proof (deref_seq_app h (map (line_value hc) (pre ++ post))) as D2.
    rewrite !length_map in D1, D2. rewrite D2.
    rewrite Eseq in D1. rewrite !map_app in D1 |- *. cbn [map] in D1.
    apply (f_equal (fun l => firstn (length pre) l ++ skipn (S (length pre)) l)) in D1.
    rewrite !firstn_skipn_drop in D1 by (rewrite ?length_map, ?length_seq; reflexivity).
    exact D1.
  - exists (length h + length pre). repeat split.
    + rewrite nth_error_map, Eseq, nth_error_app2, length_seq, Nat.sub_diag by
        (rewrite length_seq; lia). reflexivity.
    + lia.
    + rewrite Es, <- map_app, in_map_iff. intros (q & E & Hq). injection E as ->.
      apply in_app_iff in Hq as [Hq|Hq]; apply in_seq in Hq; lia.
Qed.



(** C2 (manifest selection policy).  Once the Gemfile has been read, [Parse]
    returns the tree-sitter result exactly when that parser succeeded with
    at least one dependency or a non-empty ruby version and no gemspec
    directive; in every other case it returns what the line parser
    returns. *)
Theorem gemfile_selection_policy readFile parseWithTreeSitter parseContent content :
  readFile = Ok content ->
  (forall g, parseWithTreeSitter content = Ok g ->
     (0 < length (pg_Dependencies g) \/ pg_RubyVersion g <> []) -> pg_Gemspecs g = [] ->
     GemfileParser_Parse readFile parseWithTreeSitter parseContent = Ok g) /\
  ((~ exists g, parseWithTreeSitter content = Ok g /\
       (0 < length (pg_Dependencies g) \/ pg_RubyVersion g <> []) /\ pg_Gemspecs g = []) ->
   GemfileParser_Parse readFile parseWithTreeSitter parseContent = parseContent content).
Proof.
  intros Hr. unfold GemfileParser_Parse. rewrite Hr. split.
  - intros g Hg Hd Hs. rewrite Hg. unfold useTreeSitter. rewrite Hs. simpl.
    destruct Hd as [Hd|Hd].
    + destruct (length (pg_Dependencies g)); [lia|reflexivity].
    + destruct (pg_RubyVersion g); [congruence|].
      rewrite orb_true_r. reflexivity.
  - intros Hn. destruct (useTreeSitter (parseWithTreeSitter content)) eqn:U; [|reflexivity].
    exfalso. apply Hn. unfold useTreeSitter in U.
    destruct (parseWithTreeSitter content) as [g|e]; [|discriminate].
    apply andb_true_iff in U as [U1 U2]. exists g. repeat split.
    + apply orb_true_iff in U1 as [U1|U1].
      * left. destruct (length (pg_Dependencies g)); [discriminate|lia].
      * right. destruct (pg_RubyVersion g); [discriminate|congruence].
    + destruct (pg_Gemspecs g); [reflexivity|discriminate].
Qed.

Lemma gemfile_selection_policy_witness :
  let ts := fun c : str => Ok (mkParsedGemfile [] [] c [] []) in
  let pc := fun _ : str => Err (A := ParsedGemfile) (lit "line 1") in
  Ok (lit "3.2.0") = Ok (lit "3.2.0") /\
  ((forall g, ts (lit "3.2.0") = Ok g ->
     (0 < length (pg_Dependencies g) \/ pg_RubyVersion g <> []) -> pg_Gemspecs g = [] ->
     GemfileParser_Parse (Ok (lit "3.2.0")) ts pc = Ok g) /\
  ((~ exists g, ts (lit "3.2.0") = Ok g /\
       (0 < length (pg_Dependencies g) \/ pg_RubyVersion g <> []) /\ pg_Gemspecs g = []) ->
   GemfileParser_Parse (Ok (lit "3.2.0")) ts pc = pc (lit "3.2.0"))).
Proof.
  intros ts pc. split; [reflexivity|].
  exact (gemfile_selection_policy (Ok (lit "3.2.0")) ts pc (lit "3.2.0") eq_refl).
Defined.

(** C7 (gemspec escalation).  Once the file has been read, [Parse] returns
    the tier-1 result exactly when tier 1 succeeded with a non-empty name,
    and otherwise whatever [parseWithRuby] returns; any failure of the
    interpreter run or of the JSON decoding leads to [fallbackParse], which
    returns the regex extraction without error whenever the file can be
    read.  The only error of [parseWithRuby] besides a failed read is a
    successful run whose metadata has an [error] key. *)
Theorem gemspec_escalation read1 read2 tsParse runRuby unmarshal fallbackExtract content :
  read1 = Ok content ->
  (forall g, tsParse content = Ok g -> gf_Name g <> [] ->
     GemspecParser_Parse read1 read2 tsParse runRuby unmarshal fallbackExtract = Ok g) /\
  ((~ exists g, tsParse content = Ok g /\ gf_Name g <> []) ->
     GemspecParser_Parse read1 read2 tsParse runRuby unmarshal fallbackExtract =
     parseWithRuby read2 runRuby unmarshal fallbackExtract) /\
  ((exists e, runRuby = Err e) \/ (exists out e, runRuby = Ok out /\ unmarshal out = Err e) ->
     parseWithRuby read2 runRuby unmarshal fallbackExtract = fallbackParse read2 fallbackExtract) /\
  (forall c2, read2 = Ok c2 -> fallbackParse read2 fallbackExtract = Ok (fallbackExtract c2)) /\
  (forall e, parseWithRuby read2 runRuby unmarshal fallbackExtract = Err e ->
     (exists e', read2 = Err e') \/
     exists out j msg, runRuby = Ok out /\ unmarshal out = Ok j /\
       map_lookup (lit "error") (gj_Metadata j) = Some msg).
Proof.
  intros Hr. unfold GemspecParser_Parse. rewrite Hr. repeat split.
  - intros g Hg Hn. rewrite Hg. destruct (gf_Name g); [congruence|reflexivity].
  - intros Hn. destruct (tsParse content) as [g|e]; [|reflexivity].
    destruct (gf_Name g) eqn:E; [reflexivity|].
    exfalso. apply Hn. exists g. split; [reflexivity|congruence].
  - intros [(e & He)|(out & e & Ho & Hu)]; unfold parseWithRuby.
    + rewrite He. reflexivity.
    + rewrite Ho, Hu. reflexivity.
  - intros c2 H2. unfold fallbackParse. rewrite H2. reflexivity.
  - intros e He. unfold parseWithRuby, fallbackParse in He.
    destruct read2 as [c2|e2] eqn:R2; [|left; exists e2; reflexivity].
    right. destruct runRuby as [out|e1]; [|discriminate].
    destruct (unmarshal out) as [j|e1] eqn:U; [|discriminate].
    destruct (map_lookup (lit "error") (gj_Metadata j)) as [msg|] eqn:M; [|discriminate].
    exists out, j, msg. auto.
Qed.

Lemma gemspec_escalation_witness :
  let empty := mkGemspecFile [] [] [] [] [] [] [] [] [] [] [] [] [] in
  let content := lit "Gem::Specification.new do |spec| spec.name = name_from_env end" in
  let ts := fun _ : str => Ok empty in
  let run := Err (A := str) (lit "exec: ruby: executable file not found") in
  let unm := fun _ : str => Err (A := gemspecJSON) (lit "bad json") in
  let fb := fun _ : str => empty in
  Ok content = Ok content /\
  ((forall g, ts content = Ok g -> gf_Name g <> [] ->
     GemspecParser_Parse (Ok content) (Ok content) ts run unm fb = Ok g) /\
  ((~ exists g, ts content = Ok g /\ gf_Name g <> []) ->
     GemspecParser_Parse (Ok content) (Ok content) ts run unm fb =
     parseWithRuby (Ok content) run unm fb) /\
  ((exists e, run = Err e) \/ (exists out e, run = Ok out /\ unm out = Err e) ->
     parseWithRuby (Ok content) run unm fb = fallbackParse (Ok content) fb) /\
  (forall c2, Ok content = Ok c2 -> fallbackParse (Ok content) fb = Ok (fb c2)) /\
  (forall e, parseWithRuby (Ok content) run unm fb = Err e ->
     (exists e', Ok (A := str) content = Err e') \/
     exists out j msg, run = Ok out /\ unm out = Ok j /\
       map_lookup (lit "error") (gj_Metadata j) = Some msg)).
Proof.
  intros empty content ts run unm fb. split; [reflexivity|].
  exact (gemspec_escalation (Ok content) (Ok content) ts run unm fb content eq_refl).
Defined.


(** C8 (manifest writer errors).  For a readable and writable Gemfile and
    any matcher of gem lines: [AddGem] fails exactly when some line of the
    file matches the gem's name, and then leaves the file as it was;
    [RemoveGem] fails exactly when no line matches, and then leaves the file
    as it was, and otherwise rewrites it with every matching line deleted
    and the other lines in order. *)
Theorem manifest_writer_errors isGemLine_of formatGemLine fs dep gemName :
  fs_readable fs = true -> fs_writable fs = true ->
  let lines := split_on (chr 10) (fs_content fs) in
  (fst (AddGem isGemLine_of formatGemLine dep fs) <> None <->
     existsb (fun line => isGemLine_of line (gd_Name dep)) lines = true) /\
  (existsb (fun line => isGemLine_of line (gd_Name dep)) lines = true ->
     snd (AddGem isGemLine_of formatGemLine dep fs) = fs) /\
  (fst (RemoveGem isGemLine_of gemName fs) <> None <->
     existsb (fun line => isGemLine_of line gemName) lines = false) /\
  (existsb (fun line => isGemLine_of line gemName) lines = false ->
     snd (RemoveGem isGemLine_of gemName fs) = fs) /\
  (existsb (fun line => isGemLine_of line gemName) lines = true ->
     snd (RemoveGem isGemLine_of gemName fs) =
     fs_set_content (join nl (filter (fun line => negb (isGemLine_of line gemName)) lines)) fs).
Proof.
  intros Hr Hw lines.
  unfold AddGem, RemoveGem, Load, save, hasGem. rewrite Hr, Hw. fold lines.
  destruct (existsb (fun line => isGemLine_of line (gd_Name dep)) lines);
  destruct (existsb (fun line => isGemLine_of line gemName) lines);
    simpl; repeat split; auto; try congruence; intros H; exfalso; apply H; reflexivity.
Qed.

Lemma manifest_writer_errors_witness :
  let fs := mkFsys (lit "source 'https://rubygems.org'
gem 'rails', '~> 7.0'
gem 'puma'") true true in
  let fmt := fun d => lit "gem '" ++ gd_Name d ++ lit "'" in
  let dep := mkGemDependency (lit "rails") [] None [lit "default"] None [] [] in
  let lines := split_on (chr 10) (fs_content fs) in
  (fs_readable fs = true /\ fs_writable fs = true) /\
  ((fst (AddGem isGemLine fmt dep fs) <> None <->
     existsb (fun line => isGemLine line (gd_Name dep)) lines = true) /\
  (existsb (fun line => isGemLine line (gd_Name dep)) lines = true ->
     snd (AddGem isGemLine fmt dep fs) = fs) /\
  (fst (RemoveGem isGemLine (lit "puma") fs) <> None <->
     existsb (fun line => isGemLine line (lit "puma")) lines = false) /\
  (existsb (fun line => isGemLine line (lit "puma")) lines = false ->
     snd (RemoveGem isGemLine (lit "puma") fs) = fs) /\
  (existsb (fun line => isGemLine line (lit "puma")) lines = true ->
     snd (RemoveGem isGemLine (lit "puma") fs) =
     fs_set_content (join nl (filter (fun line => negb (isGemLine line (lit "puma"))) lines)) fs)).
Proof.
  intros fs fmt dep lines. split; [split; reflexivity|].
  exact (manifest_writer_errors isGemLine fmt fs dep (lit "puma") eq_refl eq_refl).
Defined.

(* ================================================================== *)
(** ** C1: [Write] then [Parse]

    The written text, line by line ([write_lines_unlines]); the lines the
    scanner gives back ([scan_unlines]); the invariant of every lockfile
    that [Parse] returns ([parse_ok]); the layout of the writer on such a
    lockfile; and the parser state after each written block, read through
    [view]. *)

Lemma unlines_app a b : unlines (a ++ b) = unlines a ++ unlines b.
Proof. unfold unlines. rewrite map_app, concat_app. reflexivity. Qed.

Lemma unlines_cons l ls : unlines (l :: ls) = l ++ nl ++ unlines ls.
Proof. unfold unlines. simpl. rewrite <- app_assoc. reflexivity. Qed.

Lemma unlines_flat_map {A : Type} (f : A -> str) (g : A -> list str) (l : list A) :
  (forall x, f x = unlines (g x)) -> concat (map f l) = unlines (flat_map g l).
Proof.
  intros H. induction l as [|x l IH]; [reflexivity|].
  simpl. rewrite unlines_app, <- IH, H. reflexivity.
Qed.

Ltac strip_common := repeat match goal with |- ?a ++ _ = ?a ++ _ => f_equal end.

Section Lines.
Variable sort_by : forall A : Type, (A -> A -> comparison) -> list A -> list A.

Lemma writeDeps_lines indent ds :
  writeDeps sort_by indent ds = unlines (deps_lines sort_by indent ds).
Proof.
  unfold writeDeps, deps_lines, unlines. rewrite map_map. f_equal. apply map_ext.
  intros d. unfold writeDependency, dep_line. destruct (dep_Constraints d); rewrite <- !app_assoc; reflexivity.
Qed.

Lemma spec_entry_lines n v ds :
  indent4 ++ n ++ lit " (" ++ v ++ lit ")" ++ nl ++ writeDeps sort_by indent6 ds
  = unlines (spec_line n v :: deps_lines sort_by indent6 ds).
Proof.
  rewrite unlines_cons, writeDeps_lines. unfold spec_line. rewrite <- !app_assoc. reflexivity.
Qed.

Lemma gem_section_unlines lf : writeGemSection sort_by lf = unlines (gem_section_lines sort_by lf).
Proof.
  unfold writeGemSection, gem_section_lines. destruct (GemSpecs lf) as [|g gs]; [reflexivity|].
  apply unlines_flat_map. intros [i source]. rewrite unlines_app. f_equal.
  - destruct (0 <? i)%nat; reflexivity.
  - unfold writeGemBlock, gem_block_lines. rewrite !unlines_cons.
    unfold remote_line, specs_line. rewrite <- !app_assoc. strip_common.
    apply unlines_flat_map. intros x. apply spec_entry_lines.
Qed.

Lemma git_block_unlines s : writeGitBlock sort_by s = unlines (git_block_lines sort_by s).
Proof.
  unfold writeGitBlock, git_block_lines.
  rewrite (unlines_flat_map _ (git_lines sort_by)) by (intros; apply spec_entry_lines).
  destruct (src_branch s) as [|b bs], (src_tag s) as [|t ts]; cbn [app];
    rewrite ?unlines_cons; unfold remote_line, specs_line; rewrite <- ?app_assoc;
    cbn [app]; rewrite <- ?app_assoc; reflexivity.
Qed.

Lemma git_section_unlines lf : writeGitSection sort_by lf = unlines (git_section_lines sort_by lf).
Proof.
  unfold writeGitSection, git_section_lines. destruct (GitSpecs lf) as [|g gs]; [reflexivity|].
  apply unlines_flat_map. apply git_block_unlines.
Qed.

Lemma path_block_unlines s : writePathBlock sort_by s = unlines (path_block_lines sort_by s).
Proof.
  unfold writePathBlock, path_block_lines.
  rewrite (unlines_flat_map _ (path_lines sort_by)) by (intros; apply spec_entry_lines).
  rewrite ?unlines_cons; unfold remote_line, specs_line; rewrite <- ?app_assoc;
    cbn [app]; rewrite <- ?app_assoc; reflexivity.
Qed.

Lemma path_section_unlines lf : writePathSection sort_by lf = unlines (path_section_lines sort_by lf).
Proof.
  unfold writePathSection, path_section_lines. destruct (PathSpecs lf) as [|g gs]; [reflexivity|].
  apply unlines_flat_map. apply path_block_unlines.
Qed.

Lemma platforms_section_unlines lf :
  writePlatformsSection sort_by lf = unlines (platforms_section_lines sort_by lf).
Proof.
  unfold writePlatformsSection, platforms_section_lines. destruct (Platforms lf) as [|p ps]; [reflexivity|].
  rewrite !unlines_cons. cbn [app]. unfold unlines. rewrite map_map.
  strip_common; apply map_ext; intros x; rewrite <- app_assoc; reflexivity.
Qed.

Lemma dependencies_section_unlines lf :
  writeDependenciesSection sort_by lf = unlines (dependencies_section_lines sort_by lf).
Proof.
  unfold writeDependenciesSection, dependencies_section_lines.
  destruct (Dependencies lf) as [|d ds]; [reflexivity|].
  rewrite !unlines_cons, writeDeps_lines. reflexivity.
Qed.

Lemma bundled_section_unlines lf :
  writeBundledWithSection lf = unlines (bundled_section_lines lf).
Proof.
  unfold writeBundledWithSection, bundled_section_lines.
  destruct (BundledWith lf) as [|c v]; [reflexivity|].
  rewrite !unlines_cons. cbn [app unlines map concat]. rewrite <- !app_assoc. reflexivity.
Qed.

Lemma write_lines_unlines lf : Write sort_by lf = unlines (write_lines sort_by lf).
Proof.
  unfold Write, write_lines. rewrite !unlines_app.
  rewrite gem_section_unlines, git_section_unlines, path_section_unlines,
    platforms_section_unlines, dependencies_section_unlines, bundled_section_unlines.
  reflexivity.
Qed.
End Lines.

Lemma nonl_app a b : nonl (a ++ b) = nonl a && nonl b.
Proof. unfold nonl. apply forallb_app. Qed.

Lemma nonl_notin s : nonl s = true -> ~ In (chr 10) s.
Proof.
  unfold nonl. intros H Hin. rewrite forallb_forall in H. specialize (H _ Hin).
  rewrite Ascii.eqb_refl in H. discriminate.
Qed.

Lemma nonl_incl a b : incl a b -> nonl b = true -> nonl a = true.
Proof.
  unfold nonl. intros Hi Hb. rewrite forallb_forall in *. intros x Hx. apply Hb, Hi, Hx.
Qed.

Lemma split_on_unlines ls : Forall (fun l => nonl l = true) ls ->
  split_on (chr 10) (unlines ls) = ls ++ [[]].
Proof.
  induction ls as [|l ls IH]; intros H; [reflexivity|].
  inversion H as [|? ? Hl Hls]; subst.
  rewrite unlines_cons, split_on_app by (apply nonl_notin; exact Hl).
  unfold nl. cbn [app split_on]. rewrite ?Ascii.eqb_refl. cbn [hd tl].
  rewrite IH by exact Hls. rewrite app_nil_r. reflexivity.
Qed.


Lemma has_long_line_unlines ls : Forall (fun l => nonl l = true) ls ->
  has_long_line (unlines ls) = false ->
  Forall (fun l => (N.of_nat (length l) < maxTokenSize)%N) ls.
Proof.
  intros Hn H. unfold has_long_line in H. rewrite split_on_unlines in H by exact Hn.
  apply Forall_forall. intros l Hl.
  destruct (maxTokenSize <=? N.of_nat (length l))%N eqn:E.
  - exfalso. assert (existsb (fun seg => (maxTokenSize <=? N.of_nat (length seg))%N) (ls ++ [[]]) = true)
      as X by (apply existsb_exists; exists l; split; [apply in_or_app; left; exact Hl|exact E]).
    rewrite X in H. discriminate.
  - apply N.leb_gt. exact E.
Qed.

Lemma scan_go_line : forall l cur rest fails, nonl l = true ->
  (N.of_nat (length cur + length l) < maxTokenSize)%N ->
  scan_go cur (N.of_nat (length cur)) (l ++ chr 10 :: rest) fails
  = (dropCR (rev cur ++ l) :: fst (scan_go [] 0 rest fails), snd (scan_go [] 0 rest fails)).
Proof.
  induction l as [|c l IH]; intros cur rest fails Hn Hlen.
  - cbn [app scan_go]. rewrite Ascii.eqb_refl, Nat.add_0_r in *.
    apply N.ltb_lt in Hlen. rewrite Hlen, app_nil_r.
    destruct (scan_go [] 0 rest fails); reflexivity.
  - cbn [nonl forallb] in Hn. unfold nonl in IH.
    apply andb_prop in Hn as [Hc Hn].
    cbn [app scan_go]. apply negb_true_iff in Hc. rewrite Hc.
    rewrite <- Nat2N.inj_succ. change (S (length cur)) with (length (c :: cur)).
    rewrite IH by (exact Hn || (simpl in *; lia)).
    simpl. rewrite <- app_assoc. reflexivity.
Qed.

Lemma scan_unlines ls : Forall (fun l => nonl l = true) ls ->
  has_long_line (unlines ls) = false ->
  scan_lines (ok_reader (unlines ls)) = (map dropCR ls, None).
Proof.
  intros Hn Hl. pose proof (has_long_line_unlines ls Hn Hl) as Hs. clear Hl.
  unfold scan_lines, ok_reader. cbn [r_data r_fails].
  induction ls as [|l ls IH]; [reflexivity|].
  inversion Hn; inversion Hs; subst.
  rewrite unlines_cons. unfold nl. cbn [app].
  change 0%N with (N.of_nat (length (@nil ascii))).
  rewrite scan_go_line by (assumption || (simpl; assumption)).
  rewrite IH by assumption. reflexivity.
Qed.

(** ** dropCR and TrimSpace *)

Lemma dropCR_app p x : x <> [] -> dropCR (p ++ x) = p ++ dropCR x.
Proof.
  intros Hx. unfold dropCR. rewrite rev_app_distr.
  destruct (rev x) as [|c r] eqn:E.
  - exfalso. apply Hx. rewrite <- (rev_involutive x), E. reflexivity.
  - cbn [app]. destruct (c =? chr 13)%char; [|reflexivity].
    rewrite rev_app_distr, rev_involutive. reflexivity.
Qed.

Lemma dropCR_last l c : c <> chr 13 -> dropCR (l ++ [c]) = l ++ [c].
Proof.
  intros Hc. unfold dropCR. rewrite rev_app_distr. cbn [rev app].
  apply Ascii.eqb_neq in Hc. rewrite Hc. reflexivity.
Qed.

Lemma dropCR_incl t : incl (dropCR t) t.
Proof.
  unfold dropCR. destruct (rev t) as [|c r] eqn:E; [apply incl_refl|].
  destruct (c =? chr 13)%char; [|apply incl_refl].
  intros x Hx. rewrite <- (rev_involutive t), E. simpl. apply in_or_app. left. exact Hx.
Qed.

Lemma lead_enc_some encs s n : lead_enc encs s = Some n ->
  exists e, In e encs /\ has_prefix e s = true /\ n = length e.
Proof.
  induction encs as [|e es IH]; simpl; [discriminate|].
  destruct (has_prefix e s) eqn:E.
  - intros H; injection H as <-. exists e. auto.
  - intros H. destruct (IH H) as [e' [H1 H2]]. exists e'. auto.
Qed.

Lemma lead_enc_none encs s : lead_enc encs s = None ->
  forall e, In e encs -> has_prefix e s = false.
Proof.
  induction encs as [|e es IH]; simpl; [intros _ e []|].
  destruct (has_prefix e s) eqn:E; [discriminate|].
  intros H e' [<-|He]; [exact E|exact (IH H e' He)].
Qed.

Lemma lead_enc_none_intro encs s : (forall e, In e encs -> has_prefix e s = false) ->
  lead_enc encs s = None.
Proof.
  induction encs as [|e es IH]; simpl; intros H; [reflexivity|].
  rewrite (H e (or_introl eq_refl)). apply IH. intros e' He. apply H. right. exact He.
Qed.

Lemma strip_fuel_suffix encs : forall f s, exists k, strip_fuel f encs s = skipn k s.
Proof.
  induction f as [|f IH]; intros s; simpl; [exists 0; reflexivity|].
  destruct (lead_enc encs s) as [n|]; [|exists 0; reflexivity].
  destruct (IH (skipn n s)) as [k Hk]. exists (n + k). rewrite Hk, skipn_skipn.
  f_equal. lia.
Qed.

Lemma strip_fuel_none encs f s : lead_enc encs s = None -> strip_fuel f encs s = s.
Proof. intros H. destruct f; simpl; [reflexivity|]. rewrite H. reflexivity. Qed.

Lemma strip_fuel_done encs : Forall (fun e => e <> []) encs ->
  forall f s, length s <= f -> lead_enc encs (strip_fuel f encs s) = None.
Proof.
  intros Hne. induction f as [|f IH]; intros s Hs; simpl.
  - destruct s; [|simpl in Hs; lia].
    apply lead_enc_none_intro. intros e He.
    rewrite Forall_forall in Hne. specialize (Hne e He). destruct e; [contradiction|reflexivity].
  - destruct (lead_enc encs s) as [n|] eqn:E; [|exact E].
    apply IH. destruct (lead_enc_some _ _ _ E) as [e [He [Hp ->]]].
    apply has_prefix_inv in Hp. rewrite Forall_forall in Hne. specialize (Hne e He).
    rewrite length_skipn. destruct e; [contradiction|simpl; lia].
Qed.

Lemma strip_fuel_enough encs : Forall (fun e => e <> []) encs ->
  forall f f' s, length s <= f -> length s <= f' -> strip_fuel f encs s = strip_fuel f' encs s.
Proof.
  intros Hne. induction f as [|f IH]; intros f' s H1 H2.
  - destruct s; [|simpl in H1; lia]. destruct f'; [reflexivity|simpl].
    rewrite (lead_enc_none_intro encs []); [reflexivity|].
    intros e He. rewrite Forall_forall in Hne. specialize (Hne e He). destruct e; [contradiction|reflexivity].
  - destruct f' as [|f'].
    + destruct s; [|simpl in H2; lia]. simpl.
      rewrite (lead_enc_none_intro encs []); [reflexivity|].
      intros e He. rewrite Forall_forall in Hne. specialize (Hne e He). destruct e; [contradiction|reflexivity].
    + simpl. destruct (lead_enc encs s) as [n|] eqn:E; [|reflexivity].
      destruct (lead_enc_some _ _ _ E) as [e [He [Hp ->]]].
      rewrite Forall_forall in Hne. specialize (Hne e He).
      apply IH; rewrite length_skipn; destruct e; [contradiction| |contradiction|]; simpl; lia.
Qed.

Lemma incl_skipn {A : Type} k (l : list A) : incl (skipn k l) l.
Proof. intros x Hx. rewrite <- (firstn_skipn k l). apply in_or_app. right. exact Hx. Qed.


Lemma forallb_nonempty (encs : list str) :
  forallb (fun e => negb (match e with [] => true | _ => false end)) encs = true ->
  Forall (fun e => e <> []) encs.
Proof.
  intros H. apply Forall_forall. intros e He. rewrite forallb_forall in H.
  specialize (H e He). destruct e; [discriminate|discriminate].
Qed.

Lemma space_encodings_nonempty : Forall (fun e => e <> []) space_encodings.
Proof. apply forallb_nonempty. reflexivity. Qed.

Lemma rev_space_encodings_nonempty : Forall (fun e => e <> []) (map (@rev ascii) space_encodings).
Proof. apply forallb_nonempty. reflexivity. Qed.

Lemma strip_fuel_space f y :
  strip_fuel (S f) space_encodings (" "%char :: y) = strip_fuel f space_encodings y.
Proof. reflexivity. Qed.

Lemma trim_left_space_indent3 x : trim_left_space (lit "   " ++ x) = trim_left_space x.
Proof.
  unfold trim_left_space, strip. change (lit "   " ++ x) with (" " :: " " :: " " :: x)%char.
  cbn [length]. rewrite !strip_fuel_space. reflexivity.
Qed.

Lemma incl_TrimSpace s : incl (TrimSpace s) s.
Proof.
  unfold TrimSpace, trim_right_space, trim_left_space, strip.
  destruct (strip_fuel_suffix space_encodings (length s) s) as [k Hk]. rewrite Hk.
  match goal with |- context [strip_fuel ?f ?e ?t] =>
    destruct (strip_fuel_suffix e f t) as [j Hj]; rewrite Hj end.
  intros x Hx. apply in_rev in Hx. apply incl_skipn in Hx. apply in_rev in Hx.
  apply incl_skipn in Hx. exact Hx.
Qed.

Lemma TrimSpace_stable s :
  trim_left_space (TrimSpace s) = TrimSpace s /\ trim_right_space (TrimSpace s) = TrimSpace s
  /\ lead_enc (map (@rev ascii) space_encodings) (rev (TrimSpace s)) = None.
Proof.
  set (u := trim_left_space s).
  assert (Hu : lead_enc space_encodings u = None)
    by (apply strip_fuel_done; [exact space_encodings_nonempty|lia]).
  set (R := map (@rev ascii) space_encodings).
  set (t := strip R (rev u)).
  assert (Ht : lead_enc R t = None)
    by (apply strip_fuel_done; [exact rev_space_encodings_nonempty|lia]).
  destruct (strip_fuel_suffix R (length (rev u)) (rev u)) as [k Hk].
  assert (Hv : TrimSpace s = rev t) by reflexivity.
  assert (Huv : u = rev t ++ rev (firstn k (rev u))).
  { unfold t, strip. rewrite Hk, <- rev_app_distr, firstn_skipn, rev_involutive. reflexivity. }
  rewrite Hv. split; [|split].
  - unfold trim_left_space, strip. apply strip_fuel_none. apply lead_enc_none_intro.
    intros e He. destruct (has_prefix e (rev t)) eqn:E; [|reflexivity].
    apply (has_prefix_app_l _ _ (rev (firstn k (rev u)))) in E. rewrite <- Huv in E.
    rewrite (lead_enc_none _ _ Hu e He) in E. discriminate.
  - unfold trim_right_space, strip. rewrite rev_involutive.
    rewrite strip_fuel_none by exact Ht. reflexivity.
  - rewrite rev_involutive. exact Ht.
Qed.

Lemma TrimSpace_indent3 s : TrimSpace (lit "   " ++ TrimSpace s) = TrimSpace s.
Proof.
  destruct (TrimSpace_stable s) as [H1 [H2 _]].
  unfold TrimSpace at 1. rewrite trim_left_space_indent3. fold (TrimSpace s).
  rewrite H1, H2. reflexivity.
Qed.

Lemma dropCR_TrimSpace_indent3 s : dropCR (lit "   " ++ TrimSpace s) = lit "   " ++ TrimSpace s.
Proof.
  destruct (TrimSpace_stable s) as [_ [_ H3]].
  destruct (TrimSpace s) as [|c v] eqn:E; [reflexivity|].
  rewrite dropCR_app by discriminate. f_equal.
  unfold dropCR. destruct (rev (c :: v)) as [|d r] eqn:Er; [reflexivity|].
  assert (Hin : In [chr 13] (map (@rev ascii) space_encodings))
    by (simpl; right; right; right; right; left; reflexivity).
  pose proof (lead_enc_none _ _ H3 _ Hin) as Hp.
  cbn [has_prefix] in Hp. rewrite andb_true_r, Ascii.eqb_sym in Hp. rewrite Hp. reflexivity.
Qed.

Lemma nonl_TrimSpace s : nonl s = true -> nonl (TrimSpace s) = true.
Proof. apply nonl_incl, incl_TrimSpace. Qed.

Lemma bundled_ok_TrimSpace s : nonl s = true -> bundled_ok (TrimSpace s).
Proof.
  intros H. split; [apply nonl_TrimSpace; exact H|split].
  - apply TrimSpace_indent3.
  - apply dropCR_TrimSpace_indent3.
Qed.

(** ** The regular expressions on written lines *)

Lemma span_name_spec s a b : span_name s = (a, b) ->
  s = a ++ b /\ forallb is_name_char a = true
  /\ (forall c b', b = c :: b' -> is_name_char c = false).
Proof.
  revert a b. induction s as [|c s IH]; intros a b H; simpl in H.
  - injection H as <- <-. split; [reflexivity|split; [reflexivity|discriminate]].
  - destruct (is_name_char c) eqn:Ec.
    + destruct (span_name s) as [a' b'] eqn:E. injection H as <- <-.
      destruct (IH _ _ eq_refl) as [H1 [H2 H3]]. simpl. rewrite Ec, H2, H1.
      split; [reflexivity|split; [reflexivity|exact H3]].
    + injection H as <- <-. split; [reflexivity|split; [reflexivity|]].
      intros c' b' E. injection E as <- <-. exact Ec.
Qed.

Lemma span_name_app a b : forallb is_name_char a = true ->
  (forall c b', b = c :: b' -> is_name_char c = false) ->
  span_name (a ++ b) = (a, b).
Proof.
  intros Ha Hb. induction a as [|c a IH]; cbn [app span_name].
  - destruct b as [|c b']; [reflexivity|]. cbn [span_name]. rewrite (Hb c b' eq_refl). reflexivity.
  - cbn [forallb] in Ha. apply andb_prop in Ha as [Hc Ha]. rewrite Hc, IH by exact Ha. reflexivity.
Qed.

Ltac ascii_is x c :=
  destruct (Ascii.ascii_dec x c) as [->|?Hne];
  [|destruct x as [[] [] [] [] [] [] [] []];
    solve [discriminate | exfalso; apply Hne; reflexivity]].

Lemma match_paren_tail_spec rest v : match_paren_tail rest = Some v ->
  rest = lit " (" ++ v ++ lit ")" /\ v <> [] /\ no_close_paren v = true.
Proof.
  unfold match_paren_tail. intros H.
  destruct rest as [|a [|b inner]];
    [discriminate|destruct a as [[] [] [] [] [] [] [] []]; discriminate|].
  ascii_is a " "%char. ascii_is b "("%char.
  destruct (rev inner) as [|c vrev] eqn:E; [discriminate|].
  ascii_is c ")"%char.
  destruct (rev vrev) as [|x xs] eqn:Ev; [discriminate|].
  destruct (no_close_paren (x :: xs)) eqn:Hn; [|discriminate].
  injection H as <-. split; [|split; [discriminate|exact Hn]].
  rewrite <- (rev_involutive inner), E. simpl. rewrite Ev. reflexivity.
Qed.


Lemma match_paren_tail_app v : v <> [] -> no_close_paren v = true ->
  match_paren_tail (lit " (" ++ v ++ lit ")") = Some v.
Proof.
  intros Hv Hn. unfold match_paren_tail.
  change (lit " (" ++ v ++ lit ")") with (" " :: "(" :: (v ++ [")"]))%char.
  cbv iota beta. rewrite rev_unit. cbv iota beta. rewrite rev_involutive.
  destruct v as [|x xs]; [contradiction|]. rewrite Hn. reflexivity.
Qed.

Lemma is_name_char_space : is_name_char " "%char = false.
Proof. reflexivity. Qed.

Lemma match_gemspec_spec L n v : match_gemspec L = Some (n, v) ->
  L = spec_line n v /\ n <> [] /\ forallb is_name_char n = true
  /\ v <> [] /\ no_close_paren v = true.
Proof.
  unfold match_gemspec. intros H.
  destruct (has_prefix (lit "    ") L) eqn:Hp; [|discriminate].
  apply has_prefix_inv in Hp.
  destruct (span_name (skipn 4 L)) as [name rest] eqn:Es.
  destruct name as [|c name]; [discriminate|].
  destruct (match_paren_tail rest) as [w|] eqn:Em; [|discriminate].
  injection H as <- <-.
  destruct (span_name_spec _ _ _ Es) as [H1 [H2 _]].
  destruct (match_paren_tail_spec _ _ Em) as [H3 [H4 H5]].
  split; [|split; [discriminate|auto]].
  change (length (lit "    ")) with 4 in Hp.
  rewrite Hp. unfold spec_line, indent4. rewrite H1, H3. reflexivity.
Qed.

Lemma match_gemspec_spec_line n v : spec_ok n v -> match_gemspec (spec_line n v) = Some (n, v).
Proof.
  intros [Hn [Hc [Hv [Hp _]]]]. unfold match_gemspec, spec_line, indent4.
  rewrite has_prefix_app. change (skipn 4 (lit "    " ++ ?x)) with x.
  rewrite span_name_app; [|exact Hc|intros c b' E; injection E as <- _; reflexivity].
  destruct n as [|c n]; [contradiction|]. rewrite match_paren_tail_app by assumption.
  reflexivity.
Qed.

Lemma match_dep_spec L n c : match_dep L = Some (n, c) ->
  n <> [] /\ forallb is_name_char n = true /\ no_close_paren c = true
  /\ L = indent6 ++ n ++ match c with [] => [] | _ => lit " (" ++ c ++ lit ")" end.
Proof.
  unfold match_dep. intros H.
  destruct (has_prefix (lit "      ") L) eqn:Hp; [|discriminate].
  apply has_prefix_inv in Hp.
  destruct (span_name (skipn 6 L)) as [name rest] eqn:Es.
  destruct name as [|x name]; [discriminate|].
  destruct (span_name_spec _ _ _ Es) as [H1 [H2 _]].
  destruct rest as [|r rest].
  - injection H as <- <-. split; [discriminate|split; [exact H2|split; [reflexivity|]]].
    change (length (lit "      ")) with 6 in Hp.
    rewrite Hp. unfold indent6. rewrite H1, app_nil_r. reflexivity.
  - destruct (match_paren_tail (r :: rest)) as [w|] eqn:Em; [|discriminate].
    injection H as <- <-.
    destruct (match_paren_tail_spec _ _ Em) as [H3 [H4 H5]].
    split; [discriminate|split; [exact H2|split; [exact H5|]]].
    change (length (lit "      ")) with 6 in Hp.
    rewrite Hp. unfold indent6. rewrite H1, H3.
    destruct w; [contradiction|reflexivity].
Qed.

Lemma match_top_dep_spec L n c : match_top_dep L = Some (n, c) ->
  L = n ++ lit " (" ++ c ++ lit ")".
Proof.
  unfold match_top_dep. intros H.
  destruct (span_name L) as [name rest] eqn:Es.
  destruct name as [|x name]; [discriminate|].
  destruct (match_paren_tail rest) as [w|] eqn:Em; [|discriminate].
  injection H as <- <-.
  destruct (span_name_spec _ _ _ Es) as [H1 _].
  destruct (match_paren_tail_spec _ _ Em) as [H3 _].
  rewrite H1, H3. reflexivity.
Qed.

Lemma incl_first_field s : incl (first_field s) s.
Proof.
  induction s as [|c s IH]; cbn [first_field]; [apply incl_refl|].
  destruct (lead_enc space_encodings (c :: s)); [intros x []|].
  apply incl_cons; [left; reflexivity|]. intros x Hx. right. apply IH, Hx.
Qed.

Lemma incl_fields_first s f : fields_first s = Some f -> incl f s.
Proof.
  unfold fields_first. destruct (trim_left_space s) as [|c t] eqn:E; [discriminate|].
  intros H. injection H as Hf. subst f.
  assert (Ht : incl (c :: t) s).
  { rewrite <- E. unfold trim_left_space, strip.
    destruct (strip_fuel_suffix space_encodings (length s) s) as [k Hk]. rewrite Hk.
    apply incl_skipn. }
  intros x Hx. apply Ht, incl_first_field, Hx.
Qed.

Lemma incl_trim_prefix p s : incl (trim_prefix p s) s.
Proof. unfold trim_prefix. destruct (has_prefix p s); [apply incl_skipn|apply incl_refl]. Qed.

Lemma incl_split_on sep s p : In p (split_on sep s) -> incl p s.
Proof.
  revert p. induction s as [|x s IH]; intros p Hp; simpl in Hp.
  - destruct Hp as [<-|[]]. apply incl_refl.
  - destruct (x =? sep)%char.
    + destruct Hp as [<-|Hp]; [intros y []|]. intros y Hy. right. exact (IH p Hp y Hy).
    + destruct (split_on sep s) as [|q qs] eqn:E.
      * destruct Hp as [<-|[]]. intros y [<-|[]]. left. reflexivity.
      * destruct Hp as [<-|Hp].
        -- apply incl_cons; [left; reflexivity|]. intros y Hy. right.
           exact (IH q (or_introl eq_refl) y Hy).
        -- intros y Hy. right. exact (IH p (or_intror Hp) y Hy).
Qed.

Lemma parseConstraints_pieces c p : In p (parseConstraints c) -> p <> [] /\ incl p c.
Proof.
  unfold parseConstraints. intros H. apply filter_In in H as [H Hne].
  split; [destruct p; [discriminate|discriminate]|].
  apply in_map_iff in H as [q [<- Hq]].
  intros y Hy. apply incl_TrimSpace in Hy. exact (incl_split_on _ _ _ Hq y Hy).
Qed.

Lemma join_cons sep p ps : join sep (p :: ps) = p ++ match ps with [] => [] | _ => sep ++ join sep ps end.
Proof. destruct ps; simpl; [rewrite app_nil_r|]; reflexivity. Qed.

Lemma forallb_join (P : ascii -> bool) sep ps : forallb P sep = true ->
  Forall (fun p => forallb P p = true) ps -> forallb P (join sep ps) = true.
Proof.
  intros Hs Hps. induction Hps as [|p ps Hp Hps IH]; [reflexivity|].
  rewrite join_cons, forallb_app, Hp. destruct ps; [reflexivity|].
  rewrite forallb_app, Hs, IH. reflexivity.
Qed.

Lemma forallb_incl (P : ascii -> bool) a b : incl a b -> forallb P b = true -> forallb P a = true.
Proof.
  intros Hi Hb. rewrite forallb_forall in *. intros x Hx. apply Hb, Hi, Hx.
Qed.


Lemma join_split_on c s : join [c] (split_on c s) = s.
Proof.
  induction s as [|x s IH]; [reflexivity|]. cbn [split_on].
  destruct (x =? c)%char eqn:E.
  - apply Ascii.eqb_eq in E. subst x. rewrite join_cons.
    destruct (split_on c s) eqn:Es; [exfalso; exact (split_on_nonnil _ _ Es)|].
    rewrite <- IH. reflexivity.
  - destruct (split_on c s) as [|q qs] eqn:Es; [exfalso; exact (split_on_nonnil _ _ Es)|].
    rewrite <- IH, !join_cons. reflexivity.
Qed.

Lemma split_version_platform_inv vp v p : split_version_platform vp = (v, p) ->
  match p with [] => v | _ => v ++ lit "-" ++ p end = vp.
Proof.
  unfold split_version_platform.
  destruct ((3 <=? length (split_on "-" vp)) && platform_indicator vp) eqn:E.
  - intros H. injection H as <- <-. apply andb_prop in E as [E _].
    apply Nat.leb_le in E.
    transitivity (join ["-"%char] (split_on "-" vp)); [|apply join_split_on].
    destruct (split_on "-" vp) as [|a [|b [|c rest]]]; cbn [length] in E; try lia.
    cbn [hd tl]. rewrite (join_cons _ a). rewrite (join_cons _ b).
    destruct b; reflexivity.
  - intros H. injection H as <- <-. reflexivity.
Qed.

Lemma is_name_char_nonl c : is_name_char c = true -> negb (c =? chr 10)%char = true.
Proof.
  intros H. destruct (c =? chr 10)%char eqn:E; [|reflexivity].
  apply Ascii.eqb_eq in E. subst c. discriminate.
Qed.

Lemma name_nonl n : forallb is_name_char n = true -> nonl n = true.
Proof.
  unfold nonl. rewrite !forallb_forall. intros H x Hx. apply is_name_char_nonl, H, Hx.
Qed.

Lemma is_name_char_noCR c : is_name_char c = true -> c <> chr 13.
Proof. intros H E. subst c. discriminate. Qed.

Lemma dropCR_paren x : dropCR (x ++ lit ")") = x ++ lit ")".
Proof. apply dropCR_last. discriminate. Qed.

Lemma dropCR_name x n : n <> [] -> forallb is_name_char n = true -> dropCR (x ++ n) = x ++ n.
Proof.
  intros Hn Hc. destruct (exists_last Hn) as [n' [c ->]].
  rewrite forallb_app in Hc. apply andb_prop in Hc as [_ Hc]. cbn in Hc.
  rewrite andb_true_r in Hc. rewrite app_assoc. apply dropCR_last.
  apply is_name_char_noCR. exact Hc.
Qed.

Lemma spec_line_dropCR n v : dropCR (spec_line n v) = spec_line n v.
Proof. unfold spec_line. rewrite !app_assoc. apply dropCR_paren. Qed.

Lemma spec_line_nonl n v : spec_ok n v -> nonl (spec_line n v) = true.
Proof.
  intros [_ [Hc [_ [_ Hv]]]]. unfold spec_line.
  rewrite !nonl_app, (name_nonl n Hc), Hv. reflexivity.
Qed.

Lemma dep_line_indent6 d : dep_ok d ->
  match_gemspec (dep_line indent6 d) = None
  /\ match_dep (dep_line indent6 d) <> None
  /\ dropCR (dep_line indent6 d) = dep_line indent6 d
  /\ nonl (dep_line indent6 d) = true.
Proof.
  intros [Hn [Hc Hcs]]. unfold dep_line.
  destruct (dep_Constraints d) as [|c cs] eqn:E.
  - split; [reflexivity|split; [|split]].
    + unfold match_dep, indent6. rewrite has_prefix_app.
      change (skipn 6 (lit "      " ++ ?x)) with x.
      pose proof (span_name_app (dep_Name d) [] Hc ltac:(discriminate)) as Hs.
      rewrite app_nil_r in Hs. rewrite Hs.
      destruct (dep_Name d); [contradiction|discriminate].
    + apply dropCR_name; assumption.
    + rewrite nonl_app, (name_nonl _ Hc). reflexivity.
  - assert (Hj : join (lit ", ") (c :: cs) <> []).
    { inversion Hcs as [|? ? [Hc0 _] _]. rewrite join_cons. destruct c; [contradiction|discriminate]. }
    assert (Hp : no_close_paren (join (lit ", ") (c :: cs)) = true).
    { apply forallb_join; [reflexivity|]. eapply Forall_impl; [|exact Hcs]. intros a [_ [H _]]. exact H. }
    assert (Hl : nonl (join (lit ", ") (c :: cs)) = true).
    { apply forallb_join; [reflexivity|]. eapply Forall_impl; [|exact Hcs]. intros a [_ [_ H]]. exact H. }
    split; [reflexivity|split; [|split]].
    + unfold match_dep, indent6. rewrite has_prefix_app.
      change (skipn 6 (lit "      " ++ ?x)) with x.
      rewrite span_name_app; [|exact Hc|intros c' b' Eb; injection Eb as <- _; reflexivity].
      destruct (dep_Name d); [contradiction|].
      change (lit " (" ++ ?x) with (" " :: "(" :: x)%char.
      change (" " :: "(" :: ?x)%char with (lit " (" ++ x).
      rewrite match_paren_tail_app by assumption. discriminate.
    + rewrite !app_assoc. apply dropCR_paren.
    + rewrite !nonl_app, (name_nonl _ Hc), Hl. reflexivity.
Qed.

(** ** What [Parse] produces *)

Lemma nonl_sub a b : nonl b = true -> incl a b -> nonl a = true.
Proof. intros H I. exact (nonl_incl a b I H). Qed.

Lemma nonl_value p l : nonl l = true -> nonl (TrimSpace (trim_prefix p l)) = true.
Proof.
  intros H. apply (nonl_sub _ l H). intros x Hx. apply incl_TrimSpace in Hx.
  apply incl_trim_prefix in Hx. exact Hx.
Qed.

Lemma spec_ok_of_match L n v : match_gemspec L = Some (n, v) -> nonl L = true -> spec_ok n v.
Proof.
  intros H Hl. destruct (match_gemspec_spec _ _ _ H) as [-> [H1 [H2 [H3 H4]]]].
  repeat split; try assumption.
  apply (nonl_sub _ _ Hl). unfold spec_line. intros x Hx.
  apply in_or_app; right. apply in_or_app; right. apply in_or_app; right.
  apply in_or_app; left. exact Hx.
Qed.

Lemma gem_ok_new L name vp v p : match_gemspec L = Some (name, vp) -> nonl L = true ->
  split_version_platform vp = (v, p) -> gem_ok (mkGemSpec name v p [] []).
Proof.
  intros H Hl Hs.
  assert (Hv : gem_version_string (mkGemSpec name v p [] []) = vp)
    by (unfold gem_version_string; cbn [gs_Platform gs_Version];
        pose proof (split_version_platform_inv _ _ _ Hs) as Hi; destruct p; exact Hi).
  unfold gem_ok. cbn [gs_SourceURL gs_Name gs_Version gs_Platform gs_Dependencies].
  rewrite Hv. split; [reflexivity|split; [exact (spec_ok_of_match _ _ _ H Hl)|split; [exact Hs|constructor]]].
Qed.

Lemma dep_ok_of_match L m : match_dep L = Some m -> nonl L = true -> dep_ok (dependency_of_match m).
Proof.
  destruct m as [n c]. intros H Hl. destruct (match_dep_spec _ _ _ H) as [H1 [H2 [H3 H4]]].
  unfold dependency_of_match, dep_ok. cbn [dep_Name dep_Constraints].
  split; [exact H1|split; [exact H2|]].
  destruct c as [|x c]; [constructor|].
  apply Forall_forall. intros p Hp. apply parseConstraints_pieces in Hp as [Hp1 Hp2].
  assert (Hcl : incl (x :: c) L).
  { rewrite H4. intros y Hy. apply in_or_app; right. apply in_or_app; right.
    apply in_or_app; right. apply in_or_app; left. exact Hy. }
  split; [exact Hp1|split].
  - exact (forallb_incl _ _ _ Hp2 H3).
  - apply (nonl_sub _ _ Hl). intros y Hy. apply Hcl, Hp2, Hy.
Qed.


Lemma topdep_ok_parse n c : nonl n = true -> nonl c = true -> topdep_ok (mkDependency n (parseConstraints c)).
Proof.
  intros Hn Hc. split; [exact Hn|]. apply Forall_forall. intros p Hp.
  apply parseConstraints_pieces in Hp as [_ Hp]. exact (nonl_sub _ _ Hc Hp).
Qed.

Lemma lockfile_ok_init : lockfile_ok emptyLockfile.
Proof.
  unfold lockfile_ok. cbn. repeat split; try constructor; reflexivity.
Qed.

Ltac ok_crush :=
  unfold pstate_ok, lockfile_ok in *; cbn [lockfile currentGem currentGitGem currentPathGem
    GemSpecs GitSpecs PathSpecs Platforms Dependencies BundledWith opt
    flush_gem flush_git flush_path set_section set_gem set_git set_path set_lockfile
    lf_add_gem lf_add_git lf_add_path lf_add_platform lf_add_dependency lf_set_bundled] in *;
  repeat match goal with
         | H : _ /\ _ |- _ => destruct H
         | H : Forall _ [_] |- _ => inversion H; clear H
         | H : Forall _ (_ ++ _) |- _ => apply Forall_app in H
         end;
  repeat match goal with |- _ /\ _ => split end; try assumption;
  repeat (apply Forall_app; split); try assumption;
  repeat match goal with |- Forall _ (_ :: _) => constructor | |- Forall _ [] => constructor end;
  try assumption.

Lemma ok_flush_gem st : pstate_ok st -> pstate_ok (flush_gem st).
Proof. destruct st as [sec [g|] gi pa [gs gits ps plats deps bw]]; intros H; ok_crush. Qed.
Lemma ok_flush_git st : pstate_ok st -> pstate_ok (flush_git st).
Proof. destruct st as [sec g [gi|] pa [gs gits ps plats deps bw]]; intros H; ok_crush. Qed.
Lemma ok_flush_path st : pstate_ok st -> pstate_ok (flush_path st).
Proof. destruct st as [sec g gi [pa|] [gs gits ps plats deps bw]]; intros H; ok_crush. Qed.
Lemma ok_set_section s st : pstate_ok st -> pstate_ok (set_section s st).
Proof. destruct st as [sec g gi pa l]; intros H; exact H. Qed.

Lemma ok_on_header s st : pstate_ok st -> pstate_ok (on_header s st).
Proof.
  intros H. destruct s; unfold on_header; apply ok_set_section;
    repeat first [apply ok_flush_path | apply ok_flush_git | apply ok_flush_gem]; exact H.
Qed.

Lemma ok_set_gem st g : pstate_ok st -> gem_ok g -> pstate_ok (set_gem (Some g) st).
Proof. destruct st as [sec g0 gi pa [gs gits ps plats deps bw]]; intros H Hg; ok_crush. Qed.
Lemma ok_set_git st g : pstate_ok st -> git_ok g -> pstate_ok (set_git g st).
Proof. destruct st as [sec g0 gi pa [gs gits ps plats deps bw]]; intros H Hg; ok_crush. Qed.
Lemma ok_set_path st g : pstate_ok st -> path_ok g -> pstate_ok (set_path g st).
Proof. destruct st as [sec g0 gi pa [gs gits ps plats deps bw]]; intros H Hg; ok_crush. Qed.

Lemma ok_git_or_new st : pstate_ok st -> git_ok (git_or_new st).
Proof.
  destruct st as [sec g [gi|] pa l]; intros H; unfold git_or_new; cbn [currentGitGem].
  - destruct H as [_ [_ [H _]]]. inversion H. assumption.
  - unfold git_ok. cbn. split; [left; split; reflexivity|]. split; [constructor|]. repeat split.
Qed.
Lemma ok_path_or_new st : pstate_ok st -> path_ok (path_or_new st).
Proof.
  destruct st as [sec g gi [pa|] l]; intros H; unfold path_or_new; cbn [currentPathGem].
  - destruct H as [_ [_ [_ H]]]. inversion H. assumption.
  - unfold path_ok. cbn. split; [left; split; reflexivity|]. split; [constructor|]. repeat split.
Qed.

Lemma ok_set_lockfile st l : pstate_ok st -> lockfile_ok l -> pstate_ok (set_lockfile l st).
Proof. destruct st as [sec g gi pa l0]; intros [_ H] Hl; split; [exact Hl|exact H]. Qed.

Lemma lockfile_ok_add_platform l p : lockfile_ok l -> nonl p = true -> lockfile_ok (lf_add_platform l p).
Proof. destruct l; intros H Hp; unfold lockfile_ok in *; cbn in *; intuition; apply Forall_app; auto. Qed.
Lemma lockfile_ok_add_dependency l d : lockfile_ok l -> topdep_ok d -> lockfile_ok (lf_add_dependency l d).
Proof. destruct l; intros H Hp; unfold lockfile_ok in *; cbn in *; intuition; apply Forall_app; auto. Qed.
Lemma lockfile_ok_set_bundled l v : lockfile_ok l -> bundled_ok v -> lockfile_ok (lf_set_bundled l v).
Proof. destruct l; intros H Hp; unfold lockfile_ok in *; cbn in *; intuition. Qed.

Lemma git_ok_set g v :
  git_ok g -> nonl v = true ->
  git_ok (git_set_remote g v) /\ git_ok (git_set_revision g v)
  /\ git_ok (git_set_branch g v) /\ git_ok (git_set_tag g v).
Proof. destruct g; unfold git_ok; cbn; intuition. Qed.

Lemma git_ok_name_version g n v : git_ok g -> spec_ok n v -> git_ok (git_set_name_version g n v).
Proof. destruct g; unfold git_ok; cbn; intuition. Qed.
Lemma git_ok_add_dep g d : git_ok g -> dep_ok d -> git_ok (git_add_dep g d).
Proof.
  destruct g; unfold git_ok; cbn; intros [H1 [H2 H3]] Hd.
  split; [exact H1|split; [apply Forall_app; split; [exact H2|constructor; [exact Hd|constructor]]|exact H3]].
Qed.
Lemma path_ok_set_remote g v : path_ok g -> nonl v = true -> path_ok (path_set_remote g v).
Proof. destruct g; unfold path_ok; cbn; intuition. Qed.
Lemma path_ok_name_version g n v : path_ok g -> spec_ok n v -> path_ok (path_set_name_version g n v).
Proof. destruct g; unfold path_ok; cbn; intuition. Qed.
Lemma path_ok_add_dep g d : path_ok g -> dep_ok d -> path_ok (path_add_dep g d).
Proof.
  destruct g; unfold path_ok; cbn; intros [H1 [H2 H3]] Hd.
  split; [exact H1|split; [apply Forall_app; split; [exact H2|constructor; [exact Hd|constructor]]|exact H3]].
Qed.
Lemma gem_ok_add_dep g d : gem_ok g -> dep_ok d -> gem_ok (gem_add_dep g d).
Proof.
  destruct g; unfold gem_ok, gem_version_string; cbn; intros [H1 [H2 [H3 H4]]] Hd.
  split; [exact H1|split; [exact H2|split; [exact H3|]]].
  apply Forall_app; split; [exact H4|constructor; [exact Hd|constructor]].
Qed.

Lemma ok_current_gem st g : pstate_ok st -> currentGem st = Some g -> gem_ok g.
Proof. intros [_ [H _]] E. rewrite E in H. inversion H. assumption. Qed.
Lemma ok_current_git st g : pstate_ok st -> currentGitGem st = Some g -> git_ok g.
Proof. intros [_ [_ [H _]]] E. rewrite E in H. inversion H. assumption. Qed.
Lemma ok_current_path st g : pstate_ok st -> currentPathGem st = Some g -> path_ok g.
Proof. intros [_ [_ [_ H]]] E. rewrite E in H. inversion H. assumption. Qed.


Lemma section_line_ok l st : nonl l = true -> pstate_ok st -> pstate_ok (section_line l st).
Proof.
  intros Hl H. unfold section_line. destruct (currentSection st).
  - exact H.
  - destruct (match_gemspec l) as [[name vp]|] eqn:Em.
    + destruct (split_version_platform vp) as [v p] eqn:Es.
      apply ok_set_gem; [apply ok_flush_gem, H|exact (gem_ok_new _ _ _ _ _ Em Hl Es)].
    + destruct (match_dep l) as [m|] eqn:Ed; [|exact H].
      destruct (currentGem st) as [g|] eqn:Eg; [|exact H].
      apply ok_set_gem; [exact H|]. apply gem_ok_add_dep; [exact (ok_current_gem _ _ H Eg)|].
      exact (dep_ok_of_match _ _ Ed Hl).
  - destruct (match_gemspec l) as [[name v]|] eqn:Em.
    + apply ok_set_git; [exact H|]. apply git_ok_name_version; [apply ok_git_or_new, H|].
      exact (spec_ok_of_match _ _ _ Em Hl).
    + destruct (match_dep l) as [m|] eqn:Ed; [|exact H].
      destruct (currentGitGem st) as [g|] eqn:Eg; [|exact H].
      apply ok_set_git; [exact H|]. apply git_ok_add_dep; [exact (ok_current_git _ _ H Eg)|].
      exact (dep_ok_of_match _ _ Ed Hl).
  - destruct (match_gemspec l) as [[name v]|] eqn:Em.
    + apply ok_set_path; [exact H|]. apply path_ok_name_version; [apply ok_path_or_new, H|].
      exact (spec_ok_of_match _ _ _ Em Hl).
    + destruct (match_dep l) as [m|] eqn:Ed; [|exact H].
      destruct (currentPathGem st) as [g|] eqn:Eg; [|exact H].
      apply ok_set_path; [exact H|]. apply path_ok_add_dep; [exact (ok_current_path _ _ H Eg)|].
      exact (dep_ok_of_match _ _ Ed Hl).
  - destruct (has_prefix (lit "  ") l); [|exact H].
    apply ok_set_lockfile; [exact H|]. apply lockfile_ok_add_platform; [exact (proj1 H)|].
    exact (nonl_sub _ _ Hl (incl_TrimSpace l)).
  - destruct (has_prefix (lit "  ") l); [|exact H].
    assert (Ht : nonl (TrimSpace l) = true) by exact (nonl_sub _ _ Hl (incl_TrimSpace l)).
    destruct (match_top_dep (TrimSpace l)) as [[n c]|] eqn:Et.
    + apply ok_set_lockfile; [exact H|]. apply lockfile_ok_add_dependency; [exact (proj1 H)|].
      pose proof (match_top_dep_spec _ _ _ Et) as E.
      apply topdep_ok_parse.
      * apply (nonl_sub _ _ Ht). rewrite E. intros y Hy. apply in_or_app. left. exact Hy.
      * apply (nonl_sub _ _ Ht). rewrite E. intros y Hy. apply in_or_app. right.
        apply in_or_app. right. apply in_or_app. left. exact Hy.
    + destruct (fields_first (TrimSpace l)) as [f|] eqn:Ef; [|exact H].
      apply ok_set_lockfile; [exact H|]. apply lockfile_ok_add_dependency; [exact (proj1 H)|].
      split; [exact (nonl_sub _ _ Ht (incl_fields_first _ _ Ef))|constructor].
  - destruct (has_prefix (lit "   ") l); [|exact H].
    apply ok_set_lockfile; [exact H|]. apply lockfile_ok_set_bundled; [exact (proj1 H)|].
    apply bundled_ok_TrimSpace. exact Hl.
Qed.

Lemma step_ok l st : nonl l = true -> pstate_ok st -> pstate_ok (step l st).
Proof.
  intros Hl H. unfold step.
  destruct (header l) as [s|]; [apply ok_on_header, H|].
  destruct (has_prefix (lit "BUNDLED WITH") l); [apply ok_set_section, H|].
  destruct (has_prefix (lit "  remote:") l).
  { destruct (currentSection st).
    all: try exact H.
    - apply ok_set_git; [exact H|]. apply git_ok_set; [apply ok_git_or_new, H|apply nonl_value, Hl].
    - apply ok_set_path; [exact H|]. apply path_ok_set_remote; [apply ok_path_or_new, H|apply nonl_value, Hl]. }
  destruct (has_prefix (lit "  revision:") l && section_is_git st).
  { apply ok_set_git; [exact H|]. apply git_ok_set; [apply ok_git_or_new, H|apply nonl_value, Hl]. }
  destruct (has_prefix (lit "  branch:") l && section_is_git st).
  { apply ok_set_git; [exact H|]. apply git_ok_set; [apply ok_git_or_new, H|apply nonl_value, Hl]. }
  destruct (has_prefix (lit "  tag:") l && section_is_git st).
  { apply ok_set_git; [exact H|]. apply git_ok_set; [apply ok_git_or_new, H|apply nonl_value, Hl]. }
  destruct (has_prefix (lit "  specs:") l); [exact H|].
  apply section_line_ok; assumption.
Qed.

Lemma nonl_rev s : nonl (rev s) = nonl s.
Proof. unfold nonl. induction s as [|c s IH]; [reflexivity|]. cbn [rev forallb].
  rewrite forallb_app, IH. cbn. rewrite andb_true_r, andb_comm. reflexivity. Qed.

Lemma scan_go_nonl : forall d cur n fails, nonl cur = true ->
  Forall (fun l => nonl l = true) (fst (scan_go cur n d fails)).
Proof.
  induction d as [|c d IH]; intros cur n fails Hc; cbn [scan_go].
  - destruct (maxTokenSize <=? n)%N; [constructor|].
    destruct (n =? 0)%N; cbn [fst]; [constructor|].
    constructor; [|constructor].
    apply (nonl_incl _ _ (dropCR_incl _)). rewrite nonl_rev. exact Hc.
  - destruct (c =? chr 10)%char eqn:Ec.
    + destruct (n <? maxTokenSize)%N; [|constructor].
      pose proof (IH [] 0%N fails eq_refl) as H.
      destruct (scan_go [] 0 d fails) as [ts e]. cbn [fst] in *.
      constructor; [|exact H].
      apply (nonl_incl _ _ (dropCR_incl _)). rewrite nonl_rev. exact Hc.
    + apply IH. cbn [nonl forallb]. unfold nonl in Hc. rewrite Ec, Hc. reflexivity.
Qed.

Lemma run_lines_ok ls : forall st, Forall (fun l => nonl l = true) ls ->
  pstate_ok st -> pstate_ok (run_lines ls st).
Proof.
  induction ls as [|l ls IH]; intros st Hl H; [exact H|].
  rewrite run_lines_cons. inversion Hl; subst. apply IH; [assumption|].
  apply step_ok; assumption.
Qed.

Lemma finish_ok st : pstate_ok st -> lockfile_ok (finish st).
Proof.
  intro H. unfold finish.
  apply ok_flush_path, ok_flush_git, ok_flush_gem, H.
Qed.

Lemma pstate_ok_init : pstate_ok init_pstate.
Proof. split; [exact lockfile_ok_init|repeat split; constructor]. Qed.

Lemma parse_ok r M : Parse r = Some M -> lockfile_ok M.
Proof.
  unfold Parse, scan_lines. pose proof (scan_go_nonl (r_data r) [] 0 (r_fails r) eq_refl) as Hn.
  destruct (scan_go [] 0 (r_data r) (r_fails r)) as [ls e]. cbn [fst] in Hn.
  destruct e; [discriminate|]. intro E. injection E as <-.
  apply finish_ok, run_lines_ok; [exact Hn|exact pstate_ok_init].
Qed.

(** ** The writer on a lockfile that [Parse] returns *)

Lemma str_compare_refl a : str_compare a a = Eq.
Proof. induction a as [|c a IH]; cbn; [reflexivity|]. rewrite N.compare_refl. exact IH. Qed.

Lemma str_eqb_refl a : str_eqb a a = true.
Proof. unfold str_eqb. rewrite str_compare_refl. reflexivity. Qed.

Lemma amap_alter_absent {V : Type} k f (m : list (str * V)) :
  ~ In k (map fst m) -> amap_alter k f m = m ++ [(k, f None)].
Proof.
  induction m as [|[k' v] m IH]; intro H; [reflexivity|]. cbn [amap_alter].
  destruct (str_eqb k k') eqn:E.
  - apply str_eqb_true in E. subst. exfalso. apply H. left. reflexivity.
  - rewrite IH by (intro; apply H; right; assumption). reflexivity.
Qed.

Lemma amap_alter_keys {V : Type} k f (m : list (str * V)) x :
  In x (map fst (amap_alter k f m)) -> x = k \/ In x (map fst m).
Proof.
  induction m as [|[k' v] m IH]; cbn [amap_alter].
  - intros [H|[]]. left. symmetry. exact H.
  - destruct (str_eqb k k'); cbn [map fst In].
    + intros [H|H]; right; [left; exact H|right; exact H].
    + intros [H|H]; [right; left; exact H|]. destruct (IH H) as [E|E]; [left; exact E|right; right; exact E].
Qed.


Lemma platform_set_keys ps : forall (m : list (str * bool)) x,
  In x (map fst (fold_left (fun m p => amap_alter p (fun _ => true) m) ps m)) ->
  In x (map fst m) \/ In x ps.
Proof.
  induction ps as [|p ps IH]; intros m x H; [left; exact H|]. cbn [fold_left] in H.
  destruct (IH _ _ H) as [H1|H1]; [|right; right; exact H1].
  destruct (amap_alter_keys _ _ _ _ H1) as [E|E]; [right; left; symmetry; exact E|left; exact E].
Qed.

Lemma gemsBySource_fold gs l : Forall (fun g => gs_SourceURL g = []) gs ->
  fold_left (fun m g => amap_alter (gem_source g)
                          (fun o => match o with Some l => l ++ [g] | None => [g] end) m)
            gs [(defaultGemRemote, l)]
  = [(defaultGemRemote, l ++ gs)].
Proof.
  revert l. induction gs as [|g gs IH]; intros l H; [rewrite app_nil_r; reflexivity|].
  inversion H as [|? ? Hg Hgs]; subst. cbn [fold_left].
  replace (gem_source g) with defaultGemRemote by (unfold gem_source; rewrite Hg; reflexivity).
  cbn [amap_alter]. rewrite str_eqb_refl, IH by exact Hgs. rewrite <- app_assoc. reflexivity.
Qed.

Lemma gemsBySource_default gs : gs <> [] -> Forall (fun g => gs_SourceURL g = []) gs ->
  gemsBySource gs = [(defaultGemRemote, gs)].
Proof.
  destruct gs as [|g gs]; [congruence|]. intros _ H. inversion H as [|? ? Hg Hgs]; subst.
  unfold gemsBySource. cbn [fold_left].
  replace (gem_source g) with defaultGemRemote by (unfold gem_source; rewrite Hg; reflexivity).
  cbn [amap_alter]. exact (gemsBySource_fold gs [g] Hgs).
Qed.

Lemma gitSourceMap_distinct gs : NoDup (map git_key gs) ->
  gitSourceMap gs = map (fun g => (git_key g, single_git_source g)) gs.
Proof.
  unfold gitSourceMap.
  match goal with |- _ -> fold_left ?F _ _ = _ =>
    enough (G : forall xs m, NoDup (map git_key xs) ->
              (forall g, In g xs -> ~ In (git_key g) (map fst m)) ->
              fold_left F xs m = m ++ map (fun g => (git_key g, single_git_source g)) xs)
      by (intro Hn; apply G; [exact Hn|intros g _ []]) end.
  clear gs. induction xs as [|g gs IH]; intros m Hn Hm; [rewrite app_nil_r; reflexivity|].
  cbn [fold_left]. inversion Hn as [|? ? Hg Hgs]; subst.
  rewrite amap_alter_absent by (apply Hm; left; reflexivity).
  rewrite IH; [rewrite <- app_assoc; reflexivity|exact Hgs|].
  intros g' Hin Hk. rewrite map_app, in_app_iff in Hk. destruct Hk as [Hk|[Hk|[]]].
  - exact (Hm g' (or_intror Hin) Hk).
  - apply Hg. cbn [fst] in Hk. rewrite Hk. apply in_map. exact Hin.
Qed.

Lemma pathSourceMap_distinct gs : NoDup (map path_Remote gs) ->
  pathSourceMap gs = map (fun g => (path_Remote g, single_path_source g)) gs.
Proof.
  unfold pathSourceMap.
  match goal with |- _ -> fold_left ?F _ _ = _ =>
    enough (G : forall xs m, NoDup (map path_Remote xs) ->
              (forall g, In g xs -> ~ In (path_Remote g) (map fst m)) ->
              fold_left F xs m = m ++ map (fun g => (path_Remote g, single_path_source g)) xs)
      by (intro Hn; apply G; [exact Hn|intros g _ []]) end.
  clear gs. induction xs as [|g gs IH]; intros m Hn Hm; [rewrite app_nil_r; reflexivity|].
  cbn [fold_left]. inversion Hn as [|? ? Hg Hgs]; subst.
  rewrite amap_alter_absent by (apply Hm; left; reflexivity).
  rewrite IH; [rewrite <- app_assoc; reflexivity|exact Hgs|].
  intros g' Hin Hk. rewrite map_app, in_app_iff in Hk. destruct Hk as [Hk|[Hk|[]]].
  - exact (Hm g' (or_intror Hin) Hk).
  - apply Hg. cbn [fst] in Hk. rewrite Hk. apply in_map. exact Hin.
Qed.

Section Structure.

Variable sort_by : forall A : Type, (A -> A -> comparison) -> list A -> list A.
Hypothesis Hsort : forall A cmp l, Permutation (sort_by A cmp l) l.

Lemma sort_single A cmp (x : A) : sort_by A cmp [x] = [x].
Proof. apply Permutation_length_1_inv. apply Permutation_sym, Hsort. Qed.

Lemma gem_section_default lf : Forall (fun g => gs_SourceURL g = []) (GemSpecs lf) ->
  gem_section_lines sort_by lf
  = match GemSpecs lf with [] => [] | gs => gem_block_lines sort_by defaultGemRemote gs end.
Proof.
  unfold gem_section_lines. destruct (GemSpecs lf) as [|g gs] eqn:E; intro H; [reflexivity|].
  rewrite gemsBySource_default by (discriminate || exact H).
  cbn [map fst]. rewrite sort_single. cbn [length seq combine flat_map find fst].
  rewrite str_eqb_refl. cbn. rewrite app_nil_r. reflexivity.
Qed.

Lemma git_section_distinct lf : NoDup (map git_key (GitSpecs lf)) ->
  exists gs', Permutation (GitSpecs lf) gs'
    /\ git_section_lines sort_by lf = flat_map (git_block_lines sort_by) (map single_git_source gs').
Proof.
  intro Hn. unfold git_section_lines. destruct (GitSpecs lf) as [|g gs] eqn:E.
  - exists []. split; reflexivity.
  - rewrite gitSourceMap_distinct by exact Hn. rewrite map_map. cbn [snd].
    match goal with |- context [sort_by _ ?c ?l] =>
      destruct (Permutation_map_inv _ _ (Hsort _ c l)) as [gs' [Eq Hp]] end.
    exists gs'. split; [exact Hp|]. rewrite Eq. reflexivity.
Qed.

Lemma path_section_distinct lf : NoDup (map path_Remote (PathSpecs lf)) ->
  exists gs', Permutation (PathSpecs lf) gs'
    /\ path_section_lines sort_by lf = flat_map (path_block_lines sort_by) (map single_path_source gs').
Proof.
  intro Hn. unfold path_section_lines. destruct (PathSpecs lf) as [|g gs] eqn:E.
  - exists []. split; reflexivity.
  - rewrite pathSourceMap_distinct by exact Hn. rewrite map_map. cbn [snd].
    match goal with |- context [sort_by _ ?c ?l] =>
      destruct (Permutation_map_inv _ _ (Hsort _ c l)) as [gs' [Eq Hp]] end.
    exists gs'. split; [exact Hp|]. rewrite Eq. reflexivity.
Qed.

End Structure.


Section WriteNonl.

Variable sort_by : forall A : Type, (A -> A -> comparison) -> list A -> list A.
Hypothesis Hsort : forall A cmp l, Permutation (sort_by A cmp l) l.

Lemma Forall_sort A cmp (P : A -> Prop) l : Forall P l -> Forall P (sort_by A cmp l).
Proof.
  rewrite !Forall_forall. intros H x Hx. apply H.
  exact (Permutation_in _ (Hsort A cmp l) Hx).
Qed.

Lemma deps_lines6_ok ds : Forall dep_ok ds ->
  Forall (fun l => match_gemspec l = None /\ match_dep l <> None /\ dropCR l = l /\ nonl l = true)
         (deps_lines sort_by indent6 ds).
Proof.
  intro H. unfold deps_lines. apply Forall_map.
  apply (Forall_impl _ dep_line_indent6). apply Forall_sort. exact H.
Qed.

Lemma deps_lines6_nonl ds : Forall dep_ok ds ->
  Forall (fun l => nonl l = true) (deps_lines sort_by indent6 ds).
Proof.
  intro H. eapply Forall_impl; [|exact (deps_lines6_ok ds H)]. intros l [_ [_ [_ Hl]]]. exact Hl.
Qed.

Lemma deps_lines2_nonl ds : Forall topdep_ok ds ->
  Forall (fun l => nonl l = true) (deps_lines sort_by indent2 ds).
Proof.
  intro H. unfold deps_lines. apply Forall_map. apply Forall_sort.
  eapply Forall_impl; [|exact H]. intros d [Hn Hc]. unfold dep_line.
  destruct (dep_Constraints d) as [|c cs].
  - rewrite nonl_app, Hn. reflexivity.
  - rewrite !nonl_app, Hn. cbn [andb].
    assert (Hj : nonl (join (lit ", ") (c :: cs)) = true) by (apply forallb_join; [reflexivity|exact Hc]).
    rewrite Hj. reflexivity.
Qed.

Lemma spec_line_nonl_or n v : (n = [] /\ v = []) \/ spec_ok n v -> nonl (spec_line n v) = true.
Proof. intros [[-> ->]|H]; [reflexivity|exact (spec_line_nonl n v H)]. Qed.

Lemma gem_block_nonl src gs : nonl src = true -> Forall gem_ok gs ->
  Forall (fun l => nonl l = true) (gem_block_lines sort_by src gs).
Proof.
  intros Hs H. unfold gem_block_lines.
  constructor; [reflexivity|]. constructor; [unfold remote_line; rewrite !nonl_app, Hs; reflexivity|].
  constructor; [reflexivity|]. apply Forall_flat_map. apply Forall_sort.
  eapply Forall_impl; [|exact H]. intros g [_ [Hsp [_ Hd]]]. unfold gem_lines.
  constructor; [exact (spec_line_nonl _ _ Hsp)|exact (deps_lines6_nonl _ Hd)].
Qed.

Lemma git_block_nonl g : git_ok g ->
  Forall (fun l => nonl l = true) (git_block_lines sort_by (single_git_source g)).
Proof.
  intros [Hnv [Hd [Hr [Hv [Hb Ht]]]]]. unfold git_block_lines, single_git_source.
  cbn [src_remote src_revision src_branch src_tag src_specs]. rewrite sort_single by exact Hsort.
  constructor; [reflexivity|]. constructor; [reflexivity|].
  constructor; [unfold remote_line; rewrite !nonl_app, Hr; reflexivity|].
  constructor; [rewrite !nonl_app, Hv; reflexivity|].
  apply Forall_app; split.
  { destruct (git_Branch g); [constructor|constructor; [rewrite !nonl_app, Hb; reflexivity|constructor]]. }
  apply Forall_app; split.
  { destruct (git_Tag g); [constructor|constructor; [rewrite !nonl_app, Ht; reflexivity|constructor]]. }
  constructor; [reflexivity|]. cbn [flat_map]. rewrite app_nil_r. unfold git_lines.
  constructor; [exact (spec_line_nonl_or _ _ Hnv)|exact (deps_lines6_nonl _ Hd)].
Qed.

Lemma path_block_nonl g : path_ok g ->
  Forall (fun l => nonl l = true) (path_block_lines sort_by (single_path_source g)).
Proof.
  intros [Hnv [Hd Hr]]. unfold path_block_lines, single_path_source.
  cbn [psrc_remote psrc_specs]. rewrite sort_single by exact Hsort.
  constructor; [reflexivity|]. constructor; [reflexivity|].
  constructor; [unfold remote_line; rewrite !nonl_app, Hr; reflexivity|].
  constructor; [reflexivity|]. cbn [flat_map]. rewrite app_nil_r. unfold path_lines.
  constructor; [exact (spec_line_nonl_or _ _ Hnv)|exact (deps_lines6_nonl _ Hd)].
Qed.

Lemma write_lines_nonl M : lockfile_ok M ->
  NoDup (map git_key (GitSpecs M)) -> NoDup (map path_Remote (PathSpecs M)) ->
  Forall (fun l => nonl l = true) (write_lines sort_by M).
Proof.
  intros [Hg [Hgi [Hpa [Hpl [Hde Hb]]]]] Hk Hr. unfold write_lines.
  repeat (apply Forall_app; split); try (constructor; [reflexivity|constructor]).
  - rewrite gem_section_default by (exact Hsort || (eapply Forall_impl; [|exact Hg]; intros g [H _]; exact H)).
    destruct (GemSpecs M) as [|g gs]; [constructor|]. apply gem_block_nonl; [reflexivity|exact Hg].
  - destruct (git_section_distinct sort_by Hsort M Hk) as [gs' [Hp ->]].
    apply Forall_flat_map. apply Forall_map.
    assert (H' : Forall git_ok gs') by (rewrite Forall_forall in *; intros x Hx;
                                         apply Hgi; exact (Permutation_in _ (Permutation_sym Hp) Hx)).
    eapply Forall_impl; [|exact H']. exact git_block_nonl.
  - destruct (path_section_distinct sort_by Hsort M Hr) as [gs' [Hp ->]].
    apply Forall_flat_map. apply Forall_map.
    assert (H' : Forall path_ok gs') by (rewrite Forall_forall in *; intros x Hx;
                                          apply Hpa; exact (Permutation_in _ (Permutation_sym Hp) Hx)).
    eapply Forall_impl; [|exact H']. exact path_block_nonl.
  - unfold platforms_section_lines. destruct (Platforms M) as [|p ps] eqn:E; [constructor|].
    constructor; [reflexivity|]. constructor; [reflexivity|]. apply Forall_map. apply Forall_sort.
    apply Forall_forall. intros x Hx. rewrite !nonl_app. cbn [andb nonl forallb].
    rewrite Forall_forall in Hpl. apply Hpl.
    destruct (platform_set_keys _ _ _ Hx) as [[]|H]; exact H.
  - unfold dependencies_section_lines. destruct (Dependencies M) as [|d ds]; [constructor|].
    constructor; [reflexivity|]. constructor; [reflexivity|]. apply deps_lines2_nonl. exact Hde.
  - unfold bundled_section_lines. destruct (BundledWith M) as [|c v]; [constructor|].
    destruct Hb as [Hb _]. constructor; [reflexivity|]. constructor; [reflexivity|].
    constructor; [rewrite nonl_app, Hb; reflexivity|constructor].
Qed.

End WriteNonl.

(** ** Reading the written lines back *)

Lemma step_nil st : step [] st = st.
Proof. destruct st as [[] g gi pa l]; reflexivity. Qed.

Lemma dropCR_keep_prefix p x : dropCR p = p -> exists x', dropCR (p ++ x) = p ++ x'.
Proof.
  intro H. destruct x as [|c x].
  - exists []. rewrite app_nil_r. exact H.
  - exists (dropCR (c :: x)). apply dropCR_app. discriminate.
Qed.

Lemma map_dropCR_id ls : Forall (fun l => dropCR l = l) ls -> map dropCR ls = ls.
Proof. induction 1 as [|l ls H _ IH]; [reflexivity|]. cbn [map]. rewrite H, IH. reflexivity. Qed.

Lemma deps_of_length ds : Forall (fun d => match_dep d <> None) ds -> length (deps_of ds) = length ds.
Proof.
  induction 1 as [|d ds H _ IH]; [reflexivity|]. rewrite deps_of_cons.
  destruct (match_dep d); [|contradiction]. cbn [app length]. rewrite IH. reflexivity.
Qed.

Lemma view_all_flushed s st : view (mkPstate s None None None (with_all_flushed st)) = view st.
Proof. unfold view, with_all_flushed. cbn. rewrite !app_nil_r. reflexivity. Qed.


(** Dependency lines extend the open registry entry. *)
Lemma gem_dep_lines ds : forall st g,
  currentSection st = SecGEM -> currentGem st = Some g ->
  Forall (fun d => match_gemspec d = None /\ match_dep d <> None) ds ->
  run_lines ds st
  = mkPstate SecGEM (Some (mkGemSpec (gs_Name g) (gs_Version g) (gs_Platform g)
                            (gs_Dependencies g ++ deps_of ds) (gs_SourceURL g)))
      (currentGitGem st) (currentPathGem st) (lockfile st).
Proof.
  induction ds as [|d ds IH]; intros st g Hs Hg Hf.
  - destruct st, g; simpl in *; subst. rewrite app_nil_r. reflexivity.
  - inversion Hf as [|? ? [Hd1 Hd2] Hf']; subst.
    destruct (match_dep d) as [m|] eqn:Em; [|contradiction].
    rewrite run_lines_cons, step_indented by (exact (match_dep_indented _ _ Em)).
    unfold section_line. rewrite Hs, Hd1, Em, Hg.
    rewrite IH with (g := gem_add_dep g (dependency_of_match m)) by (auto; exact Hs).
    rewrite deps_of_cons, Em. destruct g; simpl. rewrite <- app_assoc. reflexivity.
Qed.

Lemma lview_eta V : mkLview (v_gems V) (v_gits V) (v_paths V) (v_bundled V) = V.
Proof. destruct V; reflexivity. Qed.

Section Reparse.

Variable sort_by : forall A : Type, (A -> A -> comparison) -> list A -> list A.
Hypothesis Hsort : forall A cmp l, Permutation (sort_by A cmp l) l.

Lemma deps6_read ds : Forall dep_ok ds ->
  map dropCR (deps_lines sort_by indent6 ds) = deps_lines sort_by indent6 ds
  /\ Forall (fun d => match_gemspec d = None /\ match_dep d <> None) (deps_lines sort_by indent6 ds)
  /\ length (deps_of (deps_lines sort_by indent6 ds)) = length ds.
Proof.
  intro H. pose proof (deps_lines6_ok sort_by Hsort ds H) as Hl.
  split; [|split].
  - apply map_dropCR_id. eapply Forall_impl; [|exact Hl]. intros l [_ [_ [E _]]]. exact E.
  - eapply Forall_impl; [|exact Hl]. intros l [E1 [E2 _]]. split; assumption.
  - rewrite deps_of_length.
    + unfold deps_lines. rewrite length_map. apply Permutation_length, Hsort.
    + eapply Forall_impl; [|exact Hl]. intros l [_ [E _]]. exact E.
Qed.

(** One registry entry and its dependency lines. *)
Lemma gem_entry_run st g : currentSection st = SecGEM -> gem_ok g ->
  exists gf, run_lines (map dropCR (gem_lines sort_by g)) st
             = mkPstate SecGEM (Some gf) (currentGitGem st) (currentPathGem st) (lockfile (flush_gem st))
    /\ gem_sig gf = gem_sig g.
Proof.
  intros Hs [_ [Hsp [Hvp Hd]]]. destruct (deps6_read _ Hd) as [E1 [E2 E3]].
  unfold gem_lines. cbn [map]. rewrite spec_line_dropCR, E1, run_lines_cons.
  rewrite step_indented by (unfold spec_line, indent4; apply has_prefix_app_l; reflexivity).
  unfold section_line. rewrite Hs, match_gemspec_spec_line by exact Hsp. rewrite Hvp.
  rewrite (gem_dep_lines _ _ (mkGemSpec (gs_Name g) (gs_Version g) (gs_Platform g) [] [])) by
    (first [exact E2 | reflexivity | cbn; unfold flush_gem; destruct (currentGem st); exact Hs]).
  eexists. split; [destruct st as [s gm gi pa l]; cbn in Hs; subst s; unfold flush_gem;
                   destruct gm; reflexivity|].
  unfold gem_sig. cbn [gs_Name gs_Version gs_Platform gs_Dependencies app]. rewrite E3. reflexivity.
Qed.

Lemma view_gem_entry st gf :
  view (mkPstate SecGEM (Some gf) (currentGitGem st) (currentPathGem st) (lockfile (flush_gem st)))
  = mkLview (v_gems (view st) ++ [gem_sig gf]) (v_gits (view st)) (v_paths (view st)) (v_bundled (view st)).
Proof.
  destruct st as [s [g|] gi pa l]; unfold view, flush_gem; cbn; rewrite ?map_app, ?app_nil_r; cbn;
    rewrite ?app_nil_r, <- ?app_assoc; reflexivity.
Qed.

Lemma gem_entries_run gs : forall st, currentSection st = SecGEM -> Forall gem_ok gs ->
  view (run_lines (map dropCR (flat_map (gem_lines sort_by) gs)) st)
  = mkLview (v_gems (view st) ++ map gem_sig gs) (v_gits (view st)) (v_paths (view st)) (v_bundled (view st))
  /\ currentSection (run_lines (map dropCR (flat_map (gem_lines sort_by) gs)) st) = SecGEM.
Proof.
  induction gs as [|g gs IH]; intros st Hs H.
  - change (run_lines (map dropCR (flat_map (gem_lines sort_by) [])) st) with st.
    rewrite app_nil_r, lview_eta. split; [reflexivity|exact Hs].
  - inversion H as [|? ? Hg Hgs]; subst. cbn [flat_map]. rewrite map_app, run_lines_app.
    destruct (gem_entry_run st g Hs Hg) as [gf [-> Hsig]].
    match goal with |- context [run_lines _ ?s] =>
      destruct (IH s eq_refl Hgs) as [-> Hs'] end. split; [|exact Hs'].
    rewrite view_gem_entry. cbn [v_gems v_gits v_paths v_bundled map].
    rewrite Hsig, <- app_assoc. reflexivity.
Qed.

End Reparse.

Lemma view_flush_gem st : view (flush_gem st) = view st.
Proof. destruct st as [s [g|] gi pa l]; unfold view; cbn; rewrite ?map_app, ?app_nil_r; reflexivity. Qed.
Lemma view_flush_git st : view (flush_git st) = view st.
Proof. destruct st as [s gm [g|] pa l]; unfold view; cbn; rewrite ?map_app, ?app_nil_r; reflexivity. Qed.
Lemma view_flush_path st : view (flush_path st) = view st.
Proof. destruct st as [s gm gi [g|] l]; unfold view; cbn; rewrite ?map_app, ?app_nil_r; reflexivity. Qed.
Lemma view_set_section s st : view (set_section s st) = view st.
Proof. reflexivity. Qed.

Lemma step_git_field l st : currentSection st = SecGIT ->
  (exists p x, In p [lit "  remote: "; lit "  revision: "; lit "  branch: "; lit "  tag: "] /\ l = p ++ x) ->
  exists g', step l st = set_git g' st
    /\ git_Name g' = git_Name (git_or_new st) /\ git_Version g' = git_Version (git_or_new st)
    /\ git_Dependencies g' = git_Dependencies (git_or_new st).
Proof.
  intros Hs [p [x [Hp ->]]]. destruct st as [s gm gi pa L]; cbn in Hs; subst s.
  destruct Hp as [<-|[<-|[<-|[<-|[]]]]].
  - exists (git_set_remote (git_or_new (mkPstate SecGIT gm gi pa L))
              (TrimSpace (trim_prefix (lit "  remote:") (lit "  remote: " ++ x)))).
    split; [reflexivity|repeat split].
  - exists (git_set_revision (git_or_new (mkPstate SecGIT gm gi pa L))
              (TrimSpace (trim_prefix (lit "  revision:") (lit "  revision: " ++ x)))).
    split; [reflexivity|repeat split].
  - exists (git_set_branch (git_or_new (mkPstate SecGIT gm gi pa L))
              (TrimSpace (trim_prefix (lit "  branch:") (lit "  branch: " ++ x)))).
    split; [reflexivity|repeat split].
  - exists (git_set_tag (git_or_new (mkPstate SecGIT gm gi pa L))
              (TrimSpace (trim_prefix (lit "  tag:") (lit "  tag: " ++ x)))).
    split; [reflexivity|repeat split].
Qed.


(** The header lines of a GIT block leave one open entry with no name,
    version or dependency. *)
Lemma git_fields_run fs : forall st, currentSection st = SecGIT ->
  (forall g, currentGitGem st = Some g ->
     git_Name g = [] /\ git_Version g = [] /\ git_Dependencies g = []) ->
  Forall (fun l => exists p x, In p [lit "  remote: "; lit "  revision: "; lit "  branch: "; lit "  tag: "]
                               /\ l = p ++ x) fs ->
  fs <> [] ->
  exists g', run_lines fs st = mkPstate SecGIT (currentGem st) (Some g') (currentPathGem st) (lockfile st)
    /\ git_Name g' = [] /\ git_Version g' = [] /\ git_Dependencies g' = [].
Proof.
  induction fs as [|l fs IH]; intros st Hs Hg Hf Hne; [congruence|].
  inversion Hf as [|? ? Hl Hfs]; subst. rewrite run_lines_cons.
  destruct (step_git_field l st Hs Hl) as [g' [-> [E1 [E2 E3]]]].
  assert (Ho : git_Name (git_or_new st) = [] /\ git_Version (git_or_new st) = []
               /\ git_Dependencies (git_or_new st) = []).
  { unfold git_or_new. destruct (currentGitGem st) as [g|]; [exact (Hg g eq_refl)|repeat split]. }
  destruct Ho as [O1 [O2 O3]].
  destruct fs as [|l' fs'].
  - exists g'. split; [destruct st as [s gm gi pa L]; cbn in Hs; subst s; reflexivity|].
    rewrite E1, E2, E3. auto.
  - destruct (IH (set_git g' st)) as [g'' [E [F1 [F2 F3]]]].
    + destruct st; exact Hs.
    + intros g Eg. injection Eg as <-. rewrite E1, E2, E3. auto.
    + exact Hfs.
    + discriminate.
    + exists g''. rewrite E. split; [reflexivity|auto].
Qed.

Lemma step_path_remote x st : currentSection st = SecPATH ->
  step (lit "  remote: " ++ x) st
  = set_path (path_set_remote (path_or_new st) (TrimSpace (trim_prefix (lit "  remote:") (lit "  remote: " ++ x)))) st.
Proof. intro Hs. destruct st as [s gm gi pa L]; cbn in Hs; subst s. reflexivity. Qed.


Section ReparseVcs.

Variable sort_by : forall A : Type, (A -> A -> comparison) -> list A -> list A.
Hypothesis Hsort : forall A cmp l, Permutation (sort_by A cmp l) l.

Lemma step_empty_entry_git st : currentSection st = SecGIT -> step (spec_line [] []) st = st.
Proof. intro Hs. destruct st as [s gm gi pa L]; cbn in Hs; subst s. reflexivity. Qed.

Lemma step_empty_entry_path st : currentSection st = SecPATH -> step (spec_line [] []) st = st.
Proof. intro Hs. destruct st as [s gm gi pa L]; cbn in Hs; subst s. reflexivity. Qed.

(** The entry line and dependency lines of a GIT block. *)
Lemma git_spec_run st g0 g : currentSection st = SecGIT -> currentGitGem st = Some g0 ->
  git_Name g0 = [] -> git_Version g0 = [] -> git_Dependencies g0 = [] -> git_ok g ->
  exists gf, run_lines (map dropCR (git_lines sort_by g)) st
             = mkPstate SecGIT (currentGem st) (Some gf) (currentPathGem st) (lockfile st)
    /\ git_sig gf = git_sig g.
Proof.
  intros Hs Hg N0 V0 D0 [Hnv [Hd _]]. destruct (deps6_read sort_by Hsort _ Hd) as [E1 [E2 E3]].
  unfold git_lines. cbn [map]. rewrite spec_line_dropCR, E1, run_lines_cons.
  destruct Hnv as [[Hn Hv]|Hsp].
  - rewrite Hn, Hv, step_empty_entry_git by exact Hs.
    rewrite (git_dep_lines _ st g0 Hs Hg E2).
    eexists. split; [reflexivity|]. unfold git_sig. cbn [git_Name git_Version git_Dependencies].
    rewrite N0, V0, D0, Hn, Hv. cbn [app]. rewrite E3. reflexivity.
  - rewrite (entry_line_step_git _ st g0 _ _ Hs Hg (match_gemspec_spec_line _ _ Hsp)).
    rewrite (git_dep_lines _ (set_git (git_set_name_version g0 (git_Name g) (git_Version g)) st)
               (git_set_name_version g0 (git_Name g) (git_Version g))
               ltac:(destruct st; exact Hs) eq_refl E2).
    eexists. split; [destruct st; reflexivity|]. unfold git_sig.
    cbn [git_Name git_Version git_Dependencies git_set_name_version].
    rewrite D0. cbn [app]. rewrite E3. reflexivity.
Qed.

Lemma git_block_run g st : git_ok g ->
  exists gf, run_lines (map dropCR (git_block_lines sort_by (single_git_source g))) st
             = mkPstate SecGIT None (Some gf) None (with_all_flushed st)
    /\ git_sig gf = git_sig g.
Proof.
  intros Hok.
  set (fs := dropCR (remote_line (git_Remote g)) :: dropCR (indent2 ++ lit "revision: " ++ git_Revision g)
             :: map dropCR (match git_Branch g with [] => [] | b => [indent2 ++ lit "branch: " ++ b] end)
             ++ map dropCR (match git_Tag g with [] => [] | t => [indent2 ++ lit "tag: " ++ t] end)).
  assert (EL : map dropCR (git_block_lines sort_by (single_git_source g))
               = [] :: lit "GIT" :: fs ++ specs_line :: map dropCR (git_lines sort_by g)).
  { unfold git_block_lines, single_git_source, fs.
    cbn [src_remote src_revision src_branch src_tag src_specs].
    rewrite sort_single by exact Hsort. cbn [flat_map]. rewrite app_nil_r.
    cbn [map app]. rewrite !map_app, <- !app_assoc. reflexivity. }
  rewrite EL, !run_lines_cons, step_nil.
  change (step (lit "GIT") st) with (on_header SecGIT st). rewrite on_header_all by discriminate.
  set (S0 := mkPstate SecGIT None None None (with_all_flushed st)).
  assert (Hfs : exists g1, run_lines fs S0 = mkPstate SecGIT None (Some g1) None (with_all_flushed st)
                  /\ git_Name g1 = [] /\ git_Version g1 = [] /\ git_Dependencies g1 = []).
  { apply (git_fields_run fs S0 eq_refl); [intros ? E; discriminate E| |discriminate].
    assert (Hp : forall p x, In p [lit "  remote: "; lit "  revision: "; lit "  branch: "; lit "  tag: "] ->
                   exists p' x', In p' [lit "  remote: "; lit "  revision: "; lit "  branch: "; lit "  tag: "]
                                 /\ dropCR (p ++ x) = p' ++ x').
    { intros p x Hp. destruct (dropCR_keep_prefix p x) as [x' E].
      - destruct Hp as [<-|[<-|[<-|[<-|[]]]]]; reflexivity.
      - exists p, x'. split; assumption. }
    unfold fs. constructor; [apply (Hp (lit "  remote: ")); left; reflexivity|].
    constructor; [apply (Hp (lit "  revision: ")); right; left; reflexivity|].
    apply Forall_app; split.
    - destruct (git_Branch g); [constructor|]. constructor; [|constructor].
      apply (Hp (lit "  branch: ")). right; right; left; reflexivity.
    - destruct (git_Tag g); [constructor|]. constructor; [|constructor].
      apply (Hp (lit "  tag: ")). right; right; right; left; reflexivity. }
  destruct Hfs as [g1 [Efs [N1 [V1 D1]]]].
  rewrite run_lines_app, Efs, run_lines_cons.
  replace (step specs_line (mkPstate SecGIT None (Some g1) None (with_all_flushed st)))
    with (mkPstate SecGIT None (Some g1) None (with_all_flushed st)) by reflexivity.
  exact (git_spec_run (mkPstate SecGIT None (Some g1) None (with_all_flushed st)) g1 g
           eq_refl eq_refl N1 V1 D1 Hok).
Qed.

Lemma path_spec_run st g0 g : currentSection st = SecPATH -> currentPathGem st = Some g0 ->
  path_Name g0 = [] -> path_Version g0 = [] -> path_Dependencies g0 = [] -> path_ok g ->
  exists gf, run_lines (map dropCR (path_lines sort_by g)) st
             = mkPstate SecPATH (currentGem st) (currentGitGem st) (Some gf) (lockfile st)
    /\ path_sig gf = path_sig g.
Proof.
  intros Hs Hg N0 V0 D0 [Hnv [Hd _]]. destruct (deps6_read sort_by Hsort _ Hd) as [E1 [E2 E3]].
  unfold path_lines. cbn [map]. rewrite spec_line_dropCR, E1, run_lines_cons.
  destruct Hnv as [[Hn Hv]|Hsp].
  - rewrite Hn, Hv, step_empty_entry_path by exact Hs.
    rewrite (path_dep_lines _ st g0 Hs Hg E2).
    eexists. split; [reflexivity|]. unfold path_sig. cbn [path_Name path_Version path_Dependencies].
    rewrite N0, V0, D0, Hn, Hv. cbn [app]. rewrite E3. reflexivity.
  - rewrite (entry_line_step_path _ st g0 _ _ Hs Hg (match_gemspec_spec_line _ _ Hsp)).
    rewrite (path_dep_lines _ (set_path (path_set_name_version g0 (path_Name g) (path_Version g)) st)
               (path_set_name_version g0 (path_Name g) (path_Version g))
               ltac:(destruct st; exact Hs) eq_refl E2).
    eexists. split; [destruct st; reflexivity|]. unfold path_sig.
    cbn [path_Name path_Version path_Dependencies path_set_name_version].
    rewrite D0. cbn [app]. rewrite E3. reflexivity.
Qed.

Lemma path_block_run g st : path_ok g ->
  exists gf, run_lines (map dropCR (path_block_lines sort_by (single_path_source g))) st
             = mkPstate SecPATH None None (Some gf) (with_all_flushed st)
    /\ path_sig gf = path_sig g.
Proof.
  intros Hok.
  assert (EL : map dropCR (path_block_lines sort_by (single_path_source g))
               = [] :: lit "PATH" :: dropCR (lit "  remote: " ++ path_Remote g)
                 :: specs_line :: map dropCR (path_lines sort_by g)).
  { unfold path_block_lines, single_path_source. cbn [psrc_remote psrc_specs].
    rewrite sort_single by exact Hsort. cbn [flat_map]. rewrite app_nil_r. reflexivity. }
  rewrite EL, !run_lines_cons, step_nil.
  change (step (lit "PATH") st) with (on_header SecPATH st). rewrite on_header_all by discriminate.
  destruct (dropCR_keep_prefix (lit "  remote: ") (path_Remote g) eq_refl) as [x' Ex].
  rewrite Ex, step_path_remote by reflexivity.
  set (g1 := path_set_remote (path_or_new (mkPstate SecPATH None None None (with_all_flushed st)))
               (TrimSpace (trim_prefix (lit "  remote:") (lit "  remote: " ++ x')))).
  replace (step specs_line (set_path g1 (mkPstate SecPATH None None None (with_all_flushed st))))
    with (mkPstate SecPATH None None (Some g1) (with_all_flushed st)) by reflexivity.
  exact (path_spec_run (mkPstate SecPATH None None (Some g1) (with_all_flushed st)) g1 g
           eq_refl eq_refl eq_refl eq_refl eq_refl Hok).
Qed.

Lemma git_blocks_run gs : Forall git_ok gs -> forall st,
  view (run_lines (map dropCR (flat_map (git_block_lines sort_by) (map single_git_source gs))) st)
  = mkLview (v_gems (view st)) (v_gits (view st) ++ map git_sig gs) (v_paths (view st)) (v_bundled (view st)).
Proof.
  induction 1 as [|g gs Hg _ IH]; intro st.
  - cbn [map flat_map run_lines fold_left]. rewrite app_nil_r, lview_eta. reflexivity.
  - cbn [map flat_map]. rewrite map_app, run_lines_app.
    destruct (git_block_run g st Hg) as [gf [-> Hsig]]. rewrite IH.
    unfold view, with_all_flushed. cbn. rewrite !map_app, !app_nil_r. cbn.
    rewrite Hsig, <- app_assoc. reflexivity.
Qed.

Lemma path_blocks_run gs : Forall path_ok gs -> forall st,
  view (run_lines (map dropCR (flat_map (path_block_lines sort_by) (map single_path_source gs))) st)
  = mkLview (v_gems (view st)) (v_gits (view st)) (v_paths (view st) ++ map path_sig gs) (v_bundled (view st)).
Proof.
  induction 1 as [|g gs Hg _ IH]; intro st.
  - cbn [map flat_map run_lines fold_left]. rewrite app_nil_r, lview_eta. reflexivity.
  - cbn [map flat_map]. rewrite map_app, run_lines_app.
    destruct (path_block_run g st Hg) as [gf [-> Hsig]]. rewrite IH.
    unfold view, with_all_flushed. cbn. rewrite !map_app, !app_nil_r. cbn.
    rewrite Hsig, <- app_assoc. reflexivity.
Qed.

End ReparseVcs.


Lemma header_indented l : has_prefix (lit " ") l = true -> header l = None.
Proof.
  intro H. unfold header.
  repeat (destruct (list_eq_dec ascii_dec l _) as [->|_]; [discriminate H|]). reflexivity.
Qed.

(** An indented line of the PLATFORMS or DEPENDENCIES section changes no entry. *)
Lemma step_space_line l st : has_prefix (lit " ") l = true ->
  currentSection st = SecPLATFORMS \/ currentSection st = SecDEPENDENCIES ->
  view (step l st) = view st /\ currentSection (step l st) = currentSection st.
Proof.
  intros H Hs. pose proof (has_prefix_inv _ _ H) as Hl.
  unfold step. rewrite (header_indented _ H).
  replace (has_prefix (lit "BUNDLED WITH") l) with false by (rewrite Hl; reflexivity).
  destruct st as [s gm gi pa L]; cbn [currentSection] in Hs |- *.
  destruct Hs as [-> | ->]; cbn [section_is_git currentSection]; rewrite ?andb_false_r;
    (destruct (has_prefix (lit "  remote:") l); [split; reflexivity|]);
    (destruct (has_prefix (lit "  specs:") l); [split; reflexivity|]);
    unfold section_line; cbn [currentSection].
  - destruct (has_prefix (lit "  ") l); split; reflexivity.
  - destruct (has_prefix (lit "  ") l); [|split; reflexivity].
    destruct (match_top_dep (TrimSpace l)) as [[n c]|]; [split; reflexivity|].
    destruct (fields_first (TrimSpace l)); split; reflexivity.
Qed.

Lemma space_lines_run ls : Forall (fun l => has_prefix (lit " ") l = true) ls -> forall st,
  currentSection st = SecPLATFORMS \/ currentSection st = SecDEPENDENCIES ->
  view (run_lines ls st) = view st.
Proof.
  induction 1 as [|l ls Hl _ IH]; intros st Hs; [reflexivity|].
  rewrite run_lines_cons. destruct (step_space_line l st Hl Hs) as [E1 E2].
  rewrite IH, E1; [reflexivity|]. rewrite E2. exact Hs.
Qed.

Lemma dropCR_space l : has_prefix (lit " ") l = true -> has_prefix (lit " ") (dropCR l) = true.
Proof.
  intro H. rewrite (has_prefix_inv _ _ H).
  destruct (dropCR_keep_prefix (lit " ") (skipn (length (lit " ")) l) eq_refl) as [x E].
  rewrite E. apply has_prefix_app.
Qed.

Lemma view_on_header s st : view (on_header s st) = view st.
Proof.
  destruct s; try (rewrite on_header_all by discriminate; apply view_all_flushed).
  unfold on_header. rewrite view_set_section, view_flush_path, view_flush_git. reflexivity.
Qed.

Lemma header_space_run h s ls st : header h = Some s ->
  (s = SecPLATFORMS \/ s = SecDEPENDENCIES) ->
  Forall (fun l => has_prefix (lit " ") l = true) ls ->
  dropCR h = h ->
  view (run_lines (map dropCR ([] :: h :: ls)) st) = view st.
Proof.
  intros Hh Hs Hf Hd. cbn [map]. rewrite Hd, !run_lines_cons.
  change (dropCR []) with (@nil ascii). rewrite step_nil.
  unfold step at 1. rewrite Hh.
  rewrite space_lines_run; [apply view_on_header| |].
  - rewrite Forall_map. eapply Forall_impl; [|exact Hf]. exact dropCR_space.
  - destruct s; cbn; destruct Hs as [E|E]; try discriminate E; auto.
Qed.

Lemma run_nil_line st : run_lines (map dropCR [[]]) st = st.
Proof. apply step_nil. Qed.

Lemma finish_view st : lockfile_view (finish st) = view st.
Proof.
  destruct st as [s gm gi pa L].
  destruct gm, gi, pa; unfold finish, lockfile_view, view; cbn; rewrite ?map_app, ?app_nil_r; reflexivity.
Qed.

Lemma bundled_run v st : bundled_ok v -> v <> [] ->
  view (run_lines (map dropCR [[]; lit "BUNDLED WITH"; lit "   " ++ v]) st)
  = mkLview (v_gems (view st)) (v_gits (view st)) (v_paths (view st)) v.
Proof.
  intros [_ [Ht Hd]] Hv. cbn [map]. rewrite Hd, !run_lines_cons.
  change (dropCR []) with (@nil ascii). rewrite step_nil.
  change (dropCR (lit "BUNDLED WITH")) with (lit "BUNDLED WITH").
  replace (step (lit "BUNDLED WITH") st) with (set_section SecBUNDLED_WITH st) by reflexivity.
  rewrite step_indented by apply has_prefix_app.
  unfold section_line. cbn [currentSection set_section]. rewrite has_prefix_app, Ht.
  reflexivity.
Qed.


Section Assemble.

Variable sort_by : forall A : Type, (A -> A -> comparison) -> list A -> list A.
Hypothesis Hsort : forall A cmp l, Permutation (sort_by A cmp l) l.

Lemma gem_block_run gs st : Forall gem_ok gs ->
  view (run_lines (map dropCR (gem_block_lines sort_by defaultGemRemote gs)) st)
  = mkLview (v_gems (view st) ++ map gem_sig (sort_by _ (fun a b => str_compare (gs_Name a) (gs_Name b)) gs))
            (v_gits (view st)) (v_paths (view st)) (v_bundled (view st)).
Proof.
  intro H. unfold gem_block_lines. cbn [map]. rewrite !run_lines_cons.
  replace (step (dropCR specs_line) (step (dropCR (remote_line defaultGemRemote)) (step (dropCR (lit "GEM")) st)))
    with (set_section SecGEM (flush_path (flush_git st))) by reflexivity.
  destruct (gem_entries_run sort_by Hsort _ (set_section SecGEM (flush_path (flush_git st))) eq_refl
              (Forall_sort sort_by Hsort _ (fun a b => str_compare (gs_Name a) (gs_Name b)) _ _ H)) as [E _].
  rewrite E, view_set_section, view_flush_path, view_flush_git. reflexivity.
Qed.

Lemma platforms_run M st : view (run_lines (map dropCR (platforms_section_lines sort_by M)) st) = view st.
Proof.
  unfold platforms_section_lines. destruct (Platforms M) as [|p ps]; [reflexivity|].
  apply (header_space_run (lit "PLATFORMS") SecPLATFORMS); [reflexivity|left; reflexivity| |reflexivity].
  apply Forall_map, Forall_forall. intros x _. apply has_prefix_app_l. reflexivity.
Qed.

Lemma dependencies_run M st : view (run_lines (map dropCR (dependencies_section_lines sort_by M)) st) = view st.
Proof.
  unfold dependencies_section_lines. destruct (Dependencies M) as [|d ds]; [reflexivity|].
  apply (header_space_run (lit "DEPENDENCIES") SecDEPENDENCIES); [reflexivity|right; reflexivity| |reflexivity].
  unfold deps_lines. apply Forall_map, Forall_forall. intros x _. unfold dep_line.
  destruct (dep_Constraints x); apply has_prefix_app_l; reflexivity.
Qed.

Lemma reparse_view M : lockfile_ok M ->
  NoDup (map git_key (GitSpecs M)) -> NoDup (map path_Remote (PathSpecs M)) ->
  exists gms gis pas, Permutation (GemSpecs M) gms /\ Permutation (GitSpecs M) gis
    /\ Permutation (PathSpecs M) pas
    /\ view (run_lines (map dropCR (write_lines sort_by M)) init_pstate)
       = mkLview (map gem_sig gms) (map git_sig gis) (map path_sig pas) (BundledWith M).
Proof.
  intros HM Hk Hr. pose proof HM as [Hg [Hgi [Hpa [_ [_ Hb]]]]].
  destruct (git_section_distinct sort_by Hsort M Hk) as [gis [Hpg Egi]].
  destruct (path_section_distinct sort_by Hsort M Hr) as [pas [Hpp Epa]].
  assert (Hgis : Forall git_ok gis)
    by (rewrite Forall_forall in *; intros x Hx; apply Hgi; exact (Permutation_in _ (Permutation_sym Hpg) Hx)).
  assert (Hpas : Forall path_ok pas)
    by (rewrite Forall_forall in *; intros x Hx; apply Hpa; exact (Permutation_in _ (Permutation_sym Hpp) Hx)).
  unfold write_lines. rewrite !map_app, !run_lines_app, !run_nil_line.
  rewrite gem_section_default, Egi, Epa
    by (exact Hsort || (eapply Forall_impl; [|exact Hg]; intros g [H _]; exact H)).
  assert (HB : forall st, view (run_lines (map dropCR (bundled_section_lines M)) st)
                          = mkLview (v_gems (view st)) (v_gits (view st)) (v_paths (view st))
                                    (match BundledWith M with [] => v_bundled (view st) | _ => BundledWith M end)).
  { intro st. unfold bundled_section_lines. destruct (BundledWith M) as [|c v] eqn:EB.
    - cbn [map run_lines fold_left]. rewrite lview_eta. reflexivity.
    - apply bundled_run; [exact Hb|discriminate]. }
  rewrite HB, dependencies_run, platforms_run, path_blocks_run, git_blocks_run by assumption.
  destruct (GemSpecs M) as [|g gs] eqn:EG.
  - exists [], gis, pas. split; [constructor|split; [exact Hpg|split; [exact Hpp|]]].
    cbn. destruct (BundledWith M); reflexivity.
  - rewrite gem_block_run by exact Hg.
    exists (sort_by _ (fun a b => str_compare (gs_Name a) (gs_Name b)) (g :: gs)), gis, pas.
    split; [apply Permutation_sym, Hsort|split; [exact Hpg|split; [exact Hpp|]]].
    cbn. destruct (BundledWith M); reflexivity.
Qed.

End Assemble.

Lemma parse_unlines ls : Forall (fun l => nonl l = true) ls -> has_long_line (unlines ls) = false ->
  Parse (ok_reader (unlines ls)) = Some (finish (run_lines (map dropCR ls) init_pstate)).
Proof. intros H1 H2. unfold Parse. rewrite (scan_unlines ls H1 H2). reflexivity. Qed.





Lemma insert_by_perm {A : Type} (cmp : A -> A -> comparison) x l :
  Permutation (insert_by cmp x l) (x :: l).
Proof.
  induction l as [|y l IH]; [reflexivity|]. cbn [insert_by].
  destruct (cmp x y); try reflexivity;
    (eapply perm_trans; [apply perm_skip, IH|apply perm_swap]).
Qed.

Lemma insertion_sort_perm A cmp l : Permutation (insertion_sort A cmp l) l.
Proof.
  induction l as [|x l IH]; [reflexivity|]. unfold insertion_sort. cbn [fold_right].
  eapply perm_trans; [apply insert_by_perm|]. apply perm_skip, IH.
Qed.




(* ================================================================== *)
(** ** Lookup, full names and group filtering; the PLATFORMS section and
    dependency lines of the writer *)


Lemma str_eqb_spec a b : str_eqb a b = true <-> a = b.
Proof. split; [apply str_eqb_true|intros ->; apply str_eqb_refl]. Qed.

Lemma find_gem_some name gs g : find_gem name gs = Some g <->
  exists pre post, gs = pre ++ g :: post /\ gs_Name g = name
                   /\ Forall (fun h => gs_Name h <> name) pre.
Proof.
  induction gs as [|h gs IH]; cbn [find_gem].
  - split; [discriminate|]. intros [pre [post [E _]]]. destruct pre; discriminate.
  - destruct (str_eqb (gs_Name h) name) eqn:E.
    + apply str_eqb_true in E. split.
      * intros H. injection H as <-. exists [], gs. split; [reflexivity|split; [exact E|constructor]].
      * intros [pre [post [Eq [Hn Hpre]]]]. destruct pre as [|x pre].
        -- injection Eq as <- _. reflexivity.
        -- injection Eq as -> _. inversion Hpre as [|? ? Hx _]. contradiction.
    + rewrite IH. split.
      * intros [pre [post [Eq [Hn Hpre]]]]. exists (h :: pre), post.
        split; [rewrite Eq; reflexivity|split; [exact Hn|]]. constructor; [|exact Hpre].
        intro Hh. rewrite Hh, str_eqb_refl in E. discriminate.
      * intros [pre [post [Eq [Hn Hpre]]]]. destruct pre as [|x pre].
        -- injection Eq as -> _. rewrite Hn, str_eqb_refl in E. discriminate.
        -- injection Eq as -> Eq. inversion Hpre as [|? ? _ Hpre']. exists pre, post.
           split; [exact Eq|split; [exact Hn|exact Hpre']].
Qed.

Lemma find_gem_none name gs : find_gem name gs = None <-> Forall (fun h => gs_Name h <> name) gs.
Proof.
  induction gs as [|h gs IH]; cbn [find_gem]; [split; [constructor|reflexivity]|].
  destruct (str_eqb (gs_Name h) name) eqn:E.
  - apply str_eqb_true in E. split; [discriminate|]. intros H. inversion H. contradiction.
  - rewrite IH. split; [intros H; constructor; [|exact H]|intros H; inversion H; assumption].
    intro Hh. rewrite Hh, str_eqb_refl in E. discriminate.
Qed.

Lemma group_excluded_spec exc g : group_excluded exc g = true <->
  exists e, In e exc /\ In e (gemGroups g).
Proof.
  unfold group_excluded. rewrite existsb_exists. split.
  - intros [e [He H]]. apply existsb_exists in H as [x [Hx Ex]]. apply str_eqb_true in Ex. subst x.
    exists e. split; assumption.
  - intros [e [He H]]. exists e. split; [exact He|]. apply existsb_exists. exists e.
    split; [exact H|apply str_eqb_refl].
Qed.

Lemma group_included_spec inc g : inc <> [] -> (group_included inc g = true <->
  exists x, In x (gemGroups g) /\ (In x inc \/ x = lit "default")).
Proof.
  intros Hi. unfold group_included. rewrite existsb_exists. split.
  - intros [i [Hin H]]. apply existsb_exists in H as [x [Hx Ex]].
    apply orb_true_iff in Ex as [Ex|Ex]; apply str_eqb_true in Ex; subst x.
    + exists i. split; [exact Hx|left; exact Hin].
    + exists (lit "default"). split; [exact Hx|right; reflexivity].
  - intros [x [Hx [Hin|Hd]]].
    + exists x. split; [exact Hin|]. apply existsb_exists. exists x.
      split; [exact Hx|rewrite str_eqb_refl; reflexivity].
    + destruct inc as [|i inc]; [contradiction|]. exists i. split; [left; reflexivity|].
      apply existsb_exists. exists x. split; [exact Hx|]. subst x. rewrite str_eqb_refl, orb_true_r.
      reflexivity.
Qed.

(** X1. [FindGem] returns the first registry entry carrying the name: the
    entries before it all have other names. *)
Theorem FindGem_first l name g : FindGem l name = Some g <->
  exists pre post, GemSpecs l = pre ++ g :: post /\ gs_Name g = name
                   /\ Forall (fun h => gs_Name h <> name) pre.
Proof. apply find_gem_some. Qed.

(** X2. [FindGem] returns nil exactly when no registry entry has the name. *)
Theorem FindGem_none l name : FindGem l name = None <->
  Forall (fun h => gs_Name h <> name) (GemSpecs l).
Proof. apply find_gem_none. Qed.

(** X3. The full name of a registry entry whose version and platform come from
    the split of a version string [vp] is the name, a hyphen and [vp]. *)
Theorem FullName_of_split n vp ds src :
  GemSpec_FullName (mkGemSpec n (fst (split_version_platform vp)) (snd (split_version_platform vp)) ds src)
  = n ++ lit "-" ++ vp.
Proof.
  destruct (split_version_platform vp) as [v p] eqn:E.
  pose proof (split_version_platform_inv _ _ _ E) as H.
  unfold GemSpec_FullName. cbn [fst snd gs_Name gs_Version gs_Platform].
  destruct p as [|c p]; rewrite <- H; [reflexivity|]. rewrite !app_assoc. reflexivity.
Qed.

(** X4. An entry is in the result of [FilterGemsByGroups] exactly when it is in
    the input, none of its groups (["default"] when it has none) is
    excluded, and, when include groups are given, one of its groups is an
    include group or ["default"]. *)
Theorem FilterGemsByGroups_In gems inc exc g :
  In g (FilterGemsByGroups gems inc exc) <->
  In g gems /\ (forall e, In e exc -> ~ In e (gemGroups g))
  /\ (inc = [] \/ exists x, In x (gemGroups g) /\ (In x inc \/ x = lit "default")).
Proof.
  assert (Hgen : In g (filter (fun g => if group_excluded exc g then false
                       else match inc with [] => true | _ => group_included inc g end) gems) <->
    In g gems /\ (forall e, In e exc -> ~ In e (gemGroups g))
    /\ (inc = [] \/ exists x, In x (gemGroups g) /\ (In x inc \/ x = lit "default"))).
  { rewrite filter_In. destruct (group_excluded exc g) eqn:Ex.
    - split; [intros [_ H]; discriminate|]. intros [_ [H _]].
      apply group_excluded_spec in Ex as [e [He1 He2]]. exfalso. exact (H e He1 He2).
    - assert (Hn : forall e, In e exc -> ~ In e (gemGroups g)).
      { intros e He1 He2. assert (group_excluded exc g = true) by (apply group_excluded_spec; eauto).
        congruence. }
      destruct inc as [|i inc'].
      + split; [intros [H _]; auto|intros [H _]; auto].
      + rewrite (group_included_spec (i :: inc') g) by discriminate. split.
        * intros [H1 H2]. split; [exact H1|split; [exact Hn|right; exact H2]].
        * intros [H1 [_ [H2|H2]]]; [discriminate|]. split; assumption. }
  unfold FilterGemsByGroups. destruct inc as [|i inc]; [destruct exc as [|e exc]|]; try exact Hgen.
  split; [intros H; split; [exact H|split; [intros e []|left; reflexivity]]|intros [H _]; exact H].
Qed.

(** X5. Filtering a concatenation filters each part: every entry is kept or
    dropped on its own. *)
Theorem FilterGemsByGroups_app gems1 gems2 inc exc :
  FilterGemsByGroups (gems1 ++ gems2) inc exc
  = FilterGemsByGroups gems1 inc exc ++ FilterGemsByGroups gems2 inc exc.
Proof.
  unfold FilterGemsByGroups. destruct inc, exc; try reflexivity; apply filter_app.
Qed.

(** X6. Filtering twice with the same groups is filtering once. *)
Theorem FilterGemsByGroups_idempotent gems inc exc :
  FilterGemsByGroups (FilterGemsByGroups gems inc exc) inc exc = FilterGemsByGroups gems inc exc.
Proof.
  unfold FilterGemsByGroups. destruct inc, exc; try reflexivity.
  all: induction gems as [|x gems IH]; [reflexivity|]; cbn [filter];
    match goal with |- context [if ?b then _ else _] => destruct b eqn:E end;
    cbn [filter]; try rewrite E; rewrite IH; reflexivity.
Qed.

Lemma amap_alter_nodup {V : Type} k f (m : list (str * V)) :
  NoDup (map fst m) -> NoDup (map fst (amap_alter k f m)).
Proof.
  induction m as [|[k' v] m IH]; intros H; cbn [amap_alter].
  - constructor; [intros []|constructor].
  - inversion H as [|? ? Hn Hd]; subst. destruct (str_eqb k k') eqn:E; cbn [map fst].
    + constructor; assumption.
    + constructor; [|apply IH, Hd]. intros Hin. destruct (amap_alter_keys _ _ _ _ Hin) as [Ek|Ek].
      * subst. rewrite str_eqb_refl in E. discriminate.
      * contradiction.
Qed.

Lemma amap_alter_keeps {V : Type} k f (m : list (str * V)) x :
  x = k \/ In x (map fst m) -> In x (map fst (amap_alter k f m)).
Proof.
  induction m as [|[k' v] m IH]; cbn [amap_alter].
  - intros [->|[]]. left. reflexivity.
  - destruct (str_eqb k k') eqn:E; cbn [map fst In].
    + apply str_eqb_true in E. subst. intros [->|[H|H]]; auto.
    + intros [->|[H|H]]; [right; apply IH; left; reflexivity|left; exact H|right; apply IH; right; exact H].
Qed.

Lemma platform_set_nodup ps : forall (m : list (str * bool)),
  NoDup (map fst m) -> NoDup (map fst (fold_left (fun m p => amap_alter p (fun _ => true) m) ps m)).
Proof.
  induction ps as [|p ps IH]; intros m H; [exact H|]. cbn [fold_left]. apply IH, amap_alter_nodup, H.
Qed.

Lemma platform_set_complete ps : forall (m : list (str * bool)) x,
  In x (map fst m) \/ In x ps ->
  In x (map fst (fold_left (fun m p => amap_alter p (fun _ => true) m) ps m)).
Proof.
  induction ps as [|p ps IH]; intros m x H; cbn [fold_left].
  - destruct H as [H|[]]. exact H.
  - apply IH. destruct H as [H|[->|H]]; [left; apply amap_alter_keeps; right; exact H
                                        |left; apply amap_alter_keeps; left; reflexivity|right; exact H].
Qed.

Lemma TrimSpace_space x : TrimSpace (" "%char :: x) = TrimSpace x.
Proof. unfold TrimSpace, trim_left_space, strip. cbn [length]. rewrite strip_fuel_space. reflexivity. Qed.

Lemma split_on_join_comma c cs : ~ In ","%char c -> Forall (fun x => ~ In ","%char x) cs ->
  split_on ","%char (join (lit ", ") (c :: cs)) = c :: map (fun x => " "%char :: x) cs.
Proof.
  revert c. induction cs as [|x cs IH]; intros c Hc Hcs.
  - cbn [join]. rewrite <- (app_nil_r c) at 1. rewrite split_on_app by exact Hc.
    rewrite app_nil_r. reflexivity.
  - inversion Hcs as [|? ? Hx Hcs']; subst.
    change (join (lit ", ") (c :: x :: cs)) with (c ++ ","%char :: " "%char :: join (lit ", ") (x :: cs)).
    rewrite split_on_app by exact Hc.
    assert (E1 : split_on ","%char (","%char :: " "%char :: join (lit ", ") (x :: cs))
                 = [] :: split_on ","%char ([" "%char] ++ join (lit ", ") (x :: cs))) by reflexivity.
    rewrite E1. rewrite split_on_app by (intros [E|[]]; discriminate).
    rewrite (IH x Hx Hcs'). cbn [hd tl map]. rewrite app_nil_r. reflexivity.
Qed.

Lemma parseConstraints_join cs : cs <> [] ->
  Forall (fun c => c <> [] /\ TrimSpace c = c /\ ~ In ","%char c) cs ->
  parseConstraints (join (lit ", ") cs) = cs.
Proof.
  intros Hne H. destruct cs as [|c cs]; [contradiction|]. unfold parseConstraints.
  inversion H as [|? ? [Hc0 [Hc1 Hc2]] Hcs]; subst.
  rewrite split_on_join_comma; [|exact Hc2|eapply Forall_impl; [|exact Hcs]; intros a [_ [_ Ha]]; exact Ha].
  cbn [map filter]. rewrite Hc1. destruct c as [|a c]; [contradiction|]. cbn [negb].
  f_equal. clear Hne H. induction Hcs as [|x cs [Hx0 [Hx1 _]] _ IH]; [reflexivity|].
  cbn [map filter]. rewrite TrimSpace_space, Hx1. destruct x as [|b x]; [contradiction|].
  cbn [negb]. f_equal. exact IH.
Qed.

Lemma match_dep_line d : dep_ok d ->
  match_dep (dep_line indent6 d) = Some (dep_Name d, join (lit ", ") (dep_Constraints d)).
Proof.
  intros [Hn [Hc Hcs]]. unfold dep_line.
  destruct (dep_Constraints d) as [|c cs] eqn:E.
  - unfold match_dep, indent6. rewrite has_prefix_app.
    change (skipn 6 (lit "      " ++ ?x)) with x.
    pose proof (span_name_app (dep_Name d) [] Hc ltac:(discriminate)) as Hs.
    rewrite app_nil_r in Hs. rewrite Hs.
    destruct (dep_Name d); [contradiction|reflexivity].
  - assert (Hp : no_close_paren (join (lit ", ") (c :: cs)) = true).
    { apply forallb_join; [reflexivity|]. eapply Forall_impl; [|exact Hcs]. intros a [_ [H _]]. exact H. }
    assert (Hj : join (lit ", ") (c :: cs) <> []).
    { inversion Hcs as [|? ? [Hc0 _] _]. rewrite join_cons. destruct c; [contradiction|discriminate]. }
    unfold match_dep, indent6. rewrite has_prefix_app.
    change (skipn 6 (lit "      " ++ ?x)) with x.
    rewrite span_name_app; [|exact Hc|intros c' b' Eb; injection Eb as <- _; reflexivity].
    destruct (dep_Name d); [contradiction|].
    change (lit " (" ++ ?x) with (" " :: "(" :: x)%char.
    change (" " :: "(" :: ?x)%char with (lit " (" ++ x).
    rewrite match_paren_tail_app by assumption. reflexivity.
Qed.

(** X7. [Write] lists every platform of the lockfile once: the lines of its
    PLATFORMS section name a duplicate-free list of the lockfile platforms. *)
Theorem writePlatformsSection_dedup sort_by lf
  (Hsort : forall A cmp (l : list A), Permutation (sort_by A cmp l) l) :
  Platforms lf <> [] ->
  exists ps, writePlatformsSection sort_by lf
             = nl ++ lit "PLATFORMS" ++ nl ++ concat (map (fun p => indent2 ++ p ++ nl) ps)
           /\ NoDup ps /\ (forall p, In p ps <-> In p (Platforms lf)).
Proof.
  intros Hne. unfold writePlatformsSection. destruct (Platforms lf) as [|p0 ps0] eqn:E; [contradiction|].
  rewrite <- E.
  set (set := fold_left (fun m p => amap_alter p (fun _ => true) m) (Platforms lf) []).
  exists (sort_by _ str_compare (map fst set)). split; [reflexivity|split].
  - eapply Permutation_NoDup; [symmetry; apply Hsort|]. apply platform_set_nodup. constructor.
  - intros p. split; intros H.
    + apply (Permutation_in _ (Hsort _ _ _)) in H.
      destruct (platform_set_keys _ _ _ H) as [[]|H']. exact H'.
    + apply (Permutation_in _ (Permutation_sym (Hsort _ _ _))). apply platform_set_complete. right. exact H.
Qed.

(** X8. A dependency line written by [writeDependency] at the indentation of an
    entry dependency is read back by [depRegex] and [parseConstraints] as
    the same dependency, when its name is made of name characters and its
    constraints are non-empty, trimmed, and free of commas, closing
    parentheses and newlines. *)
Theorem writeDependency_roundtrip d :
  dep_ok d -> Forall (fun c => TrimSpace c = c /\ ~ In ","%char c) (dep_Constraints d) ->
  exists L, writeDependency indent6 d = L ++ nl
            /\ option_map dependency_of_match (match_dep L) = Some d.
Proof.
  intros Hd Hcs. exists (dep_line indent6 d). split.
  - unfold writeDependency, dep_line. destruct (dep_Constraints d); rewrite <- !app_assoc; reflexivity.
  - rewrite match_dep_line by exact Hd. cbn [option_map dependency_of_match].
    destruct d as [n cs]. cbn [dep_Name dep_Constraints] in *.
    destruct cs as [|c cs]; [reflexivity|].
    destruct Hd as [_ [_ Hok]].
    assert (Hall : Forall (fun c => c <> [] /\ TrimSpace c = c /\ ~ In ","%char c) (c :: cs)).
    { apply Forall_forall. intros x Hx. rewrite Forall_forall in Hok, Hcs.
      destruct (Hok x Hx) as [H1 _]. destruct (Hcs x Hx) as [H2 H3]. auto. }
    rewrite parseConstraints_join by (discriminate || exact Hall).
    inversion Hall as [|? ? [Hc0 _] _]. rewrite join_cons. destruct c; [contradiction|reflexivity].
Qed.

(** Instance of [writePlatformsSection_dedup] with the insertion sort, on a
    lockfile that lists a platform twice. *)
Lemma writePlatformsSection_dedup_witness :
  exists ps, writePlatformsSection insertion_sort
               (mkLockfile [] [] [] [lit "ruby"; lit "x86_64-linux"; lit "ruby"] [] [])
             = nl ++ lit "PLATFORMS" ++ nl ++ concat (map (fun p => indent2 ++ p ++ nl) ps)
           /\ NoDup ps
           /\ (forall p, In p ps <-> In p [lit "ruby"; lit "x86_64-linux"; lit "ruby"]).
Proof.
  apply (writePlatformsSection_dedup insertion_sort
           (mkLockfile [] [] [] [lit "ruby"; lit "x86_64-linux"; lit "ruby"] [] [])).
  - apply insertion_sort_perm.
  - discriminate.
Defined.

(** Instance of [writeDependency_roundtrip] on a dependency with two
    constraints. *)
Lemma writeDependency_roundtrip_witness :
  let d := mkDependency (lit "rack") [lit "~> 2.0"; lit ">= 2.0.1"] in
  exists L, writeDependency indent6 d = L ++ nl
            /\ option_map dependency_of_match (match_dep L) = Some d.
Proof.
  intros d. apply writeDependency_roundtrip.
  - split; [discriminate|split; [reflexivity|]].
    repeat constructor; (discriminate || vm_compute; reflexivity).
  - apply Forall_forall. intros c Hc. destruct Hc as [<-|[<-|[]]];
      (split; [vm_compute; reflexivity|simpl; intuition discriminate]).
Defined.

(** ** Adding and removing gems; GitHub paths *)

(** Sample URLs. *)
Lemma github_sample :
  extractGitHubPath (lit "https://github.com/rails/rails.git") = lit "rails/rails"
  /\ extractGitHubPath (lit "git@github.com:rails/rails") = lit "rails/rails"
  /\ extractGitHubPath (lit "https://github.com/rails/rails/tree/main") = lit "rails/rails"
  /\ extractGitHubPath (lit "https://example.com/x") = [].
Proof. vm_compute. repeat split. Qed.


Lemma span_app_stop (p : ascii -> bool) a c b : forallb p a = true -> p c = false ->
  span p (a ++ c :: b) = (a, c :: b).
Proof.
  intros Ha Hc. induction a as [|x a IH]; cbn [app span].
  - rewrite Hc. reflexivity.
  - cbn [forallb] in Ha. apply andb_prop in Ha as [Hx Ha]. rewrite Hx, IH by exact Ha. reflexivity.
Qed.

Lemma span_all (p : ascii -> bool) a : forallb p a = true -> span p a = (a, []).
Proof.
  intros Ha. induction a as [|x a IH]; [reflexivity|]. cbn [forallb] in Ha.
  apply andb_prop in Ha as [Hx Ha]. cbn [span]. rewrite Hx, IH by exact Ha. reflexivity.
Qed.

Lemma skipn_length_app {A : Type} (a b : list A) : skipn (length a) (a ++ b) = b.
Proof. induction a; [reflexivity|exact IHa]. Qed.

(** The text [formatGemLine] writes starts with the word gem, a blank and
    the quoted name. *)
Lemma formatGemLine_prefix h dep : exists rest,
  formatGemLine h dep = lit "gem '" ++ gd_Name dep ++ "'"%char :: rest.
Proof.
  unfold formatGemLine. cbn [app]. rewrite join_cons. unfold quoted.
  eexists. rewrite <- !app_assoc. reflexivity.
Qed.

Lemma lead_info_size b sz lo hi : lead_info b = Some (sz, lo, hi) -> 2 <= sz.
Proof.
  unfold lead_info.
  repeat match goal with |- context [if ?c then _ else _] => destruct c end;
    intros H; inversion H; lia.
Qed.

(** A rune decoded without error is the prefix of its width, and reads the
    same whatever follows. *)
Lemma decode_rune_valid n enc w : n <> [] -> decode_rune n = (enc, w) -> w = length enc ->
  enc = firstn w n /\ 1 <= w <= length n /\ forall s, decode_rune (n ++ s) = (enc, w).
Proof.
  intros Hn Hd Hw. destruct n as [|b0 r]; [contradiction|].
  unfold decode_rune in Hd.
  destruct (nat_of_ascii b0 <? 128) eqn:Ea.
  - injection Hd as <- <-. refine (conj eq_refl (conj _ _)); [cbn; lia|].
    intros s. unfold decode_rune. cbn [app]. rewrite Ea. reflexivity.
  - destruct (lead_info b0) as [[[sz lo] hi]|] eqn:El; [|injection Hd as <- <-; discriminate].
    pose proof (lead_info_size _ _ _ _ El) as Hsz.
    destruct ((length (firstn sz (b0 :: r)) =? sz) && cont_ok lo hi (firstn sz (b0 :: r))) eqn:E;
      [|injection Hd as <- <-; discriminate].
    injection Hd as <- <-.
    pose proof E as E0. apply andb_prop in E0 as [E1 _]. apply Nat.eqb_eq in E1.
    rewrite length_firstn in E1.
    assert (Hl : sz <= length (b0 :: r)) by lia.
    repeat split; auto; [lia|].
    intros s.
    assert (F : firstn sz ((b0 :: r) ++ s) = firstn sz (b0 :: r)).
    { rewrite firstn_app, (proj2 (Nat.sub_0_le sz _) Hl), firstn_O, app_nil_r. reflexivity. }
    unfold decode_rune. cbn [app] in F |- *. rewrite Ea, El, F, E. reflexivity.
Qed.

Lemma match_runes_valid f n s : valid_utf8_fuel f n = true -> match_runes f n (n ++ s) = Some s.
Proof.
  revert n; induction f as [|f IH]; intros n Hv; destruct n as [|b0 r]; try reflexivity;
    cbn [valid_utf8_fuel] in Hv; [discriminate|].
  destruct (decode_rune (b0 :: r)) as [enc w] eqn:Hd.
  apply andb_prop in Hv as [Hw Hv]. apply Nat.eqb_eq in Hw.
  destruct (decode_rune_valid (b0 :: r) enc w ltac:(discriminate) Hd Hw) as (Ee & Lw & Ds).
  change (match_runes (S f) (b0 :: r) ((b0 :: r) ++ s) = Some s).
  cbn [match_runes app]. specialize (Ds s). cbn [app] in Ds. rewrite Ds.
  assert (Hp : has_prefix enc (b0 :: r) = true).
  { rewrite Ee. rewrite <- (firstn_skipn w (b0 :: r)) at 2. apply has_prefix_app. }
  rewrite Hp, <- Hw.
  change (skipn w (b0 :: r ++ s)) with (skipn w ((b0 :: r) ++ s)).
  rewrite skipn_app, (proj2 (Nat.sub_0_le w _) (proj2 Lw)), skipn_O.
  apply IH, Hv.
Qed.

Lemma match_name_valid n s : valid_utf8 n = true -> match_name n (n ++ s) = Some s.
Proof. apply match_runes_valid. Qed.

Lemma isGemLine_gem_quoted n rest : valid_utf8 n = true ->
  isGemLine (lit "gem '" ++ n ++ "'"%char :: rest) n = true.
Proof.
  intros Hv. unfold isGemLine. rewrite Hv. simpl.
  rewrite match_name_valid by exact Hv. reflexivity.
Qed.

Lemma split_on_pieces c s p : In p (split_on c s) -> ~ In c p.
Proof.
  revert p. induction s as [|x s IH]; intros p Hp; cbn [split_on] in Hp.
  - destruct Hp as [<-|[]]. intros [].
  - destruct (x =? c)%char eqn:E.
    + destruct Hp as [<-|Hp]; [intros []|exact (IH p Hp)].
    + destruct (split_on c s) as [|q qs] eqn:Es; [exfalso; exact (split_on_nonnil _ _ Es)|].
      destruct Hp as [<-|Hp].
      * intros [Hx|Hq]; [subst x; rewrite Ascii.eqb_refl in E; discriminate|].
        exact (IH q (or_introl eq_refl) Hq).
      * exact (IH p (or_intror Hp)).
Qed.

Lemma split_on_join c ls : ls <> [] -> Forall (fun p => ~ In c p) ls ->
  split_on c (join [c] ls) = ls.
Proof.
  intros Hne H. induction H as [|p ls Hp H IH]; [contradiction|].
  destruct ls as [|q ls].
  - cbn [join]. rewrite <- (app_nil_r p) at 1. rewrite split_on_app by exact Hp.
    cbn. rewrite app_nil_r. reflexivity.
  - rewrite join_cons, split_on_app by exact Hp. cbn [app split_on]. rewrite Ascii.eqb_refl.
    cbn [hd tl]. rewrite IH by discriminate. rewrite app_nil_r. reflexivity.
Qed.

Lemma isGemLine_format h dep : valid_utf8 (gd_Name dep) = true ->
  isGemLine (formatGemLine h dep) (gd_Name dep) = true.
Proof.
  intros Hv. destruct (formatGemLine_prefix h dep) as [rest ->]. apply isGemLine_gem_quoted, Hv.
Qed.

(** The file system after a successful [AddGem]. *)
Lemma AddGem_ok h dep fs fs' :
  AddGem isGemLine (formatGemLine h) dep fs = (None, fs') ->
  fs_readable fs = true /\ fs_writable fs = true
  /\ hasGem isGemLine (split_on (chr 10) (fs_content fs)) (gd_Name dep) = false
  /\ fs' = fs_set_content (join nl
         (firstn (findInsertionPoint (gd_Groups dep) (split_on (chr 10) (fs_content fs)))
            (split_on (chr 10) (fs_content fs))
          ++ formatGemLine h dep
          :: skipn (findInsertionPoint (gd_Groups dep) (split_on (chr 10) (fs_content fs)))
               (split_on (chr 10) (fs_content fs)))) fs.
Proof.
  intros H. unfold AddGem, Load in H.
  destruct (fs_readable fs) eqn:Hr; [|discriminate].
  destruct (hasGem isGemLine _ (gd_Name dep)) eqn:Hg; [discriminate|].
  unfold save in H. destruct (fs_writable fs) eqn:Hw; [|discriminate].
  injection H as <-. auto.
Qed.

Lemma fs_set_content_eta fs : fs_set_content (fs_content fs) fs = fs.
Proof. destruct fs; reflexivity. Qed.

Lemma fs_set_content_twice c c' fs : fs_set_content c (fs_set_content c' fs) = fs_set_content c fs.
Proof. reflexivity. Qed.


Lemma split_on_join_app c A L B : Forall (fun p => ~ In c p) A ->
  split_on c (join [c] (A ++ L :: B)) = A ++ split_on c (join [c] (L :: B)).
Proof.
  intros HA. induction HA as [|a A Ha HA IH]; [reflexivity|].
  assert (E : join [c] (a :: A ++ L :: B) = a ++ c :: join [c] (A ++ L :: B))
    by (destruct A; reflexivity).
  cbn [app]. rewrite E, split_on_app by exact Ha.
  assert (E2 : split_on c (c :: join [c] (A ++ L :: B)) = [] :: split_on c (join [c] (A ++ L :: B)))
    by (cbn [split_on]; rewrite Ascii.eqb_refl; reflexivity).
  rewrite E2. cbn [hd tl]. rewrite app_nil_r, IH. reflexivity.
Qed.

Lemma pieces_firstn c s i : Forall (fun p => ~ In c p) (firstn i (split_on c s)).
Proof.
  apply Forall_forall. intros p Hp. apply (split_on_pieces c s p).
  rewrite <- (firstn_skipn i (split_on c s)). apply in_or_app. left. exact Hp.
Qed.

Lemma pieces_skipn c s i : Forall (fun p => ~ In c p) (skipn i (split_on c s)).
Proof.
  apply Forall_forall. intros p Hp. apply (split_on_pieces c s p).
  rewrite <- (firstn_skipn i (split_on c s)). apply in_or_app. right. exact Hp.
Qed.

(** A line that starts with the quoted name is still a gem line of that
    name after the text is cut at newlines, when the name has none. *)
Lemma hasGem_split_insert n A rest B :
  Forall (fun p => ~ In (chr 10) p) A -> nonl n = true -> valid_utf8 n = true ->
  hasGem isGemLine (split_on (chr 10) (join nl (A ++ (lit "gem '" ++ n ++ "'"%char :: rest) :: B))) n = true.
Proof.
  intros HA Hn Hv. unfold nl. rewrite split_on_join_app by exact HA.
  unfold hasGem. apply existsb_exists.
  rewrite join_cons.
  set (P := lit "gem '" ++ n ++ ["'"%char]).
  assert (HP : ~ In (chr 10) P).
  { apply nonl_notin. unfold P. rewrite !nonl_app, Hn. reflexivity. }
  replace (lit "gem '" ++ n ++ "'"%char :: rest) with (P ++ rest)
    by (unfold P; rewrite <- !app_assoc; reflexivity).
  rewrite <- app_assoc, split_on_app by exact HP.
  eexists. split; [apply in_or_app; right; left; reflexivity|].
  unfold P. rewrite <- !app_assoc. apply isGemLine_gem_quoted, Hv.
Qed.

Lemma filter_negb_existsb {A : Type} (f : A -> bool) l :
  existsb f l = false -> filter (fun x => negb (f x)) l = l.
Proof.
  induction l as [|x l IH]; [reflexivity|]. cbn [existsb filter].
  intros H. apply orb_false_iff in H as [Hx Hl]. rewrite Hx, IH by exact Hl. reflexivity.
Qed.





Lemma isGemLine_invalid line name : valid_utf8 name = false -> isGemLine line name = false.
Proof. intros Hv. unfold isGemLine. rewrite Hv. reflexivity. Qed.

Lemma existsb_isGemLine_invalid name content : valid_utf8 name = false ->
  existsb (fun line => isGemLine line name) content = false.
Proof.
  intros Hv. induction content as [|l content IH]; [reflexivity|].
  cbn [existsb]. rewrite isGemLine_invalid, IH by exact Hv. reflexivity.
Qed.

(** X20. For a name that is not valid UTF-8 the expression of [isGemLine]
    does not compile and no line matches: [RemoveGem] of that name on a
    readable file fails with the not-found error and leaves the file as it
    is, even when a line declares that very gem. *)
Theorem RemoveGem_invalid_name name fs :
  valid_utf8 name = false -> fs_readable fs = true ->
  RemoveGem isGemLine name fs = (Some (lit "gem not found in Gemfile"), fs).
Proof.
  intros Hv Hr. unfold RemoveGem, Load. rewrite Hr.
  rewrite existsb_isGemLine_invalid by exact Hv. reflexivity.
Qed.

Lemma RemoveGem_invalid_name_witness :
  let fs := mkFsys (lit "gem '" ++ [chr 255] ++ lit "'") true true in
  valid_utf8 [chr 255] = false /\ fs_readable fs = true /\
  RemoveGem isGemLine [chr 255] fs = (Some (lit "gem not found in Gemfile"), fs).
Proof.
  intros fs. assert (Hv : valid_utf8 [chr 255] = false) by (vm_compute; reflexivity).
  split; [exact Hv | split; [reflexivity | exact (RemoveGem_invalid_name _ fs Hv eq_refl)]].
Defined.

(** X21. For a dependency whose name is not valid UTF-8, [AddGem] on a
    readable file never reports the gem as present: it inserts the new
    line and saves, whatever lines the file already has. *)
Theorem AddGem_invalid_name fmt dep fs :
  valid_utf8 (gd_Name dep) = false -> fs_readable fs = true ->
  AddGem isGemLine fmt dep fs =
  save (firstn (findInsertionPoint (gd_Groups dep) (split_on (chr 10) (fs_content fs)))
          (split_on (chr 10) (fs_content fs))
        ++ fmt dep
        :: skipn (findInsertionPoint (gd_Groups dep) (split_on (chr 10) (fs_content fs)))
             (split_on (chr 10) (fs_content fs))) fs.
Proof.
  intros Hv Hr. unfold AddGem, Load, hasGem. rewrite Hr.
  rewrite existsb_isGemLine_invalid by exact Hv. reflexivity.
Qed.

Lemma AddGem_invalid_name_witness :
  let dep := mkGemDependency [chr 255] [] None [] None [] [] in
  let fs := mkFsys (lit "gem '" ++ [chr 255] ++ lit "'") true true in
  valid_utf8 (gd_Name dep) = false /\ fs_readable fs = true /\
  AddGem isGemLine (formatGemLine []) dep fs =
  (None, mkFsys (lit "gem '" ++ [chr 255] ++ lit "'" ++ nl ++ formatGemLine [] dep) true true).
Proof.
  intros dep fs. assert (Hv : valid_utf8 (gd_Name dep) = false) by (vm_compute; reflexivity).
  split; [exact Hv | split; [reflexivity|]].
  rewrite (AddGem_invalid_name (formatGemLine []) dep fs Hv eq_refl). vm_compute. reflexivity.
Defined.

Lemma search_skip {A : Type} (m : str -> option A) pre s :
  (forall k, k < length pre -> m (skipn k pre ++ s) = None) ->
  search m (pre ++ s) = search m s.
Proof.
  induction pre as [|x pre IH]; intros H; [reflexivity|].
  cbn [app search]. specialize (H 0) as H0. cbn [skipn app] in H0. rewrite H0 by (cbn; lia). apply IH.
  intros k Hk. apply (H (S k)). cbn; lia.
Qed.

Lemma contains_skipn p s : contains p s = false -> forall k, has_prefix p (skipn k s) = false.
Proof.
  induction s as [|x s IH]; intros H k; cbn [contains] in H;
    apply orb_false_iff in H as [H1 H2].
  - destruct k; exact H1.
  - destruct k; [exact H1|]. apply IH, H2.
Qed.

Lemma has_prefix_app_r p x y : has_prefix p (x ++ y) = true -> length p <= length x ->
  has_prefix p x = true.
Proof.
  revert x. induction p as [|c p IH]; intros x H Hl; [reflexivity|].
  destruct x as [|d x]; cbn in Hl; [lia|]. cbn in H |- *.
  apply andb_prop in H as [Hc H]. rewrite Hc. apply (IH x H). lia.
Qed.

Lemma span_not_slash_tail a t : forallb not_slash a = true -> slash_tail_ok t = true ->
  span not_slash (a ++ t) = (a, t).
Proof.
  intros Ha Ht. destruct t as [|c u].
  - rewrite app_nil_r. apply span_all, Ha.
  - apply span_app_stop; [exact Ha|]. cbn in Ht. apply andb_prop in Ht as [Hc _].
    apply Ascii.eqb_eq in Hc. subst c. reflexivity.
Qed.

Lemma has_suffix_app suf s : has_suffix suf (s ++ suf) = true.
Proof. unfold has_suffix. rewrite rev_app_distr. apply has_prefix_app. Qed.

Lemma github_path_at_url sep o r g t :
  (sep = "/"%char \/ sep = ":"%char) ->
  o <> [] -> forallb not_slash o = true ->
  r <> [] -> forallb not_slash r = true ->
  (g = lit ".git" \/ (g = [] /\ has_suffix (lit ".git") r = false)) ->
  slash_tail_ok t = true ->
  github_path_at (lit "github.com" ++ sep :: o ++ "/"%char :: r ++ g ++ t) = Some (o ++ lit "/" ++ r).
Proof.
  intros Hsep Ho Hos Hr Hrs Hg Ht. unfold github_path_at.
  rewrite has_prefix_app. change 10 with (length (lit "github.com")).
  rewrite skipn_length_app.
  replace ((sep =? "/")%char || (sep =? ":")%char) with true
    by (destruct Hsep as [->| ->]; reflexivity).
  rewrite span_app_stop by (exact Hos || reflexivity).
  destruct o as [|x o]; [contradiction|].
  assert (Hrg : forallb not_slash (r ++ g) = true).
  { rewrite forallb_app, Hrs. destruct Hg as [->|[-> _]]; reflexivity. }
  rewrite app_assoc, span_not_slash_tail by assumption. rewrite Ht.
  destruct Hg as [->|[-> Hsuf]].
  - rewrite has_suffix_app. rewrite length_app.
    replace (length r + length (lit ".git") - 4) with (length r) by (cbn; lia).
    replace (5 <=? length r + length (lit ".git")) with true
      by (destruct r; [contradiction|symmetry; apply Nat.leb_le; cbn; lia]).
    rewrite firstn_app, Nat.sub_diag, firstn_all. cbn. rewrite app_nil_r. reflexivity.
  - rewrite app_nil_r, Hsuf. cbn [andb]. destruct r; [contradiction|reflexivity].
Qed.

(** X11. On a URL with github.com followed by a slash or colon, an owner and a repository segment (optionally ending in .git, optionally followed by a slash path), with no earlier github.com, [extractGitHubPath] returns owner/repository without the .git suffix. *)
Theorem extractGitHubPath_url pre sep o r g t :
  contains (lit "github.com") (pre ++ lit "github.co") = false ->
  (sep = "/"%char \/ sep = ":"%char) ->
  o <> [] -> forallb not_slash o = true ->
  r <> [] -> forallb not_slash r = true ->
  (g = lit ".git" \/ (g = [] /\ has_suffix (lit ".git") r = false)) ->
  slash_tail_ok t = true ->
  extractGitHubPath (pre ++ lit "github.com" ++ sep :: o ++ "/"%char :: r ++ g ++ t) = o ++ lit "/" ++ r.
Proof.
  intros Hc Hsep Ho Hos Hr Hrs Hg Ht. unfold extractGitHubPath.
  rewrite search_skip.
  - destruct (lit "github.com" ++ sep :: _) eqn:E.
    + destruct pre; discriminate.
    + cbn [search]. rewrite <- E, github_path_at_url by assumption. reflexivity.
  - intros k Hk. unfold github_path_at.
    assert (Hp : has_prefix (lit "github.com") (skipn k (pre ++ lit "github.co")) = false)
      by (apply contains_skipn, Hc).
    destruct (has_prefix (lit "github.com") (skipn k pre ++ _)) eqn:E; [|reflexivity].
    exfalso. rewrite skipn_app in Hp.
    replace (k - length pre) with 0 in Hp by lia. cbn [skipn] in Hp.
    assert (E' : skipn k pre ++ lit "github.com" ++ sep :: o ++ "/"%char :: r ++ g ++ t
                 = (skipn k pre ++ lit "github.co") ++ "m"%char :: sep :: o ++ "/"%char :: r ++ g ++ t)
      by (rewrite <- app_assoc; reflexivity).
    rewrite E' in E. apply has_prefix_app_r in E.
    + rewrite E in Hp. discriminate.
    + rewrite length_app, length_skipn. cbn. lia.
Qed.

Lemma extractGitHubPath_url_witness :
  extractGitHubPath (lit "git@" ++ lit "github.com" ++ ":"%char :: lit "rails" ++ "/"%char
                       :: lit "rails" ++ lit ".git" ++ lit "/tree/main")
  = lit "rails" ++ lit "/" ++ lit "rails".
Proof.
  apply extractGitHubPath_url; try (vm_compute; reflexivity); try discriminate.
  - right; reflexivity.
  - left; reflexivity.
Defined.

Lemma last_gem_outside_group_range i b lg lines j :
  last_gem_outside_group i b lg lines = Some j -> lg = Some j \/ i <= j < i + length lines.
Proof.
  revert i b lg. induction lines as [|l lines IH]; intros i b lg H;
    cbn [last_gem_outside_group length] in H |- *; [left; exact H|].
  destruct (has_prefix (lit "group ") (TrimSpace l));
    [apply IH in H; destruct H; [left|right]; auto; lia|].
  destruct (str_eqb (TrimSpace l) (lit "end"));
    [apply IH in H; destruct H; [left|right]; auto; lia|].
  destruct (negb b && has_prefix (lit "gem ") (TrimSpace l)).
  - apply IH in H. destruct H as [H|H]; [injection H as <-|]; right; lia.
  - apply IH in H. destruct H; [left|right]; auto; lia.
Qed.

(** X12. The insertion index that [findInsertionPoint] returns is never beyond the number of lines, so the slicing in [AddGem] stays in bounds. *)
Theorem findInsertionPoint_le groups content :
  findInsertionPoint groups content <= length content.
Proof.
  unfold findInsertionPoint. destruct (isDefaultGroup groups); [|lia].
  destruct (last_gem_outside_group 0 false None content) as [j|] eqn:E; [|lia].
  apply last_gem_outside_group_range in E as [E|E]; [discriminate|lia].
Qed.

Lemma span_app_eq (p : ascii -> bool) s : fst (span p s) ++ snd (span p s) = s.
Proof.
  induction s as [|c s IH]; [reflexivity|]. cbn [span].
  destruct (p c); [|reflexivity]. destruct (span p s) as [a b]. cbn in IH |- *. rewrite IH. reflexivity.
Qed.

Lemma span_snd_length (p : ascii -> bool) s : length (snd (span p s)) <= length s.
Proof. rewrite <- (span_app_eq p s) at 2. rewrite length_app. lia. Qed.

Lemma symbols_fuel_eq f g s : length s <= f -> length s <= g -> symbols_fuel f s = symbols_fuel g s.
Proof.
  revert g s. induction f as [|f IH]; intros g s Hf Hg.
  - destruct s; [destruct g; reflexivity|cbn in Hf; lia].
  - destruct s as [|c s1]; [destruct g; reflexivity|]. destruct g as [|g]; [cbn in Hg; lia|].
    cbn [length] in Hf, Hg. cbn [symbols_fuel].
    destruct (c =? ":")%char; [|apply IH; lia].
    pose proof (span_snd_length is_word_char s1) as Hl.
    destruct (span is_word_char s1) as [w s2]. cbn in Hl.
    destruct w as [|x w]; [apply IH; lia|]. f_equal. apply IH; lia.
Qed.

Lemma symbols_fuel_enough f s : length s <= f -> symbols_fuel f s = symbols s.
Proof. intros H. apply symbols_fuel_eq; lia. Qed.

Lemma symbols_nocolon c s : (c =? ":")%char = false -> symbols (c :: s) = symbols s.
Proof.
  intros Hc. unfold symbols at 1. cbn [symbols_fuel length]. rewrite Hc.
  apply symbols_fuel_enough. lia.
Qed.

Lemma symbols_app_nocolon a s : forallb (fun c => negb (c =? ":")%char) a = true ->
  symbols (a ++ s) = symbols s.
Proof.
  induction a as [|c a IH]; intros H; [reflexivity|]. cbn [forallb] in H.
  apply andb_prop in H as [Hc H]. cbn [app]. rewrite symbols_nocolon by (destruct (c =? ":")%char; auto).
  apply IH, H.
Qed.

(** A word right after a colon, ended by a byte that is not a word byte. *)
Lemma symbols_word w s : w <> [] -> forallb is_word_char w = true ->
  match s with [] => True | c :: _ => is_word_char c = false end ->
  symbols (":"%char :: w ++ s) = w :: symbols s.
Proof.
  intros Hw Hww Hs. unfold symbols at 1. cbn [symbols_fuel length]. rewrite Ascii.eqb_refl.
  assert (E : span is_word_char (w ++ s) = (w, s)).
  { destruct s as [|c s]; [rewrite app_nil_r; apply span_all, Hww|apply span_app_stop; assumption]. }
  rewrite E. destruct w as [|x w]; [contradiction|]. f_equal. apply symbols_fuel_enough.
  rewrite length_app. lia.
Qed.

Lemma symbols_join gs t : Forall (fun g => g <> [] /\ forallb is_word_char g = true) gs ->
  match t with [] => True | c :: _ => is_word_char c = false end -> nocolon t = true ->
  symbols (join (lit ", ") (map (fun g => ":"%char :: g) gs) ++ t) = gs.
Proof.
  intros H Ht Htc. induction H as [|g gs [Hg Hgw] H IH].
  - cbn [map join app]. apply (symbols_app_nocolon t []) in Htc. rewrite app_nil_r in Htc. rewrite Htc. reflexivity.
  - cbn [map]. rewrite join_cons. destruct gs as [|g' gs].
    + cbn [app]. rewrite app_nil_r. rewrite symbols_word by assumption.
      f_equal. apply (symbols_app_nocolon t []) in Htc. rewrite app_nil_r in Htc. exact Htc.
    + cbn [app]. rewrite <- !app_assoc. rewrite symbols_word by (assumption || reflexivity).
      f_equal. exact IH.
Qed.

(** X13. A group header listing word symbols, as in group :development, :test do,
    is read by [parseGroups] as exactly those groups, in order. *)
Theorem parseGroups_header gs : gs <> [] ->
  Forall (fun g => g <> [] /\ forallb is_word_char g = true) gs ->
  parseGroups (lit "group " ++ join (lit ", ") (map (fun g => ":"%char :: g) gs) ++ lit " do") = gs.
Proof.
  intros Hne H. unfold parseGroups.
  rewrite symbols_app_nocolon by reflexivity.
  rewrite symbols_join by (assumption || reflexivity).
  destruct gs; [contradiction|reflexivity].
Qed.

Lemma parseGroups_header_witness :
  parseGroups (lit "group " ++ join (lit ", ") (map (fun g => ":"%char :: g) [lit "development"; lit "test"])
               ++ lit " do") = [lit "development"; lit "test"].
Proof.
  apply parseGroups_header; [discriminate|].
  repeat constructor; (discriminate || reflexivity).
Defined.

Lemma has_prefix_length p s : has_prefix p s = true -> length p <= length s.
Proof.
  revert s. induction p as [|c p IH]; intros s H; [cbn; lia|].
  destruct s as [|d s]; [discriminate|]. cbn in H |- *. apply andb_prop in H as [_ H].
  apply IH in H. lia.
Qed.

Lemma has_prefix_cut kw a c s : has_prefix kw (a ++ c :: s) = true -> length a < length kw -> In c kw.
Proof.
  revert kw. induction a as [|x a IH]; intros kw H Hl.
  - destruct kw as [|d kw]; [cbn in Hl; lia|]. cbn in H. apply andb_prop in H as [H _].
    apply Ascii.eqb_eq in H. subst d. left. reflexivity.
  - destruct kw as [|d kw]; [cbn in Hl; lia|]. cbn in H, Hl. apply andb_prop in H as [_ H].
    right. apply (IH kw H). lia.
Qed.

(** Where a keyword ends with a colon, a text that holds no colon adds no
    occurrence of it after a text without one. *)
Lemma has_prefix_last w d a b : has_prefix (w ++ [d]) (a ++ b) = true -> length a <= length w -> In d b.
Proof.
  revert w. induction a as [|x a IH]; intros w H Hl.
  - cbn in H. apply has_prefix_inv in H. rewrite H. apply in_or_app. left. apply in_or_app. right. left. reflexivity.
  - destruct w as [|y w]; [cbn in Hl; lia|]. cbn in H, Hl. apply andb_prop in H as [_ H].
    apply (IH w H). lia.
Qed.

Lemma has_prefix_In kw s d : has_prefix kw s = true -> In d kw -> In d s.
Proof.
  intros H Hd. apply has_prefix_inv in H. rewrite H. apply in_or_app. left. exact Hd.
Qed.

Lemma contains_nocolon kw x : nocolon x = true -> In ":"%char kw -> contains kw x = false.
Proof.
  intros Hx Hk. induction x as [|c x IH]; cbn [contains].
  - destruct (has_prefix kw []) eqn:E; [|reflexivity].
    exfalso. exact (has_prefix_In _ _ _ E Hk).
  - unfold nocolon in Hx. cbn [forallb] in Hx. apply andb_prop in Hx as [Hc Hx].
    rewrite (IH Hx), orb_false_r.
    destruct (has_prefix kw (c :: x)) eqn:E; [|reflexivity]. exfalso.
    destruct (has_prefix_In _ _ _ E Hk) as [->|Hin].
    + rewrite Ascii.eqb_refl in Hc. discriminate.
    + unfold nocolon in Hx. rewrite forallb_forall in Hx. specialize (Hx _ Hin).
      rewrite Ascii.eqb_refl in Hx. discriminate.
Qed.

Lemma contains_app_sep kw a c b : contains kw a = false -> contains kw b = false -> ~ In c kw ->
  contains kw (a ++ c :: b) = false.
Proof.
  intros Ha Hb Hc. induction a as [|x a IH]; cbn [contains app].
  - rewrite Hb, orb_false_r. destruct (has_prefix kw (c :: b)) eqn:E; [|reflexivity].
    destruct kw as [|d kw]; [cbn in Hb; destruct b; discriminate|].
    cbn in E. apply andb_prop in E as [E _]. apply Ascii.eqb_eq in E. subst. exfalso. apply Hc. left. reflexivity.
  - cbn [contains] in Ha. apply orb_false_iff in Ha as [Hx Ha]. rewrite (IH Ha), orb_false_r.
    destruct (has_prefix kw (x :: a ++ c :: b)) eqn:E; [|reflexivity]. exfalso.
    destruct (Nat.le_gt_cases (length kw) (length (x :: a))) as [Hl|Hl].
    + change (x :: a ++ c :: b) with ((x :: a) ++ c :: b) in E.
      apply has_prefix_app_r in E; [|exact Hl]. rewrite E in Hx. discriminate.
    + apply Hc. apply (has_prefix_cut kw (x :: a) c b E Hl).
Qed.

Lemma contains_app_nocolon w a b : nocolon w = true -> contains (w ++ [":"%char]) a = false ->
  nocolon b = true -> contains (w ++ [":"%char]) (a ++ b) = false.
Proof.
  intros Hw Ha Hb. induction a as [|x a IH]; cbn [app].
  - apply contains_nocolon; [exact Hb|apply in_or_app; right; left; reflexivity].
  - cbn [contains] in Ha |- *. apply orb_false_iff in Ha as [Hx Ha]. rewrite (IH Ha), orb_false_r.
    destruct (has_prefix (w ++ [":"%char]) (x :: a ++ b)) eqn:E; [|reflexivity]. exfalso.
    destruct (Nat.le_gt_cases (length (w ++ [":"%char])) (length (x :: a))) as [Hl|Hl].
    + change (x :: a ++ b) with ((x :: a) ++ b) in E.
      apply has_prefix_app_r in E; [|exact Hl]. rewrite E in Hx. discriminate.
    + rewrite length_app in Hl. cbn [length] in Hl.
      change (x :: a ++ b) with ((x :: a) ++ b) in E.
      apply has_prefix_last in E; [|cbn in Hl |- *; lia].
      unfold nocolon in Hb. rewrite forallb_forall in Hb. specialize (Hb _ E).
      rewrite Ascii.eqb_refl in Hb. discriminate.
Qed.

Lemma contains_nil kw : kw <> [] -> contains kw [] = false.
Proof. destruct kw; [contradiction|reflexivity]. Qed.

Lemma contains_join kw ps : kw <> [] -> ~ In ","%char kw -> ~ In " "%char kw ->
  Forall (fun p => contains kw p = false) ps -> contains kw (join (lit ", ") ps) = false.
Proof.
  intros Hk H1 H2 H. induction H as [|p ps Hp H IH]; [apply contains_nil, Hk|].
  rewrite join_cons. destruct ps as [|q ps]; [rewrite app_nil_r; exact Hp|].
  cbn [lit list_ascii_of_string app]. apply contains_app_sep; [exact Hp| |exact H1].
  rewrite <- (app_nil_l (" "%char :: _)). apply contains_app_sep; [apply contains_nil, Hk|exact IH|exact H2].
Qed.

Lemma search_skip_free {A : Type} (m : str -> option A) kws pre rest :
  (forall s x, m s = Some x -> exists kw, In kw kws /\ has_prefix kw s = true) ->
  Forall (fun kw => contains kw pre = false
                    /\ match rest with [] => True | c :: _ => ~ In c kw end) kws ->
  search m (pre ++ rest) = search m rest.
Proof.
  intros Hm Hk. apply search_skip. intros k Hkl.
  destruct (m (skipn k pre ++ rest)) as [x|] eqn:E; [|reflexivity]. exfalso.
  apply Hm in E as (kw & Hin & E). rewrite Forall_forall in Hk. destruct (Hk kw Hin) as [Hc Hr].
  pose proof (contains_skipn _ _ Hc k) as Hp.
  destruct (Nat.le_gt_cases (length kw) (length (skipn k pre))) as [Hl|Hl].
  - apply has_prefix_app_r in E; [|exact Hl]. rewrite E in Hp. discriminate.
  - destruct rest as [|c r].
    + rewrite app_nil_r in E. apply has_prefix_length in E. lia.
    + apply Hr. exact (has_prefix_cut _ _ _ _ E Hl).
Qed.

Lemma quoted_strings_fuel_eq f g s : length s <= f -> length s <= g ->
  quoted_strings_fuel f s = quoted_strings_fuel g s.
Proof.
  revert g s. induction f as [|f IH]; intros g s Hf Hg.
  - destruct s; [destruct g; reflexivity|cbn in Hf; lia].
  - destruct s as [|c s1]; [destruct g; reflexivity|]. destruct g as [|g]; [cbn in Hg; lia|].
    cbn [length] in Hf, Hg. cbn [quoted_strings_fuel].
    destruct (is_quote c); [|apply IH; lia].
    pose proof (span_snd_length (fun c => negb (is_quote c)) s1) as Hl.
    destruct (span (fun c => negb (is_quote c)) s1) as [body s2]. cbn in Hl.
    destruct body as [|x body]; [apply IH; lia|].
    destruct s2 as [|y s3]; [apply IH; lia|]. cbn in Hl. f_equal. apply IH; lia.
Qed.

Lemma quoted_strings_enough f s : length s <= f -> quoted_strings_fuel f s = quoted_strings s.
Proof. intros H. apply quoted_strings_fuel_eq; [exact H|reflexivity]. Qed.

Lemma quoted_strings_noquote_cons c s : is_quote c = false -> quoted_strings (c :: s) = quoted_strings s.
Proof.
  intros Hc. unfold quoted_strings at 1. cbn [quoted_strings_fuel length]. rewrite Hc.
  apply quoted_strings_enough. lia.
Qed.

Lemma quoted_strings_noquote a s : forallb not_quote a = true -> quoted_strings (a ++ s) = quoted_strings s.
Proof.
  induction a as [|c a IH]; intros H; [reflexivity|]. cbn [forallb] in H.
  apply andb_prop in H as [Hc H]. cbn [app]. rewrite quoted_strings_noquote_cons; [apply IH, H|].
  unfold not_quote in Hc. destruct (is_quote c); [discriminate|reflexivity].
Qed.

Lemma quoted_strings_quoted c s : c <> [] -> forallb not_quote c = true ->
  quoted_strings (quoted c ++ s) = c :: quoted_strings s.
Proof.
  intros Hc Hq. unfold quoted. unfold quoted_strings at 1. cbn [lit list_ascii_of_string app].
  cbn [quoted_strings_fuel length]. change (is_quote "'"%char) with true. cbv iota.
  change (fun c0 : ascii => negb (is_quote c0)) with not_quote.
  rewrite <- app_assoc. cbn [app]. rewrite span_app_stop by (exact Hq || reflexivity).
  destruct c as [|x c]; [contradiction|]. f_equal. apply quoted_strings_enough.
  rewrite !length_app. cbn. lia.
Qed.

Lemma quoted_strings_join cs G :
  Forall (fun c => c <> [] /\ forallb not_quote c = true) cs ->
  Forall (fun p => forallb not_quote p = true) G ->
  quoted_strings (join (lit ", ") (map quoted cs ++ G)) = cs.
Proof.
  intros Hcs HG. induction Hcs as [|c cs [Hc Hcq] Hcs IH].
  - cbn [map app]. rewrite <- (app_nil_r (join _ G)). rewrite quoted_strings_noquote; [reflexivity|].
    apply forallb_join; [reflexivity|exact HG].
  - cbn [map app]. rewrite join_cons. rewrite quoted_strings_quoted by assumption. f_equal.
    destruct (map quoted cs ++ G) as [|p ps] eqn:E.
    + apply app_eq_nil in E as [E _]. apply map_eq_nil in E. subst cs. reflexivity.
    + change (lit ", " ++ join (lit ", ") (p :: ps))
        with ([","%char; " "%char] ++ join (lit ", ") (p :: ps)).
      rewrite quoted_strings_noquote by reflexivity. exact IH.
Qed.

Lemma gem_name_match_prefix s r : gem_name_match s = Some r -> has_prefix (lit "gem") s = true.
Proof.
  unfold gem_name_match. destruct s as [|g [|e [|m s1]]]; try discriminate.
  cbv beta iota. match goal with |- (if ?b then _ else _) = _ -> _ => destruct b eqn:E end;
    [|discriminate].
  intros _. apply andb_prop in E as [E Hm]. apply andb_prop in E as [Hg He].
  apply Ascii.eqb_eq in Hg, He, Hm. subst. reflexivity.
Qed.

Lemma replace_nogem f s : contains (lit "gem") s = false -> replace_gem_name_fuel f s = s.
Proof.
  revert s. induction f as [|f IH]; intros s H; [reflexivity|].
  destruct s as [|c s]; [reflexivity|]. cbn [replace_gem_name_fuel].
  cbn [contains] in H. apply orb_false_iff in H as [H1 H2].
  destruct (gem_name_match (c :: s)) as [r|] eqn:E.
  - apply gem_name_match_prefix in E. rewrite E in H1. discriminate.
  - rewrite IH by exact H2. reflexivity.
Qed.

Lemma gem_name_match_line n T : n <> [] -> forallb not_quote n = true ->
  gem_name_match (lit "gem '" ++ n ++ "'"%char :: T)
  = Some (snd (span is_re_space (match T with
                                 | c :: T' => if (c =? ",")%char then T' else T
                                 | [] => [] end))).
Proof.
  intros Hn Hq. unfold gem_name_match. cbn [lit list_ascii_of_string app].
  change ((("g" =? "g")%char && ("e" =? "e")%char && ("m" =? "m")%char)) with true. cbv iota beta.
  change (span is_re_space (" "%char :: "'"%char :: n ++ "'"%char :: T))
    with ((" "%char :: [], "'"%char :: n ++ "'"%char :: T)). cbv iota beta.
  change (is_quote "'"%char) with true. cbv iota beta.
  change (fun c0 : ascii => negb (is_quote c0)) with not_quote.
  rewrite span_app_stop by (exact Hq || reflexivity).
  destruct n as [|x n]; [contradiction|]. reflexivity.
Qed.

Lemma contains_quoted kw c : contains kw c = false -> kw <> [] -> ~ In "'"%char kw ->
  contains kw (quoted c) = false.
Proof.
  intros Hc Hk Hq. unfold quoted. cbn [lit list_ascii_of_string app].
  rewrite <- (app_nil_l ("'"%char :: _)). apply contains_app_sep; [apply contains_nil, Hk| |exact Hq].
  apply contains_app_sep; [exact Hc|apply contains_nil, Hk|exact Hq].
Qed.

Lemma contains_comma kw a b : contains kw a = false -> contains kw b = false -> kw <> [] ->
  ~ In ","%char kw -> ~ In " "%char kw -> contains kw (a ++ lit ", " ++ b) = false.
Proof.
  intros Ha Hb Hk H1 H2. cbn [lit list_ascii_of_string app]. apply contains_app_sep; [exact Ha| |exact H1].
  rewrite <- (app_nil_l (" "%char :: _)). apply contains_app_sep; [apply contains_nil, Hk|exact Hb|exact H2].
Qed.

Lemma word_nocolon g : forallb is_word_char g = true -> nocolon g = true.
Proof.
  unfold nocolon. intros H. apply forallb_forall. intros c Hc. rewrite forallb_forall in H.
  specialize (H c Hc). destruct (c =? ":")%char eqn:E; [|reflexivity].
  apply Ascii.eqb_eq in E. subst c. discriminate.
Qed.

Lemma colon_kw_notin w c : colon_kw w -> In c [","%char; " "%char; "'"%char; "["%char; "]"%char] ->
  ~ In c (w ++ [":"%char]).
Proof. intros (_ & _ & H) Hc. rewrite Forall_forall in H. exact (H c Hc). Qed.

Lemma colon_kw_nonnil w : w ++ [":"%char] <> [].
Proof. destruct w; discriminate. Qed.

Ltac kw_notin H := apply (colon_kw_notin _ _ H); cbn; tauto.

Lemma groups_part_contains w gs : colon_kw w -> words gs ->
  contains (w ++ [":"%char]) (lit "group: :") = false ->
  contains (w ++ [":"%char]) (lit "groups: ") = false ->
  contains (w ++ [":"%char]) [":"%char] = false ->
  Forall (fun p => contains (w ++ [":"%char]) p = false) (groups_part gs).
Proof.
  intros Hw Hgs H1 H2 H3. pose proof Hw as (Hwn & Hwc & _).
  unfold groups_part. destruct gs as [|g gs]; [constructor|].
  destruct (isDefaultGroup (g :: gs)); [constructor|].
  assert (Hg : Forall (fun g => nocolon g = true) (g :: gs)).
  { unfold words in Hgs. apply Forall_impl with (2 := Hgs). intros x [_ Hx]. apply word_nocolon, Hx. }
  destruct gs as [|g' gs].
  - constructor; [|constructor]. inversion Hg. apply contains_app_nocolon; assumption.
  - constructor; [|constructor].
    change (lit "groups: [") with (lit "groups: " ++ ["["%char]). rewrite <- app_assoc. cbn [app].
    apply contains_app_sep; [exact H2| |kw_notin Hw].
    apply contains_app_sep; [| apply contains_nil, colon_kw_nonnil | kw_notin Hw].
    apply contains_join; [apply colon_kw_nonnil|kw_notin Hw|kw_notin Hw|].
    apply Forall_map. apply Forall_impl with (2 := Hg). intros x Hx.
    apply (contains_app_nocolon w [":"%char] x); assumption.
Qed.

Lemma require_part_contains w r : colon_kw w ->
  match r with Some v => nocolon v = true | None => True end ->
  contains (w ++ [":"%char]) (lit "require: false") = false ->
  contains (w ++ [":"%char]) (lit "require: ") = false ->
  Forall (fun p => contains (w ++ [":"%char]) p = false) (require_part r).
Proof.
  intros Hw Hr H1 H2. pose proof Hw as (Hwn & Hwc & _).
  destruct r as [v|]; [|constructor]. unfold require_part.
  destruct (str_eqb v [] || str_eqb v (lit "false"));
    (apply Forall_cons; [|constructor]); [exact H1|].
  change (lit "require: " ++ quoted v) with (lit "require: " ++ "'"%char :: (v ++ ["'"%char])).
  apply contains_app_sep; [exact H2| |kw_notin Hw].
  apply contains_app_sep; [|apply contains_nil, colon_kw_nonnil|kw_notin Hw].
  apply contains_nocolon; [exact Hr|apply in_or_app; right; left; reflexivity].
Qed.

Lemma cs_contains w cs : colon_kw w -> Forall (fun c => nocolon c = true) cs ->
  Forall (fun p => contains (w ++ [":"%char]) p = false) (map quoted cs).
Proof.
  intros Hw Hcs. apply Forall_map. apply Forall_impl with (2 := Hcs). intros c Hc.
  apply contains_quoted; [|apply colon_kw_nonnil|kw_notin Hw].
  apply contains_nocolon; [exact Hc|apply in_or_app; right; left; reflexivity].
Qed.

Lemma gem_part_contains w n : colon_kw w -> nocolon n = true ->
  contains (w ++ [":"%char]) (lit "gem ") = false ->
  contains (w ++ [":"%char]) (lit "gem " ++ quoted n) = false.
Proof.
  intros Hw Hn H. unfold quoted. cbn [lit list_ascii_of_string]. cbn [app].
  change ("g"%char :: "e"%char :: "m"%char :: " "%char :: "'"%char :: n ++ ["'"%char])
    with (lit "gem " ++ "'"%char :: (n ++ ["'"%char])).
  apply contains_app_sep; [exact H| |kw_notin Hw].
  apply contains_app_sep; [|apply contains_nil, colon_kw_nonnil|kw_notin Hw].
  apply contains_nocolon; [exact Hn|apply in_or_app; right; left; reflexivity].
Qed.

Lemma notin_gem c : In c [","%char; " "%char; "'"%char; "["%char; "]"%char; ":"%char] -> ~ In c (lit "gem").
Proof. cbn. intros H Hin. intuition (subst; discriminate). Qed.

Ltac gem_notin := apply notin_gem; cbn; tauto.

Lemma others_nogem cs gs r :
  Forall (fun c => contains (lit "gem") c = false) cs ->
  Forall (fun g => contains (lit "gem") g = false) gs ->
  match r with Some v => contains (lit "gem") v = false | None => True end ->
  Forall (fun p => contains (lit "gem") p = false) (map quoted cs ++ groups_part gs ++ require_part r).
Proof.
  intros Hcs Hgs Hr. apply Forall_app. split; [|apply Forall_app; split].
  - apply Forall_map. apply Forall_impl with (2 := Hcs). intros c Hc.
    apply contains_quoted; [exact Hc|discriminate|gem_notin].
  - unfold groups_part. destruct gs as [|g gs]; [constructor|].
    destruct (isDefaultGroup (g :: gs)); [constructor|].
    destruct gs as [|g' gs].
    + constructor; [|constructor]. inversion Hgs; subst.
      change (lit "group: :" ++ g) with (lit "group: " ++ ":"%char :: g).
      apply contains_app_sep; [reflexivity|assumption|gem_notin].
    + constructor; [|constructor].
      change (lit "groups: [") with (lit "groups: " ++ ["["%char]). rewrite <- app_assoc. cbn [app].
      apply contains_app_sep; [reflexivity| |gem_notin].
      apply contains_app_sep; [|reflexivity|gem_notin].
      apply contains_join; [discriminate|gem_notin|gem_notin|].
      apply Forall_map. apply Forall_impl with (2 := Hgs). intros x Hx.
      rewrite <- (app_nil_l (":"%char :: x)). apply contains_app_sep; [reflexivity|exact Hx|gem_notin].
  - destruct r as [v|]; [|constructor]. unfold require_part.
    destruct (str_eqb v [] || str_eqb v (lit "false"));
      (apply Forall_cons; [|constructor]); [reflexivity|].
    change (lit "require: " ++ quoted v) with (lit "require: " ++ "'"%char :: (v ++ ["'"%char])).
    apply contains_app_sep; [reflexivity| |gem_notin].
    apply contains_app_sep; [exact Hr|reflexivity|gem_notin].
Qed.

Lemma index_of_skip kw pre rest : contains kw pre = false ->
  match rest with [] => True | c :: _ => ~ In c kw end ->
  index_of kw (pre ++ rest) = option_map (Nat.add (length pre)) (index_of kw rest).
Proof.
  intros Hc Hr. induction pre as [|x pre IH].
  - cbn [app length]. destruct (index_of kw rest); reflexivity.
  - cbn [contains] in Hc. apply orb_false_iff in Hc as [Hx Hc].
    cbn [app index_of]. destruct (has_prefix kw (x :: pre ++ rest)) eqn:E.
    + exfalso. change (x :: pre ++ rest) with ((x :: pre) ++ rest) in E.
      destruct (Nat.le_gt_cases (length kw) (length (x :: pre))) as [Hl|Hl].
      * apply has_prefix_app_r in E; [|exact Hl]. rewrite E in Hx. discriminate.
      * destruct rest as [|c r].
        -- rewrite app_nil_r in E. apply has_prefix_length in E. lia.
        -- apply Hr. exact (has_prefix_cut _ _ _ _ E Hl).
    + destruct pre as [|y pre'].
      * cbn [app]. destruct rest as [|c r]; cbn [index_of].
        -- destruct (has_prefix kw []); reflexivity.
        -- destruct (has_prefix kw (c :: r)); [reflexivity|]. destruct (index_of kw r); reflexivity.
      * rewrite (IH Hc). destruct (index_of kw rest); reflexivity.
Qed.

Lemma index_of_none kw s : contains kw s = false -> index_of kw s = None.
Proof.
  induction s as [|c s IH]; cbn [contains index_of]; intros H;
    apply orb_false_iff in H as [H1 H2]; rewrite H1; [reflexivity|]. rewrite (IH H2). reflexivity.
Qed.

Lemma index_of_here kw s : index_of kw (kw ++ s) = Some 0.
Proof.
  assert (E : forall t, has_prefix kw t = true -> index_of kw t = Some 0)
    by (intros [|c t] H; cbn [index_of]; rewrite H; reflexivity).
  apply E, has_prefix_app.
Qed.

Lemma search_none {A : Type} (m : str -> option A) kws s :
  (forall s x, m s = Some x -> exists kw, In kw kws /\ has_prefix kw s = true) ->
  Forall (fun kw => contains kw s = false) kws -> m [] = None -> search m s = None.
Proof.
  intros Hm Hk Hn. rewrite <- (app_nil_r s). rewrite (search_skip_free m kws s []).
  - cbn. rewrite Hn. reflexivity.
  - exact Hm.
  - apply Forall_impl with (2 := Hk). intros kw H. split; [exact H|exact I].
Qed.

Lemma quoted_after_kw kw plus s x : quoted_after kw plus s = Some x ->
  exists k, In k [kw] /\ has_prefix k s = true.
Proof.
  unfold quoted_after. destruct (has_prefix kw s) eqn:E; [|discriminate].
  intros _. exists kw. split; [left; reflexivity|exact E].
Qed.

Lemma require_at_kw s x : require_at s = Some x ->
  exists k, In k [lit "require:"] /\ has_prefix k s = true.
Proof.
  unfold require_at. destruct (has_prefix (lit "require:") s) eqn:E; [|discriminate].
  intros _. exists (lit "require:"). split; [left; reflexivity|exact E].
Qed.

Lemma optional_s_colon kw s :
  has_prefix kw s = true ->
  match match skipn (length kw) s with
        | c :: r' => if (c =? "s")%char then r' else skipn (length kw) s
        | [] => skipn (length kw) s end with
  | c :: _ => (c =? ":")%char = true
  | [] => False
  end ->
  exists k, In k [kw ++ [":"%char]; kw ++ lit "s:"] /\ has_prefix k s = true.
Proof.
  intros Hp H. apply has_prefix_inv in Hp. rewrite Hp in H |- *. rewrite skipn_length_app in H.
  destruct (skipn (length kw) s) as [|c r] eqn:E; [contradiction|].
  destruct (c =? "s")%char eqn:Es.
  - destruct r as [|d r]; [contradiction|]. apply Ascii.eqb_eq in Es, H. subst.
    exists (kw ++ lit "s:"). split; [right; left; reflexivity|].
    change ("s"%char :: ":"%char :: r) with (lit "s:" ++ r). rewrite app_assoc. apply has_prefix_app.
  - apply Ascii.eqb_eq in H. subst.
    exists (kw ++ [":"%char]). split; [left; reflexivity|].
    change (":"%char :: r) with ([":"%char] ++ r). rewrite app_assoc. apply has_prefix_app.
Qed.

Lemma bracket_after_kw kw s x : bracket_after kw s = Some x ->
  exists k, In k [kw ++ [":"%char]; kw ++ lit "s:"] /\ has_prefix k s = true.
Proof.
  unfold bracket_after. destruct (has_prefix kw s) eqn:E; [|discriminate].
  intros H. apply (optional_s_colon kw s E).
  destruct (match skipn (length kw) s with
            | c :: r' => if (c =? "s")%char then r' else skipn (length kw) s
            | [] => skipn (length kw) s end) as [|c r]; [discriminate|].
  destruct (c =? ":")%char; [reflexivity|discriminate].
Qed.

Lemma platform_symbol_at_kw s x : platform_symbol_at s = Some x ->
  exists k, In k [lit "platform" ++ [":"%char]; lit "platform" ++ lit "s:"] /\ has_prefix k s = true.
Proof.
  unfold platform_symbol_at. destruct (has_prefix (lit "platform") s) eqn:E; [|discriminate].
  intros H. apply (optional_s_colon (lit "platform") s E).
  change (length (lit "platform")) with 8.
  destruct (match skipn 8 s with
            | c :: r' => if (c =? "s")%char then r' else skipn 8 s
            | [] => skipn 8 s end) as [|c r]; [discriminate|].
  destruct (c =? ":")%char; [reflexivity|discriminate].
Qed.

Lemma formatGemLine_nosrc h dep : deref h (gd_Source dep) = None ->
  formatGemLine h dep = join (lit ", ") ((lit "gem " ++ quoted (gd_Name dep)) :: others dep).
Proof. intros H. unfold formatGemLine, others. rewrite H. reflexivity. Qed.

Lemma join_app_one sep P x : P <> [] -> join sep (P ++ [x]) = join sep P ++ sep ++ x.
Proof.
  intros HP. induction P as [|p P IH]; [contradiction|]. destruct P as [|q P].
  - reflexivity.
  - cbn [app]. rewrite (join_cons sep p (q :: P ++ [x])), (join_cons sep p (q :: P)).
    change (q :: P ++ [x]) with ((q :: P) ++ [x]). rewrite IH by discriminate.
    rewrite <- !app_assoc. reflexivity.
Qed.

Lemma join_app_mid sep P x R : P <> [] -> join sep (P ++ x :: R) = join sep P ++ sep ++ join sep (x :: R).
Proof.
  intros HP. induction P as [|p P IH]; [contradiction|]. destruct P as [|q P].
  - cbn [app]. rewrite join_cons. reflexivity.
  - cbn [app]. rewrite (join_cons sep p (q :: P ++ x :: R)), (join_cons sep p (q :: P)).
    change (q :: P ++ x :: R) with ((q :: P) ++ x :: R). rewrite IH by discriminate.
    rewrite <- !app_assoc. reflexivity.
Qed.

Lemma search_cons_none {A : Type} (m : str -> option A) c s : m (c :: s) = None ->
  search m (c :: s) = search m s.
Proof. intros H. cbn [search]. rewrite H. reflexivity. Qed.

Ltac solve_colon_kw :=
  split; [discriminate|split; [reflexivity|]];
  repeat constructor; cbn; intros Hin; repeat (destruct Hin as [Hin|Hin]; [discriminate Hin|]); exact Hin.

Lemma head_pieces_contains w dep : colon_kw w -> plain_dep dep ->
  contains (w ++ [":"%char]) (lit "gem ") = false ->
  Forall (fun p => contains (w ++ [":"%char]) p = false)
    ((lit "gem " ++ quoted (gd_Name dep)) :: map quoted (gd_Constraints dep)).
Proof.
  intros Hw (Hn & Hnq & Hnc & Hcs & _) H. constructor.
  - apply gem_part_contains; assumption.
  - apply cs_contains; [exact Hw|]. apply Forall_impl with (2 := Hcs). intros c (_ & _ & Hc & _). exact Hc.
Qed.

Lemma line_contains w h dep : colon_kw w -> plain_dep dep -> deref h (gd_Source dep) = None ->
  contains (w ++ [":"%char]) (lit "gem ") = false ->
  contains (w ++ [":"%char]) (lit "group: :") = false ->
  contains (w ++ [":"%char]) (lit "groups: ") = false ->
  contains (w ++ [":"%char]) [":"%char] = false ->
  contains (w ++ [":"%char]) (lit "require: false") = false ->
  contains (w ++ [":"%char]) (lit "require: ") = false ->
  contains (w ++ [":"%char]) (formatGemLine h dep) = false.
Proof.
  intros Hw Hd Hs H1 H2 H3 H4 H5 H6. rewrite formatGemLine_nosrc by exact Hs.
  apply contains_join; [apply colon_kw_nonnil|kw_notin Hw|kw_notin Hw|].
  pose proof (head_pieces_contains w dep Hw Hd H1) as Hh.
  destruct Hd as (_ & _ & _ & _ & Hg & _ & Hr).
  inversion Hh as [|x l Hx Hl]; subst. constructor; [exact Hx|]. unfold others.
  apply Forall_app. split; [exact Hl|]. apply Forall_app. split.
  - apply groups_part_contains; assumption.
  - apply require_part_contains; try assumption. destruct (gd_Require dep) as [v|]; [apply Hr|exact I].
Qed.

Lemma search_here {A : Type} (m : str -> option A) s a : m s = Some a -> search m s = Some a.
Proof. intros H. destruct s; cbn [search]; rewrite H; reflexivity. Qed.

Lemma formatGemLine_shape h dep : deref h (gd_Source dep) = None ->
  formatGemLine h dep = lit "gem '" ++ gd_Name dep ++ "'"%char
                          :: match others dep with [] => [] | _ => lit ", " ++ join (lit ", ") (others dep) end.
Proof.
  intros H. rewrite formatGemLine_nosrc by exact H. rewrite join_cons.
  unfold quoted. cbn [lit list_ascii_of_string app]. rewrite <- app_assoc. reflexivity.
Qed.

Lemma quoted_after_gem n T : n <> [] -> forallb not_quote n = true ->
  quoted_after (lit "gem") true (lit "gem '" ++ n ++ "'"%char :: T) = Some n.
Proof.
  intros Hn Hq. unfold quoted_after.
  change (lit "gem '" ++ n ++ "'"%char :: T) with (lit "gem" ++ " "%char :: "'"%char :: n ++ "'"%char :: T).
  rewrite has_prefix_app, skipn_length_app.
  change (span is_re_space (" "%char :: "'"%char :: n ++ "'"%char :: T))
    with ([" "%char], "'"%char :: n ++ "'"%char :: T). cbv iota beta.
  change (is_quote "'"%char) with true. cbv iota beta.
  rewrite span_app_stop by (exact Hq || reflexivity). destruct n; [contradiction|reflexivity].
Qed.

Lemma formatGemLine_name h dep : plain_dep dep -> deref h (gd_Source dep) = None ->
  search (quoted_after (lit "gem") true) (formatGemLine h dep) = Some (gd_Name dep).
Proof.
  intros (Hn & Hq & _) Hs. rewrite formatGemLine_shape by exact Hs.
  apply search_here, quoted_after_gem; assumption.
Qed.

Lemma formatGemLine_quoted_none kw h dep : colon_kw kw -> plain_dep dep -> deref h (gd_Source dep) = None ->
  contains (kw ++ [":"%char]) (lit "gem ") = false ->
  contains (kw ++ [":"%char]) (lit "group: :") = false ->
  contains (kw ++ [":"%char]) (lit "groups: ") = false ->
  contains (kw ++ [":"%char]) [":"%char] = false ->
  contains (kw ++ [":"%char]) (lit "require: false") = false ->
  contains (kw ++ [":"%char]) (lit "require: ") = false ->
  search (quoted_after (kw ++ [":"%char]) false) (formatGemLine h dep) = None.
Proof.
  intros Hw Hd Hs H1 H2 H3 H4 H5 H6. apply (search_none _ [kw ++ [":"%char]]).
  - intros s x E. apply quoted_after_kw in E. exact E.
  - constructor; [|constructor]. apply line_contains; assumption.
  - unfold quoted_after. destruct kw; reflexivity.
Qed.

Lemma formatGemLine_extractSource h dep : plain_dep dep -> deref h (gd_Source dep) = None ->
  extractSource (formatGemLine h dep) = None.
Proof.
  intros Hd Hs. unfold extractSource.
  change (lit "github:") with (lit "github" ++ [":"%char]).
  rewrite formatGemLine_quoted_none by (solve_colon_kw || assumption || reflexivity).
  change (lit "git:") with (lit "git" ++ [":"%char]).
  rewrite formatGemLine_quoted_none by (solve_colon_kw || assumption || reflexivity).
  change (lit "path:") with (lit "path" ++ [":"%char]).
  rewrite formatGemLine_quoted_none by (solve_colon_kw || assumption || reflexivity).
  reflexivity.
Qed.

Lemma formatGemLine_extractPlatforms h dep : plain_dep dep -> deref h (gd_Source dep) = None ->
  extractPlatforms (formatGemLine h dep) = [].
Proof.
  intros Hd Hs. unfold extractPlatforms.
  assert (Hk : Forall (fun kw => contains kw (formatGemLine h dep) = false)
                 [lit "platform" ++ [":"%char]; lit "platform" ++ lit "s:"]).
  { constructor; [|constructor; [|constructor]].
    - apply line_contains; (solve_colon_kw || assumption || reflexivity).
    - change (lit "platform" ++ lit "s:") with (lit "platforms" ++ [":"%char]).
      apply line_contains; (solve_colon_kw || assumption || reflexivity). }
  rewrite (search_none (bracket_after (lit "platform")) _ _ (bracket_after_kw _) Hk) by reflexivity.
  rewrite (search_none platform_symbol_at _ _ platform_symbol_at_kw Hk) by reflexivity.
  reflexivity.
Qed.

Lemma span_quote_strip s : match s with [] => True | c :: _ => is_quote c = false end ->
  snd (span is_quote ("'"%char :: s)) = s.
Proof. destruct s as [|c s]; [reflexivity|]. intros Hc. cbn [span]. rewrite Hc. reflexivity. Qed.

Lemma trim_quotes_quoted v : forallb not_quote v = true -> trim_quotes ("'"%char :: v ++ ["'"%char]) = v.
Proof.
  intros Hv. destruct v as [|x v]; [reflexivity|]. unfold trim_quotes.
  pose proof Hv as Hv'. cbn [forallb] in Hv'. apply andb_prop in Hv' as [Hx _].
  unfold not_quote in Hx. apply negb_true_iff in Hx.
  rewrite span_quote_strip by exact Hx. rewrite rev_app_distr.
  change (rev ["'"%char]) with ["'"%char]. cbn [app].
  rewrite span_quote_strip.
  - apply rev_involutive.
  - assert (Hr : forallb not_quote (rev (x :: v)) = true).
    { rewrite forallb_forall in *. intros c Hc. apply Hv, in_rev, Hc. }
    destruct (rev (x :: v)) as [|c r] eqn:E.
    + apply (f_equal (@length ascii)) in E. rewrite length_rev in E. discriminate.
    + cbn [forallb] in Hr. apply andb_prop in Hr as [Hc _]. apply negb_true_iff, Hc.
Qed.

Lemma require_at_quoted v T : forallb not_quote v = true ->
  require_at (lit "require: " ++ quoted v ++ T) = Some ("'"%char :: v ++ ["'"%char]).
Proof.
  intros Hv. unfold require_at, quoted.
  change (lit "require: " ++ (lit "'" ++ v ++ lit "'") ++ T)
    with (lit "require:" ++ " "%char :: "'"%char :: (v ++ ["'"%char]) ++ T).
  rewrite has_prefix_app. change 8 with (length (lit "require:")). rewrite skipn_length_app.
  change (snd (span is_re_space (" "%char :: "'"%char :: (v ++ ["'"%char]) ++ T)))
    with ("'"%char :: (v ++ ["'"%char]) ++ T).
  match goal with |- context [has_prefix (lit "false") ("'"%char :: ?X)] =>
    change (has_prefix (lit "false") ("'"%char :: X)) with false end.
  cbv iota beta. change (is_quote "'"%char) with true. cbv iota beta.
  rewrite <- app_assoc. cbn [app]. rewrite span_app_stop by (exact Hv || reflexivity). reflexivity.
Qed.

Lemma front_contains w dep : colon_kw w -> plain_dep dep ->
  contains (w ++ [":"%char]) (lit "gem ") = false ->
  contains (w ++ [":"%char]) (lit "group: :") = false ->
  contains (w ++ [":"%char]) (lit "groups: ") = false ->
  contains (w ++ [":"%char]) [":"%char] = false ->
  contains (w ++ [":"%char])
    (join (lit ", ") ((lit "gem " ++ quoted (gd_Name dep)) :: map quoted (gd_Constraints dep)
                      ++ groups_part (gd_Groups dep))) = false.
Proof.
  intros Hw Hd H1 H2 H3 H4.
  apply contains_join; [apply colon_kw_nonnil|kw_notin Hw|kw_notin Hw|].
  pose proof (head_pieces_contains w dep Hw Hd H1) as Hh.
  destruct Hd as (_ & _ & _ & _ & Hg & _).
  inversion Hh as [|x l Hx Hl]; subst. constructor; [exact Hx|].
  apply Forall_app. split; [exact Hl|]. apply groups_part_contains; assumption.
Qed.

Lemma comma_sp (X : str) : lit ", " ++ X = ","%char :: " "%char :: X.
Proof. reflexivity. Qed.

Lemma formatGemLine_extractRequire h dep : plain_dep dep -> deref h (gd_Source dep) = None ->
  extractRequire (formatGemLine h dep)
  = option_map (fun v => if str_eqb v (lit "false") then [] else v) (gd_Require dep).
Proof.
  intros Hd Hs. rewrite formatGemLine_nosrc by exact Hs. unfold others, extractRequire.
  assert (Hf : contains (lit "require" ++ [":"%char])
                 (join (lit ", ") ((lit "gem " ++ quoted (gd_Name dep)) :: map quoted (gd_Constraints dep)
                                   ++ groups_part (gd_Groups dep))) = false)
    by (apply front_contains; (solve_colon_kw || assumption || reflexivity)).
  pose proof Hd as (_ & _ & _ & _ & _ & _ & Hr).
  destruct (gd_Require dep) as [v|] eqn:Er.
  - destruct Hr as (Hvq & _ & _).
    rewrite app_comm_cons, app_assoc, <- app_comm_cons.
    unfold require_part. destruct (str_eqb v [] || str_eqb v (lit "false")) eqn:Ev;
      (rewrite join_app_one by discriminate;
       rewrite (search_skip_free require_at [lit "require:"]);
       [| exact require_at_kw
        | constructor; [split; [exact Hf|cbn; intuition discriminate]|constructor]];
       rewrite comma_sp;
       rewrite search_cons_none by reflexivity; rewrite search_cons_none by reflexivity).
    + rewrite (search_here _ _ (lit "false")) by reflexivity. cbn [option_map].
      change (str_eqb (lit "false") (lit "false")) with true. cbv iota. f_equal.
      apply orb_true_iff in Ev as [Ev|Ev].
      * apply str_eqb_true in Ev. subst v. reflexivity.
      * rewrite Ev. reflexivity.
    + change (list_ascii_of_string "require: ") with (lit "require: ").
      rewrite <- (app_nil_r (quoted v)), search_here with (a := "'"%char :: v ++ ["'"%char])
        by (apply require_at_quoted, Hvq).
      match goal with |- context [str_eqb ("'"%char :: ?X) (lit "false")] =>
        change (str_eqb ("'"%char :: X) (lit "false")) with false end.
      cbv iota. rewrite trim_quotes_quoted by exact Hvq. cbn [option_map].
      apply orb_false_iff in Ev as [_ Ev]. rewrite Ev. reflexivity.
  - cbn [require_part]. rewrite app_nil_r.
    rewrite (search_none require_at [lit "require:"]); [reflexivity|exact require_at_kw| |reflexivity].
    constructor; [exact Hf|constructor].
Qed.

Lemma tail_contains kw a R : kw <> [] -> ~ In ","%char kw -> ~ In " "%char kw ->
  contains kw a = false -> Forall (fun p => contains kw p = false) R ->
  contains kw (a ++ match R with [] => [] | _ => lit ", " ++ join (lit ", ") R end) = false.
Proof.
  intros Hk H1 H2 Ha HR. destruct R as [|p R]; [rewrite app_nil_r; exact Ha|].
  apply contains_comma; try assumption. apply contains_join; assumption.
Qed.

Lemma pr_contains w dep : colon_kw w -> plain_dep dep ->
  contains (w ++ [":"%char]) (lit "gem ") = false ->
  contains (w ++ [":"%char]) (lit "require: false") = false ->
  contains (w ++ [":"%char]) (lit "require: ") = false ->
  Forall (fun p => contains (w ++ [":"%char]) p = false)
    ((lit "gem " ++ quoted (gd_Name dep)) :: map quoted (gd_Constraints dep))
  /\ Forall (fun p => contains (w ++ [":"%char]) p = false) (require_part (gd_Require dep)).
Proof.
  intros Hw Hd H1 H2 H3. split; [apply head_pieces_contains; assumption|].
  destruct Hd as (_ & _ & _ & _ & _ & _ & Hr).
  apply require_part_contains; try assumption. destruct (gd_Require dep) as [v|]; [apply Hr|exact I].
Qed.

Lemma word_not_bracket g : forallb is_word_char g = true -> forallb (fun c => negb (c =? "]")%char) g = true.
Proof.
  rewrite !forallb_forall. intros H c Hc. specialize (H c Hc).
  destruct (c =? "]")%char eqn:E; [|reflexivity]. apply Ascii.eqb_eq in E. subst. discriminate.
Qed.

Lemma bracket_after_groups gs T : gs <> [] -> words gs ->
  bracket_after (lit "group")
    ((lit "groups: [" ++ join (lit ", ") (map (fun g => ":"%char :: g) gs) ++ lit "]") ++ T)
  = Some (join (lit ", ") (map (fun g => ":"%char :: g) gs)).
Proof.
  intros Hne Hw. unfold bracket_after.
  set (J := join (lit ", ") (map (fun g => ":"%char :: g) gs)).
  change ((lit "groups: [" ++ J ++ lit "]") ++ T)
    with (lit "group" ++ "s"%char :: ":"%char :: " "%char :: "["%char :: (J ++ ["]"%char]) ++ T).
  rewrite has_prefix_app, skipn_length_app. cbv iota beta zeta.
  change (("s" =? "s")%char) with true. change ((":" =? ":")%char) with true. cbv iota.
  change (snd (span is_re_space (" "%char :: "["%char :: (J ++ ["]"%char]) ++ T)))
    with ("["%char :: (J ++ ["]"%char]) ++ T).
  change (("[" =? "[")%char) with true. cbv iota.
  rewrite <- app_assoc. cbn [app]. rewrite span_app_stop.
  - destruct gs as [|g gs]; [contradiction|]. subst J. cbn [map]. rewrite join_cons. reflexivity.
  - subst J. apply forallb_join; [reflexivity|]. apply Forall_map.
    apply Forall_impl with (2 := Hw). intros g [_ Hg]. cbn [forallb]. apply word_not_bracket, Hg.
  - reflexivity.
Qed.

Lemma extractGroupOverrides_parts P gs R : P <> [] -> words gs ->
  Forall (fun p => contains (lit "group" ++ [":"%char]) p = false) P ->
  Forall (fun p => contains (lit "groups" ++ [":"%char]) p = false) P ->
  Forall (fun p => contains (lit "group" ++ [":"%char]) p = false) R ->
  Forall (fun p => contains (lit "groups" ++ [":"%char]) p = false) R ->
  extractGroupOverrides (join (lit ", ") (P ++ groups_part gs ++ R))
  = if 2 <=? length gs then gs else [].
Proof.
  intros HP Hw HP1 HP2 HR1 HR2. unfold extractGroupOverrides.
  change (lit "group" ++ lit "s:") with (lit "groups" ++ [":"%char]).
  assert (Hskip : forall Gt T, search (bracket_after (lit "group"))
                                 (join (lit ", ") P ++ lit ", " ++ Gt ++ T)
                               = search (bracket_after (lit "group")) (Gt ++ T)).
  { intros Gt T. rewrite (search_skip_free _ [lit "group" ++ [":"%char]; lit "groups" ++ [":"%char]]).
    - rewrite comma_sp. rewrite !search_cons_none by reflexivity. reflexivity.
    - intros s x E. apply bracket_after_kw in E. exact E.
    - repeat constructor; try (cbn; intuition discriminate).
      + apply contains_join; [discriminate|cbn; intuition discriminate|cbn; intuition discriminate|exact HP1].
      + apply contains_join; [discriminate|cbn; intuition discriminate|cbn; intuition discriminate|exact HP2]. }
  assert (Hnone : groups_part gs = [] ->
                  search (bracket_after (lit "group")) (join (lit ", ") (P ++ groups_part gs ++ R)) = None).
  { intros E. rewrite E. cbn [app].
    apply (search_none _ [lit "group" ++ [":"%char]; lit "groups" ++ [":"%char]]);
      [intros s x E'; apply bracket_after_kw in E'; exact E'| |reflexivity].
    repeat constructor; apply contains_join; try discriminate; try (cbn; intuition discriminate);
      apply Forall_app; split; assumption. }
  destruct gs as [|g [|g' gs]].
  - rewrite Hnone by reflexivity. reflexivity.
  - destruct (isDefaultGroup [g]) eqn:Ed.
    + rewrite Hnone by (cbn [groups_part]; rewrite Ed; reflexivity). reflexivity.
    + cbn [groups_part]. rewrite Ed. cbn [app].
      rewrite join_app_mid by exact HP. rewrite join_cons. rewrite Hskip.
      inversion Hw as [|x l [_ Hgw] _]; subst.
      change ((lit "group: :" ++ g) ++ ?T) with ("g"%char :: (lit "roup: :" ++ g) ++ T).
      rewrite search_cons_none by reflexivity.
      rewrite (search_none _ [lit "group" ++ [":"%char]; lit "groups" ++ [":"%char]]);
        [reflexivity|intros s x E'; apply bracket_after_kw in E'; exact E'| |reflexivity].
      repeat constructor; apply tail_contains; try discriminate; try (cbn; intuition discriminate);
        try assumption; apply (contains_app_nocolon _ (lit "roup: :") g); (reflexivity || apply word_nocolon, Hgw).
  - cbn [groups_part isDefaultGroup]. cbn [app].
    rewrite join_app_mid by exact HP. rewrite join_cons. rewrite Hskip.
    rewrite search_here with (a := join (lit ", ") (map (fun g => ":"%char :: g) (g :: g' :: gs)))
      by (apply bracket_after_groups; [discriminate|exact Hw]).
    rewrite <- (app_nil_r (join _ _)). apply symbols_join; [exact Hw|exact I|reflexivity].
Qed.

Lemma formatGemLine_extractGroupOverrides h dep : plain_dep dep -> deref h (gd_Source dep) = None ->
  extractGroupOverrides (formatGemLine h dep)
  = if 2 <=? length (gd_Groups dep) then gd_Groups dep else [].
Proof.
  intros Hd Hs. rewrite formatGemLine_nosrc by exact Hs. unfold others.
  destruct (pr_contains (lit "group") dep ltac:(solve_colon_kw) Hd eq_refl eq_refl eq_refl) as [HP1 HR1].
  destruct (pr_contains (lit "groups") dep ltac:(solve_colon_kw) Hd eq_refl eq_refl eq_refl) as [HP2 HR2].
  pose proof Hd as (_ & _ & _ & _ & Hw & _).
  rewrite app_comm_cons. apply extractGroupOverrides_parts; (discriminate || assumption).
Qed.

Lemma quoted_strings_join_suffix (cs G : list str) (t : str) :
  Forall (fun c => c <> [] /\ forallb not_quote c = true) cs ->
  Forall (fun p => forallb not_quote p = true) G -> forallb not_quote t = true ->
  quoted_strings (join (lit ", ") (map quoted cs ++ G) ++ t) = cs.
Proof.
  intros Hcs HG Ht.
  assert (Hnil : quoted_strings t = []).
  { rewrite <- (app_nil_r t), quoted_strings_noquote by exact Ht. reflexivity. }
  induction Hcs as [|c cs [Hc Hcq] Hcs IH].
  - cbn [map app]. rewrite quoted_strings_noquote; [exact Hnil|].
    apply forallb_join; [reflexivity|exact HG].
  - cbn [map app]. rewrite join_cons, <- app_assoc. rewrite quoted_strings_quoted by assumption. f_equal.
    destruct (map quoted cs ++ G) as [|p ps] eqn:E.
    + apply app_eq_nil in E as [E _]. apply map_eq_nil in E. subst cs. exact Hnil.
    + rewrite comma_sp. cbn [app].
      rewrite (quoted_strings_noquote_cons ","%char) by reflexivity.
      rewrite (quoted_strings_noquote_cons " "%char) by reflexivity. exact IH.
Qed.

Lemma index_of_cons_skip kw c s : has_prefix kw (c :: s) = false ->
  index_of kw (c :: s) = option_map S (index_of kw s).
Proof. intros H. destruct kw as [|k kw]; [discriminate|]. cbn [index_of]. rewrite H. reflexivity. Qed.

Lemma index_of_at kw x : has_prefix kw x = true -> index_of kw x = Some 0.
Proof. intros H. destruct x; cbn [index_of]; rewrite H; reflexivity. Qed.

Lemma versions_cut (cs G : list str) (x kw : str) :
  Forall (fun c => c <> [] /\ forallb not_quote c = true) cs ->
  Forall (fun p => forallb not_quote p = true) G ->
  Forall (fun p => contains kw p = false) (map quoted cs ++ G) ->
  kw <> [] -> ~ In ","%char kw -> ~ In " "%char kw ->
  (forall s, has_prefix kw (","%char :: s) = false) -> (forall s, has_prefix kw (" "%char :: s) = false) ->
  has_prefix kw x = true ->
  exists i, index_of kw (join (lit ", ") (map quoted cs ++ G ++ [x])) = Some i
            /\ quoted_strings (firstn i (join (lit ", ") (map quoted cs ++ G ++ [x]))) = cs.
Proof.
  intros Hcs HG Hk Hkn H1 H2 Hc Hs Hx. rewrite app_assoc.
  destruct (map quoted cs ++ G) as [|p ps] eqn:E.
  - exists 0. rewrite app_nil_l, join_cons, app_nil_r. split; [apply index_of_at, Hx|].
    apply app_eq_nil in E as [E _]. apply map_eq_nil in E. subst cs. reflexivity.
  - rewrite join_app_one by discriminate.
    exists (length (join (lit ", ") (p :: ps)) + 2). split.
    + rewrite index_of_skip.
      * rewrite comma_sp, index_of_cons_skip, index_of_cons_skip, index_of_at by auto. reflexivity.
      * apply contains_join; assumption.
      * exact H1.
    + rewrite firstn_app_2. rewrite comma_sp. cbn [firstn]. rewrite <- E.
      apply quoted_strings_join_suffix; [exact Hcs|exact HG|reflexivity].
Qed.

Lemma others_heads dep : Forall head_nonblank (others dep).
Proof.
  unfold others. apply Forall_app. split; [|apply Forall_app; split].
  - apply Forall_map, Forall_forall. intros c _. exact eq_refl.
  - destruct (gd_Groups dep) as [|g [|g' gs]]; cbn [groups_part]; [constructor| |];
      destruct isDefaultGroup; repeat constructor.
  - destruct (gd_Require dep) as [v|]; cbn [require_part]; [|constructor].
    destruct (str_eqb v [] || str_eqb v (lit "false")); repeat constructor.
Qed.

Lemma span_blank_stop Y : match Y with c :: _ => is_re_space c = false | [] => True end ->
  snd (span is_re_space Y) = Y.
Proof. destruct Y as [|c Y]; [reflexivity|]. intros H. cbn [span]. rewrite H. reflexivity. Qed.

Lemma span_snd_cons (p : ascii -> bool) c Y : p c = true -> snd (span p (c :: Y)) = snd (span p Y).
Proof. intros H. cbn [span]. rewrite H. destruct (span p Y). reflexivity. Qed.

Lemma remove_gem_name_format h dep : plain_dep dep -> deref h (gd_Source dep) = None ->
  remove_gem_name (formatGemLine h dep) = join (lit ", ") (others dep).
Proof.
  intros Hd Hs. pose proof Hd as (Hn & Hq & _ & Hcs & _ & Hg & Hr).
  assert (Hno : contains (lit "gem") (join (lit ", ") (others dep)) = false).
  { apply contains_join; [discriminate|gem_notin|gem_notin|]. apply others_nogem.
    - apply Forall_impl with (2 := Hcs). intros c (_ & _ & _ & Hc). exact Hc.
    - exact Hg.
    - destruct (gd_Require dep) as [v|]; [apply Hr|exact I]. }
  pose proof (others_heads dep) as Hh.
  rewrite formatGemLine_shape by exact Hs. unfold remove_gem_name.
  set (T := match others dep with [] => [] | _ => lit ", " ++ join (lit ", ") (others dep) end).
  pose proof (gem_name_match_line (gd_Name dep) T Hn Hq) as Hm.
  change (lit "gem '" ++ ?X) with ("g"%char :: lit "em '" ++ X) in Hm |- *.
  cbn [length replace_gem_name_fuel]. rewrite Hm.
  assert (E : snd (span is_re_space match T with
                                    | c :: T' => if (c =? ",")%char then T' else T
                                    | [] => [] end) = join (lit ", ") (others dep)).
  { subst T. destruct (others dep) as [|p ps]; [reflexivity|].
    rewrite comma_sp. cbv iota beta. change ((","%char =? ","%char)%char) with true. cbv iota.
    rewrite span_snd_cons by reflexivity.
    apply span_blank_stop. rewrite join_cons. inversion Hh as [|x l Hp _]; subst.
    destruct p as [|c p]; [contradiction|exact Hp]. }
  rewrite E. apply replace_nogem, Hno.
Qed.

Lemma word_not_quote g : forallb is_word_char g = true -> forallb not_quote g = true.
Proof.
  rewrite !forallb_forall. intros H c Hc. specialize (H c Hc).
  destruct (not_quote c) eqn:E; [reflexivity|]. unfold not_quote in E. apply negb_false_iff in E.
  unfold is_quote in E. apply orb_true_iff in E as [E|E]; apply Nat.eqb_eq in E;
    apply (f_equal ascii_of_nat) in E; rewrite ascii_nat_embedding in E; subst c; discriminate.
Qed.

Lemma groups_part_noquote gs : words gs -> Forall (fun p => forallb not_quote p = true) (groups_part gs).
Proof.
  intros Hw. destruct gs as [|g [|g' gs]]; cbn [groups_part]; [constructor| |];
    destruct isDefaultGroup; try constructor; try constructor.
  - inversion Hw as [|x l [_ Hg] _]; subst. rewrite forallb_app. rewrite (word_not_quote g Hg). reflexivity.
  - rewrite !forallb_app. rewrite forallb_join; [reflexivity|reflexivity|].
    apply Forall_map. apply Forall_impl with (2 := Hw). intros x [_ Hx]. cbn [forallb].
    rewrite (word_not_quote x Hx). reflexivity.
Qed.

Lemma formatGemLine_extractVersionConstraints h dep : plain_dep dep -> deref h (gd_Source dep) = None ->
  extractVersionConstraints (formatGemLine h dep) = gd_Constraints dep.
Proof.
  intros Hd Hs. unfold extractVersionConstraints. rewrite remove_gem_name_format by assumption.
  unfold others, optionsStart.
  pose proof Hd as (_ & _ & _ & Hcs & Hw & _ & Hr).
  assert (Hcq : Forall (fun c => c <> [] /\ forallb not_quote c = true) (gd_Constraints dep))
    by (apply Forall_impl with (2 := Hcs); intros c (H1 & H2 & _); split; assumption).
  assert (Hcc : Forall (fun c => nocolon c = true) (gd_Constraints dep))
    by (apply Forall_impl with (2 := Hcs); intros c (_ & _ & H3 & _); exact H3).
  pose proof (groups_part_noquote _ Hw) as HG.
  change (lit "require:") with (lit "require" ++ [":"%char]).
  change (lit "github:") with (lit "github" ++ [":"%char]).
  change (lit "path:") with (lit "path" ++ [":"%char]).
  change (lit "groups:") with (lit "groups" ++ [":"%char]).
  change (lit "platforms:") with (lit "platforms" ++ [":"%char]).
  destruct (gd_Require dep) as [v|] eqn:Er.
  - assert (Hk : Forall (fun p => contains (lit "require" ++ [":"%char]) p = false)
                   (map quoted (gd_Constraints dep) ++ groups_part (gd_Groups dep))).
    { apply Forall_app. split; [apply cs_contains; [solve_colon_kw|exact Hcc]|].
      apply groups_part_contains; (solve_colon_kw || assumption || reflexivity). }
    assert (HR : exists Rt, require_part (Some v) = [Rt] /\ has_prefix (lit "require" ++ [":"%char]) Rt = true).
    { unfold require_part. destruct (str_eqb v [] || str_eqb v (lit "false")).
      - exists (lit "require: false"). split; reflexivity.
      - exists (lit "require: " ++ quoted v). split; reflexivity. }
    destruct HR as (Rt & ER & HRt). rewrite ER.
    destruct (versions_cut (gd_Constraints dep) (groups_part (gd_Groups dep)) Rt
                (lit "require" ++ [":"%char])) as (i & Hi & Hq);
      try (exact Hcq || exact HG || exact Hk || exact HRt || discriminate || reflexivity
           || (cbn; intuition discriminate)).
    rewrite Hi. exact Hq.
  - cbn [require_part]. rewrite app_nil_r.
    assert (Hnone : forall w, colon_kw w ->
              Forall (fun p => contains (w ++ [":"%char]) p = false) (groups_part (gd_Groups dep)) ->
              index_of (w ++ [":"%char])
                (join (lit ", ") (map quoted (gd_Constraints dep) ++ groups_part (gd_Groups dep))) = None).
    { intros w Hcw HGw. apply index_of_none, contains_join;
        [apply colon_kw_nonnil|kw_notin Hcw|kw_notin Hcw|].
      apply Forall_app. split; [apply cs_contains; assumption|exact HGw]. }
    rewrite !Hnone
      by (solve_colon_kw || (apply groups_part_contains; (solve_colon_kw || assumption || reflexivity))).
    destruct (gd_Groups dep) as [|g [|g' gs]] eqn:Eg.
    + rewrite !Hnone by (solve_colon_kw || constructor).
      apply quoted_strings_join; [exact Hcq|exact HG].
    + inversion Hw as [|x l [_ Hgw] _]; subst.
      assert (H1 : forall w, colon_kw w -> contains (w ++ [":"%char]) (lit "group: :") = false ->
                Forall (fun p => contains (w ++ [":"%char]) p = false) (groups_part [g])).
      { intros w Hcw Hc. cbn [groups_part]. destruct (isDefaultGroup [g]); constructor; [|constructor].
        apply contains_app_nocolon; [apply Hcw|exact Hc|apply word_nocolon, Hgw]. }
      rewrite !Hnone by (solve_colon_kw || (apply H1; (solve_colon_kw || reflexivity))).
      apply quoted_strings_join; [exact Hcq|exact HG].
    + cbn [groups_part isDefaultGroup].
      change (map quoted (gd_Constraints dep)
                ++ [lit "groups: [" ++ join (lit ", ") (map (fun g0 => ":"%char :: g0) (g :: g' :: gs)) ++ lit "]"])
        with (map quoted (gd_Constraints dep) ++ @nil str
                ++ @cons str (lit "groups: [" ++ join (lit ", ") (map (fun g0 => ":"%char :: g0) (g :: g' :: gs))
                              ++ lit "]") (@nil str)).
      assert (HP : has_prefix (lit "groups" ++ [":"%char])
                     (lit "groups: [" ++ join (lit ", ") (map (fun g0 => ":"%char :: g0) (g :: g' :: gs))
                      ++ lit "]") = true) by reflexivity.
      assert (HK : Forall (fun p => contains (lit "groups" ++ [":"%char]) p = false)
                     (map quoted (gd_Constraints dep) ++ []))
        by (rewrite app_nil_r; apply cs_contains; [solve_colon_kw|exact Hcc]).
      destruct (versions_cut (gd_Constraints dep) []
                  (lit "groups: [" ++ join (lit ", ") (map (fun g0 => ":"%char :: g0) (g :: g' :: gs)) ++ lit "]")
                  (lit "groups" ++ [":"%char])) as (i & Hi & Hq);
        try (exact Hcq || exact HP || exact HK || constructor || discriminate || reflexivity
             || (cbn; intuition discriminate)).
      rewrite Hi. exact Hq.
Qed.

(** X14. A gem line written by [formatGemLine] for a dependency with no
    source, whose name and constraints are non-empty texts, none of them
    nor the require value holding a quote or a colon (nor, the name apart,
    the word gem), and whose groups are words without gem, is read back by
    [parseGemLine] with the same name and constraints, the require value
    with false read back as the empty text, no platforms, the origin of
    the enclosing block, and its groups only when there are two or more: a
    single group is written as group: and not read back, and the current
    groups are kept. *)
Theorem parseGemLine_formatGemLine h dep cg cur h0 :
  plain_dep dep -> deref h (gd_Source dep) = None ->
  parseGemLine (formatGemLine h dep) cg cur h0 =
  Ok (mkGemDependency (gd_Name dep) (gd_Constraints dep) (fst (parseGemLine_source None cur h0))
        (if 2 <=? length (gd_Groups dep) then gd_Groups dep else cg)
        (option_map (fun v => if str_eqb v (lit "false") then [] else v) (gd_Require dep)) [] [],
      snd (parseGemLine_source None cur h0)).
Proof.
  intros Hd Hs. unfold parseGemLine.
  rewrite formatGemLine_name, formatGemLine_extractVersionConstraints, formatGemLine_extractSource,
    formatGemLine_extractRequire, formatGemLine_extractGroupOverrides, formatGemLine_extractPlatforms
    by assumption.
  destruct (parseGemLine_source None cur h0) as [src h1]. cbn [fst snd].
  destruct (2 <=? length (gd_Groups dep)) eqn:E; [|reflexivity].
  destruct (gd_Groups dep) as [|g gs]; [discriminate|reflexivity].
Qed.

Lemma parseGemLine_formatGemLine_witness :
  parseGemLine
    (formatGemLine [] (mkGemDependency (lit "rack") [lit "~> 2.0"] None [lit "development"; lit "test"]
                         (Some (lit "rack/lite")) [] []))
    [lit "default"] None []
  = Ok (mkGemDependency (lit "rack") [lit "~> 2.0"] None [lit "development"; lit "test"]
          (Some (lit "rack/lite")) [] [], []).
Proof.
  apply (parseGemLine_formatGemLine [] (mkGemDependency (lit "rack") [lit "~> 2.0"] None
                                          [lit "development"; lit "test"] (Some (lit "rack/lite")) [] [])
           [lit "default"] None []); [|reflexivity].
  unfold plain_dep. cbn [gd_Name gd_Constraints gd_Groups gd_Require].
  repeat split; try discriminate; try reflexivity; repeat constructor; discriminate.
Defined.

Lemma quoted_after_line kw plus v T : v <> [] -> forallb not_quote v = true ->
  quoted_after kw plus (kw ++ " "%char :: "'"%char :: v ++ "'"%char :: T) = Some v.
Proof.
  intros Hn Hq. unfold quoted_after. rewrite has_prefix_app, skipn_length_app.
  change (span is_re_space (" "%char :: "'"%char :: v ++ "'"%char :: T))
    with ([" "%char], "'"%char :: v ++ "'"%char :: T). cbv iota beta.
  rewrite andb_false_r. change (is_quote "'"%char) with true. cbv iota beta.
  rewrite span_app_stop by (exact Hq || reflexivity). destruct v; [contradiction|reflexivity].
Qed.

Lemma contains_app_here kw a b : kw <> [] -> contains kw (a ++ kw ++ b) = true.
Proof.
  intros Hk. induction a as [|c a IH].
  - destruct kw as [|k kw]; [contradiction|]. cbn [app contains].
    change (k :: kw ++ b) with ((k :: kw) ++ b). rewrite has_prefix_app. reflexivity.
  - cbn [app contains]. rewrite IH. apply orb_true_r.
Qed.

(** X15. A line made of source, a blank and a non-empty address without
    quotes in single quotes, optionally followed by a blank and do, where
    the address does not contain a blank followed by do, is read by
    [parseSource] as a rubygems source with that address, opening a block
    exactly when the blank and do follow. *)
Theorem parseSource_line url (b : bool) : url <> [] -> forallb not_quote url = true ->
  contains (lit " do") url = false ->
  parseSource (lit "source " ++ quoted url ++ (if b then lit " do" else []))
  = Ok (mkSource (lit "rubygems") url [] [] [], b).
Proof.
  intros Hn Hq Hd. unfold parseSource, quoted. rewrite <- !app_assoc.
  change (lit "source " ++ lit "'" ++ url ++ lit "'" ++ (if b then lit " do" else []))
    with (lit "source" ++ " "%char :: "'"%char :: url ++ "'"%char :: (if b then lit " do" else [])).
  rewrite search_here with (a := url) by (apply quoted_after_line; assumption).
  do 2 f_equal. destruct b.
  - change (lit "source" ++ " "%char :: "'"%char :: url ++ "'"%char :: lit " do")
      with (lit "source '" ++ url ++ "'"%char :: lit " do").
    replace (lit "source '" ++ url ++ "'"%char :: lit " do")
      with ((lit "source '" ++ url ++ ["'"%char]) ++ lit " do" ++ [])
      by (rewrite <- !app_assoc; reflexivity).
    apply contains_app_here. discriminate.
  - change (lit "source" ++ " "%char :: "'"%char :: url ++ ["'"%char])
      with (lit "source " ++ "'"%char :: url ++ "'"%char :: []).
    apply contains_app_sep; [reflexivity| |cbn; intuition discriminate].
    apply contains_app_sep; [exact Hd|reflexivity|cbn; intuition discriminate].
Qed.

Lemma parseSource_line_witness :
  parseSource (lit "source " ++ quoted (lit "https://gem.coop") ++ (if true then lit " do" else []))
  = Ok (mkSource (lit "rubygems") (lit "https://gem.coop") [] [] [], true).
Proof. apply parseSource_line; [discriminate|reflexivity|reflexivity]. Defined.

(** X16. A ruby line giving a non-empty version without quotes, whatever
    follows it, is read by [parseRubyVersion] as that version. *)
Theorem parseRubyVersion_line v T : v <> [] -> forallb not_quote v = true ->
  parseRubyVersion (lit "ruby " ++ quoted v ++ T) = v.
Proof.
  intros Hn Hq. unfold parseRubyVersion.
  change (lit "ruby " ++ quoted v ++ T) with (lit "ruby" ++ " "%char :: "'"%char :: (v ++ ["'"%char]) ++ T).
  rewrite <- app_assoc. cbn [app].
  rewrite search_here with (a := v) by (apply quoted_after_line; assumption). reflexivity.
Qed.

Lemma parseRubyVersion_line_witness :
  parseRubyVersion (lit "ruby " ++ quoted (lit "3.3.0") ++ lit " # pinned") = lit "3.3.0".
Proof. apply parseRubyVersion_line; [discriminate|reflexivity]. Defined.

(** X17. An assignment of a non-empty quoted value without quotes to a
    word, as in name = and the quoted value, is read by [parseVariable] as
    that name and value, whatever follows. *)
Theorem parseVariable_line x v T : x <> [] -> forallb is_word_char x = true ->
  v <> [] -> forallb not_quote v = true ->
  parseVariable (x ++ lit " = " ++ quoted v ++ T) = (x, v).
Proof.
  intros Hx Hxw Hn Hq. unfold parseVariable.
  change (x ++ lit " = " ++ quoted v ++ T) with (x ++ " "%char :: "="%char :: " "%char :: "'"%char :: (v ++ ["'"%char]) ++ T).
  rewrite span_app_stop by (exact Hxw || reflexivity).
  destruct x as [|c x]; [contradiction|]. cbv iota beta.
  change (snd (span is_re_space (" "%char :: "="%char :: " "%char :: "'"%char :: (v ++ ["'"%char]) ++ T)))
    with ("="%char :: " "%char :: "'"%char :: (v ++ ["'"%char]) ++ T).
  change (("=" =? "=")%char) with true. cbv iota.
  rewrite <- app_assoc. cbn [app].
  pose proof (quoted_after_line [] false v T Hn Hq) as E. cbn [app] in E. rewrite E. reflexivity.
Qed.

Lemma parseVariable_line_witness :
  parseVariable (lit "rails_version" ++ lit " = " ++ quoted (lit "~> 8.0.1") ++ [])
  = (lit "rails_version", lit "~> 8.0.1").
Proof. apply parseVariable_line; (discriminate || reflexivity). Defined.

Lemma bracket_after_plural kw gs T : gs <> [] -> words gs ->
  bracket_after kw (kw ++ lit "s: [" ++ join (lit ", ") (map (fun g => ":"%char :: g) gs) ++ lit "]" ++ T)
  = Some (join (lit ", ") (map (fun g => ":"%char :: g) gs)).
Proof.
  intros Hne Hw. unfold bracket_after.
  set (J := join (lit ", ") (map (fun g => ":"%char :: g) gs)).
  change (lit "s: [" ++ J ++ lit "]" ++ T) with ("s"%char :: ":"%char :: " "%char :: "["%char :: J ++ "]"%char :: T).
  rewrite has_prefix_app, skipn_length_app. cbv iota beta zeta.
  change (("s" =? "s")%char) with true. change ((":" =? ":")%char) with true. cbv iota.
  change (snd (span is_re_space (" "%char :: "["%char :: J ++ "]"%char :: T)))
    with ("["%char :: J ++ "]"%char :: T).
  change (("[" =? "[")%char) with true. cbv iota.
  rewrite span_app_stop.
  - destruct gs as [|g gs]; [contradiction|]. subst J. cbn [map]. rewrite join_cons. reflexivity.
  - subst J. apply forallb_join; [reflexivity|]. apply Forall_map.
    apply Forall_impl with (2 := Hw). intros g [_ Hg]. cbn [forallb]. apply word_not_bracket, Hg.
  - reflexivity.
Qed.

(** X18. When a line carries a platforms option listing word symbols in
    brackets, after a comma and a text with no platform option,
    [extractPlatforms] reads exactly those platforms, in order, whatever
    follows the closing bracket. *)
Theorem extractPlatforms_bracket pre ps T : ps <> [] -> words ps ->
  contains (lit "platform:") pre = false -> contains (lit "platforms:") pre = false ->
  extractPlatforms (pre ++ lit ", platforms: [" ++ join (lit ", ") (map (fun p => ":"%char :: p) ps)
                    ++ lit "]" ++ T) = ps.
Proof.
  intros Hne Hw H1 H2. unfold extractPlatforms.
  rewrite (search_skip_free _ [lit "platform" ++ [":"%char]; lit "platform" ++ lit "s:"]).
  - change (lit ", platforms: [" ++ ?X) with (","%char :: " "%char :: (lit "platform" ++ lit "s: [" ++ X)).
    rewrite !search_cons_none by reflexivity.
    rewrite search_here with (a := join (lit ", ") (map (fun p => ":"%char :: p) ps))
      by (apply bracket_after_plural; assumption).
    rewrite <- (app_nil_r (join _ _)). apply symbols_join; [exact Hw|exact I|reflexivity].
  - intros s x E. apply bracket_after_kw in E. exact E.
  - repeat constructor; (assumption || (cbn; intuition discriminate)).
Qed.

Lemma extractPlatforms_bracket_witness :
  extractPlatforms (lit "gem 'pg'" ++ lit ", platforms: [" ++ join (lit ", ") (map (fun p => ":"%char :: p)
                      [lit "mri"; lit "mingw"]) ++ lit "]" ++ lit ", require: false")
  = [lit "mri"; lit "mingw"].
Proof.
  apply extractPlatforms_bracket; [discriminate| |reflexivity|reflexivity].
  repeat constructor; (discriminate || reflexivity).
Defined.

Lemma text_quoted_contains w a v : colon_kw w -> nocolon v = true ->
  contains (w ++ [":"%char]) a = false -> contains (w ++ [":"%char]) (a ++ quoted v) = false.
Proof.
  intros Hw Hv H. change (quoted v) with ("'"%char :: (v ++ ["'"%char])).
  apply contains_app_sep; [exact H| |kw_notin Hw].
  apply contains_app_sep; [|apply contains_nil, colon_kw_nonnil|kw_notin Hw].
  apply contains_nocolon; [exact Hv|apply in_or_app; right; left; reflexivity].
Qed.

Lemma TrimSpace_g_quote X : TrimSpace ("g"%char :: X ++ ["'"%char]) = "g"%char :: X ++ ["'"%char].
Proof.
  unfold TrimSpace, trim_left_space, trim_right_space, strip.
  cbn [length strip_fuel].
  change (lead_enc space_encodings ("g"%char :: X ++ ["'"%char])) with (@None nat). cbv iota.
  assert (HR : rev ("g"%char :: X ++ ["'"%char]) = "'"%char :: (rev X ++ ["g"%char])).
  { cbn [rev]. rewrite rev_app_distr. reflexivity. }
  rewrite HR. cbn [length strip_fuel].
  change (lead_enc (map (@rev ascii) space_encodings) ("'"%char :: (rev X ++ ["g"%char]))) with (@None nat).
  cbv iota. rewrite <- HR. apply rev_involutive.
Qed.

Lemma dev_group_at_kw s x : dev_group_at s = Some x ->
  exists k, In k [lit "development_group:"] /\ has_prefix k s = true.
Proof.
  unfold dev_group_at. destruct (has_prefix (lit "development_group:") s) eqn:E; [|discriminate].
  intros _. exists (lit "development_group:"). split; [left; reflexivity|exact E].
Qed.

Lemma dev_group_at_line g c R : g <> [] -> forallb is_word_char g = true -> is_word_char c = false ->
  dev_group_at (lit "development_group: :" ++ g ++ c :: R) = Some g.
Proof.
  intros Hn Hg Hc. unfold dev_group_at.
  change (lit "development_group: :" ++ g ++ c :: R)
    with (lit "development_group:" ++ " "%char :: ":"%char :: g ++ c :: R).
  rewrite has_prefix_app. change 18 with (length (lit "development_group:")). rewrite skipn_length_app.
  change (snd (span is_re_space (" "%char :: ":"%char :: g ++ c :: R))) with (":"%char :: g ++ c :: R).
  change ((":" =? ":")%char) with true. cbv iota.
  rewrite span_app_stop by assumption. destruct g; [contradiction|reflexivity].
Qed.

(** X19. A directive gemspec development_group: :g, path: 'p', name: 'n',
    where [g] is a non-empty word and [p] and [n] are non-empty texts
    without quotes or colons, is read by [parseGemspecDirective] as a
    reference with path [p], name [n], development group [g] and the
    default glob. *)
Theorem parseGemspecDirective_line g p n :
  g <> [] -> forallb is_word_char g = true ->
  p <> [] -> forallb not_quote p = true -> nocolon p = true ->
  n <> [] -> forallb not_quote n = true -> nocolon n = true ->
  parseGemspecDirective (lit "gemspec development_group: :" ++ g ++ lit ", path: " ++ quoted p
                         ++ lit ", name: " ++ quoted n)
  = mkGemspecReference p n g (lit "{,*,*/*}.gemspec").
Proof.
  intros Hg Hgw Hp Hpq Hpc Hn Hnq Hnc.
  set (A := lit "gemspec development_group: :" ++ g).
  set (PP := lit "path: " ++ quoted p). set (NN := lit "name: " ++ quoted n).
  assert (EqJ : lit "gemspec development_group: :" ++ g ++ lit ", path: " ++ quoted p
                  ++ lit ", name: " ++ quoted n = A ++ lit ", " ++ PP ++ lit ", " ++ NN)
    by (subst A PP NN; rewrite <- !app_assoc; reflexivity).
  assert (HgC : nocolon g = true) by (apply word_nocolon, Hgw).
  assert (HA : forall w, colon_kw w -> contains (w ++ [":"%char]) (lit "gemspec development_group: :") = false ->
                 contains (w ++ [":"%char]) A = false)
    by (intros w Hw H; apply contains_app_nocolon; [apply Hw|exact H|exact HgC]).
  unfold parseGemspecDirective. rewrite EqJ.
  assert (HT : TrimSpace (A ++ lit ", " ++ PP ++ lit ", " ++ NN) = A ++ lit ", " ++ PP ++ lit ", " ++ NN).
  { replace (A ++ lit ", " ++ PP ++ lit ", " ++ NN)
      with ("g"%char :: (lit "emspec development_group: :" ++ g ++ lit ", path: " ++ quoted p
                         ++ lit ", name: '" ++ n) ++ ["'"%char])
      by (subst A PP NN; unfold quoted; rewrite <- !app_assoc; reflexivity).
    apply TrimSpace_g_quote. }
  rewrite HT.
  replace (str_eqb (A ++ lit ", " ++ PP ++ lit ", " ++ NN) (lit "gemspec")) with false
    by (subst A; reflexivity).
  cbv iota. f_equal.
  - rewrite (search_skip_free _ [lit "path:"]).
    + rewrite comma_sp, !search_cons_none by reflexivity.
      rewrite (search_here _ _ p) by (subst PP; unfold quoted; rewrite <- !app_assoc;
          exact (quoted_after_line (lit "path:") false p (lit ", " ++ NN) Hp Hpq)). reflexivity.
    + exact (quoted_after_kw _ _).
    + constructor; [|constructor]. split; [|cbn; intuition discriminate].
      apply (HA (lit "path")); [solve_colon_kw|reflexivity].
  - assert (E : A ++ lit ", " ++ PP ++ lit ", " ++ NN = (A ++ lit ", " ++ PP) ++ lit ", " ++ NN)
      by (rewrite <- !app_assoc; reflexivity).
    rewrite E.
    rewrite (search_skip_free _ [lit "name:"]).
    + rewrite comma_sp, !search_cons_none by reflexivity.
      rewrite (search_here _ _ n) by (subst NN;
          exact (quoted_after_line (lit "name:") false n [] Hn Hnq)). reflexivity.
    + exact (quoted_after_kw _ _).
    + constructor; [|constructor]. split; [|cbn; intuition discriminate].
      change (lit "name:") with (lit "name" ++ [":"%char]).
      apply contains_comma; try discriminate; try (cbn; intuition discriminate).
      * apply HA; [solve_colon_kw|reflexivity].
      * subst PP. apply text_quoted_contains; [solve_colon_kw|exact Hpc|reflexivity].
  - subst A. change (lit "gemspec development_group: :" ++ g)
      with (lit "gemspec" ++ " "%char :: lit "development_group: :" ++ g).
    rewrite <- app_assoc. cbn [app].
    rewrite (search_skip_free _ [lit "development_group:"] (lit "gemspec")).
    + rewrite search_cons_none by reflexivity.
      rewrite (search_here _ _ g) by (rewrite comma_sp; apply dev_group_at_line; (assumption || reflexivity)).
      reflexivity.
    + exact dev_group_at_kw.
    + constructor; [|constructor]. split; [reflexivity|cbn; intuition discriminate].
  - rewrite (search_none _ [lit "glob:"]); [reflexivity|exact (quoted_after_kw _ _)| |reflexivity].
    constructor; [|constructor]. change (lit "glob:") with (lit "glob" ++ [":"%char]).
    apply contains_comma; try discriminate; try (cbn; intuition discriminate).
    + apply HA; [solve_colon_kw|reflexivity].
    + apply contains_comma; try discriminate; try (cbn; intuition discriminate).
      * subst PP. apply text_quoted_contains; [solve_colon_kw|exact Hpc|reflexivity].
      * subst NN. apply text_quoted_contains; [solve_colon_kw|exact Hnc|reflexivity].
Qed.

Lemma parseGemspecDirective_line_witness :
  parseGemspecDirective (lit "gemspec development_group: :" ++ lit "ci" ++ lit ", path: "
                         ++ quoted (lit "components/payment") ++ lit ", name: " ++ quoted (lit "payment_core"))
  = mkGemspecReference (lit "components/payment") (lit "payment_core") (lit "ci") (lit "{,*,*/*}.gemspec").
Proof. apply parseGemspecDirective_line; (discriminate || reflexivity). Defined.
